(** * The zero-dimensional reactor network driver and the method delegator

    A shallow embedding of [ReactorNet.cpp] (class [CanteraZeroD::ReactorNet])
    and of [Delegator.h] (class [Cantera::Delegator]), with the properties
    of the driver and of the delegator proved on the embedding.

    - [Cxx]: what the C++ language contributes: exceptions, process exit,
      undefined behaviour, [int] arithmetic, vector indexing, pointer
      arithmetic on [double*] buffers, counted [for] loops.
    - [Reactor], [Integrator]: the two collaborator interfaces.
    - [ReactorNet]: the driver, method by method.
    - [Toy]: small executable collaborators used to run the driver.
    - [Delegator]: [install], [setDelegate] and [makeDelegate] for the
      methods with a return value; [ToyDelegator]: a class with two
      delegated methods.
    - [DelegatorVoid]: the same for the methods with no return value;
      [ToyDelegatorVoid]: a class with one delegated procedure;
      [DelegatorSpec]: the two errors of [setDelegate].
    - [ReactorNetSpec]: closed forms, invariants and hypotheses.
    - [CxxFacts], [ReactorNetFacts], [DelegatorFacts],
      [DelegatorVoidFacts]: the proofs.
    - [Scenarios], [DelegatorScenarios], [DriverScenarios],
      [DelegateScenarios]: the statements at concrete networks and
      delegates. *)

From Stdlib Require Import ZArith String Floats.PrimFloat.
From stdpp Require Import base list gmap strings.

Local Open Scope Z_scope.

(** [doublereal] is a C [double]: an IEEE 754 binary64 number. *)
Definition doublereal : Type := float.

(* ===================================================================== *)
(** * C++ semantics used by the embedding *)
(* ===================================================================== *)

Module Cxx.

(** Exceptions.  [CanteraError proc msg] is the library's own exception
    and [NotImplementedError] its subclass; [StdLengthError] is what
    [std::vector::resize] throws for an impossible size and
    [StdBadFunctionCall] what calling an empty [std::function] throws;
    [ForeignException] stands for anything else a collaborator may
    throw. *)
Inductive exn : Type :=
| CanteraError (procedure msg : string)
| NotImplementedError (procedure msg : string)
| StdLengthError
| StdBadFunctionCall
| ForeignException (tag : nat).

(** The four ways a call can end: it returns, an exception propagates out
    of it, the process is terminated, or the behaviour is undefined. *)
Inductive outcome (S A : Type) : Type :=
| Ret (a : A) (s : S)
| Throw (e : exn) (s : S)
| Exit (s : S)
| Undef.
Arguments Ret {S A} a s.
Arguments Throw {S A} e s.
Arguments Exit {S A} s.
Arguments Undef {S A}.

(** A statement or expression over a mutable state [S]. *)
Definition M (S A : Type) : Type := S → outcome S A.

Definition ret {S A} (a : A) : M S A := λ s, Ret a s.

Definition bind {S A B} (m : M S A) (k : A → M S B) : M S B :=
  λ s, match m s with
       | Ret a s' => k a s'
       | Throw e s' => Throw e s'
       | Exit s' => Exit s'
       | Undef => Undef
       end.

#[global] Instance M_ret {S} : MRet (M S) := λ A, @ret S A.
#[global] Instance M_bind {S} : MBind (M S) := λ A B k m, bind m k.

Definition throw {S A} (e : exn) : M S A := λ s, Throw e s.
Definition undefined {S A} : M S A := λ _, Undef.
Definition gets {S A} (f : S → A) : M S A := λ s, Ret (f s) s.
Definition modify {S} (f : S → S) : M S unit := λ s, Ret tt (f s).

(** [if (c) stmt;] *)
Definition when {S} (c : bool) (m : M S unit) : M S unit :=
  if c then m else ret tt.

(** [try { body } catch (...) { handler }]: every exception is caught,
    nothing else is. *)
Definition try_catch_all {S A} (body handler : M S A) : M S A :=
  λ s, match body s with
       | Throw _ s' => handler s'
       | o => o
       end.

(** Run a statement on a component [T] of the state. *)
Definition zoom {S T A} (get : S → T) (set : T → S → S) (m : M T A) : M S A :=
  λ s, match m (get s) with
       | Ret a t => Ret a (set t s)
       | Throw e t => Throw e (set t s)
       | Exit t => Exit (set t s)
       | Undef => Undef
       end.

(** ** [int] and [size_t] *)

Definition INT_MIN : Z := - 2 ^ 31.
Definition INT_MAX : Z := 2 ^ 31 - 1.

Definition int_ok (z : Z) : bool := (INT_MIN <=? z) && (z <=? INT_MAX).

(** [a + b] on [int]: signed overflow is undefined behaviour. *)
Definition int_add {S} (a b : Z) : M S Z :=
  if int_ok (a + b) then ret (a + b) else undefined.

(** Conversion of an [int] to [size_t] (64 bits): reduction modulo 2^64. *)
Definition size_t_of_int (z : Z) : Z := z mod 2 ^ 64.

(** ** [std::vector] *)

(** [v[n]] with an [int] index: out of range is undefined behaviour. *)
Definition vec_at {S A} (v : list A) (n : Z) : M S A :=
  if n <? 0 then undefined
  else match v !! Z.to_nat n with
       | Some x => ret x
       | None => undefined
       end.

(** [v.resize(n)] with an [int] argument: a negative [n] converts to a
    [size_t] beyond [max_size()] and the call throws; otherwise the vector
    is cut or padded with value-initialized elements. *)
Definition vec_resize {S A} (dflt : A) (n : Z) (v : list A) : M S (list A) :=
  if n <? 0 then throw StdLengthError
  else ret (take (Z.to_nat n) v ++ replicate (Z.to_nat n - length v)%nat dflt).

(** [std::fill(v.begin(), v.end(), x)] *)
Definition vec_fill {A} (x : A) (v : list A) : list A :=
  replicate (length v) x.

(** ** Buffers behind a [double*]

    A buffer is the list of the cells from the pointer on.  [p + off]
    is defined up to one past the end; a callee that writes [vals]
    through the pointer writes them to the first cells and must stay
    inside the buffer. *)

Definition ptr_add {S A} (buf : list A) (off : Z) : M S (list A) :=
  if (0 <=? off) && (off <=? Z.of_nat (length buf))
  then ret (drop (Z.to_nat off) buf)
  else undefined.

Definition store_at {S A} (buf : list A) (off : Z) (vals : list A) : M S (list A) :=
  if (0 <=? off) && (off + Z.of_nat (length vals) <=? Z.of_nat (length buf))
  then ret (take (Z.to_nat off) buf ++ vals
            ++ drop (Z.to_nat off + length vals) buf)
  else undefined.

(** ** [for (n = n0; n < bound; n++) body]

    [k] is the number of iterations left; the locals that the body
    assigns are threaded as [acc].  Every loop of the driver has a bound
    that its body does not assign, so [k] is fixed when the loop starts. *)
Fixpoint for_loop {S A} (k : nat) (n : Z) (acc : A) (body : Z → A → M S A)
  : M S A :=
  match k with
  | O => ret acc
  | S k' => acc' ← body n acc; for_loop k' (n + 1) acc' body
  end.

End Cxx.
Export Cxx.

(* ===================================================================== *)
(** * The collaborators *)
(* ===================================================================== *)

(** ** Reactor

    The methods of [ReactorBase]/[Reactor] that the driver calls, as an
    interface over the type [R] of a reactor object's state.  A pointer
    argument is passed as the buffer it points into; a method that writes
    through a pointer returns the values it writes to the first cells.
    [ReactorType] and [FlowReactorType] are the type tags of
    [ReactorBase.h], which this file takes as given. *)
Module Reactor.

Class API (R : Type) : Type := {
  ReactorType : Z;
  FlowReactorType : Z;
  type : R → Z;
  neq : R → Z;
  nSensParams : R → Z;
  initialize : doublereal → M R unit;
  evalEqs : doublereal → list doublereal → list doublereal → list doublereal
            → M R (list doublereal);
  updateState : list doublereal → M R unit;
  getInitialConditions : doublereal → Z → list doublereal
                         → M R (list doublereal);
  componentIndex : string → M R Z;
}.

End Reactor.

(** ** FuncEval

    What the integrator sees of the network: the virtual methods of
    [FuncEval] that [ReactorNet] implements, over whatever state [E]
    they act on. *)
Record FuncEval (E : Type) : Type := {
  fe_neq : Z;
  fe_nparams : Z;
  fe_eval : doublereal → list doublereal → list doublereal → list doublereal
            → M E (list doublereal);
  fe_getInitialConditions : doublereal → Z → list doublereal
                            → M E (list doublereal);
}.
Arguments fe_neq {E} _.
Arguments fe_nparams {E} _.
Arguments fe_eval {E} _ _ _ _ _.
Arguments fe_getInitialConditions {E} _ _ _ _.

(** ** Integrator

    The methods of [Integrator] that the driver calls, over the type [I]
    of the integrator object's state.  [initialize], [integrate] and
    [step] call back into the [FuncEval] they were given; they are
    polymorphic in the state [E] behind it, so the callbacks are their
    only access to it.  The method, problem-type and iterator constants
    come from [Integrator.h]. *)
Module Integrator.

Class API (I : Type) : Type := {
  BDF_Method : Z;
  DENSE : Z;
  NOJAC : Z;
  Newton_Iter : Z;
  newIntegrator : string → I;
  setMethod : Z → M I unit;
  setProblemType : Z → M I unit;
  setIterator : Z → M I unit;
  setTolerances : doublereal → Z → list doublereal → M I unit;
  setSensitivityTolerances : doublereal → doublereal → M I unit;
  setMaxStepSize : doublereal → M I unit;
  initialize : ∀ E : Type, doublereal → FuncEval E → M (I * E) unit;
  integrate : ∀ E : Type, FuncEval E → doublereal → M (I * E) unit;
  step : ∀ E : Type, FuncEval E → doublereal → M (I * E) doublereal;
  solution : I → list doublereal;
}.
Arguments initialize {I _ E} _ _ _.
Arguments integrate {I _ E} _ _ _.
Arguments step {I _ E} _ _ _.

End Integrator.

(** ** The logging and error-reporting collaborator

    A [writelog] call is recorded with the format string it used (one
    constructor per format) and the formatted arguments. *)
Inductive logmsg : Type :=
| MsgInitializing
| MsgReactorVariables (n nv : Z)
| MsgSensitivityParams (k : Z)
| MsgNumberOfEquations (n : Z)
| MsgMaximumTimeStep (h : doublereal).

Inductive logevent : Type :=
| LogWrite (m : logmsg)
| LogShowErrors
| LogError (msg : string).

(* ===================================================================== *)
(** * ReactorNet *)
(* ===================================================================== *)

Module ReactorNet.

(** A [ReactorBase*] or [Reactor*]: the address of a reactor object in the
    store of reactor objects, which the caller owns. *)
Definition addr : Type := nat.

Section Driver.

Context {R I : Type} `{!Reactor.API R} `{!Integrator.API I}.

(** The default argument of [initialize(doublereal t0)], given in
    [ReactorNet.h]. *)
Variable initialize_default_t0 : doublereal.

(** ** Data *)

(** The data members of [ReactorNet]. *)
Record ReactorNet : Type := {
  m_r : list addr;
  m_reactors : list addr;
  m_nr : Z;
  m_nreactors : Z;
  m_integ : I;
  m_time : doublereal;
  m_init : bool;
  m_nv : Z;
  m_size : list Z;
  m_atol : list doublereal;
  m_rtol : doublereal;
  m_rtolsens : doublereal;
  m_atols : doublereal;
  m_atolsens : doublereal;
  m_maxstep : doublereal;
  m_verbose : bool;
  m_nparams : list Z;
  m_ntotpar : Z;
}.

(** Everything outside the network object that the driver reads or
    writes: the reactor objects and the log. *)
Record Env : Type := {
  heap : list R;
  logged : list logevent;
}.

Record World : Type := {
  net : ReactorNet;
  env : Env;
}.

Definition set_heap (h : list R) (e : Env) : Env :=
  {| heap := h; logged := logged e |}.
Definition set_logged (l : list logevent) (e : Env) : Env :=
  {| heap := heap e; logged := l |}.
Definition set_net (n : ReactorNet) (w : World) : World :=
  {| net := n; env := env w |}.
Definition set_env (e : Env) (w : World) : World :=
  {| net := net w; env := e |}.

Definition set_m_reactors (v : list addr) (n : ReactorNet) : ReactorNet :=
  {| m_r := m_r n; m_reactors := v; m_nr := m_nr n;
     m_nreactors := m_nreactors n; m_integ := m_integ n; m_time := m_time n;
     m_init := m_init n; m_nv := m_nv n; m_size := m_size n;
     m_atol := m_atol n; m_rtol := m_rtol n; m_rtolsens := m_rtolsens n;
     m_atols := m_atols n; m_atolsens := m_atolsens n;
     m_maxstep := m_maxstep n; m_verbose := m_verbose n;
     m_nparams := m_nparams n; m_ntotpar := m_ntotpar n |}.
Definition set_m_nreactors (v : Z) (n : ReactorNet) : ReactorNet :=
  {| m_r := m_r n; m_reactors := m_reactors n; m_nr := m_nr n;
     m_nreactors := v; m_integ := m_integ n; m_time := m_time n;
     m_init := m_init n; m_nv := m_nv n; m_size := m_size n;
     m_atol := m_atol n; m_rtol := m_rtol n; m_rtolsens := m_rtolsens n;
     m_atols := m_atols n; m_atolsens := m_atolsens n;
     m_maxstep := m_maxstep n; m_verbose := m_verbose n;
     m_nparams := m_nparams n; m_ntotpar := m_ntotpar n |}.
Definition set_m_integ (v : I) (n : ReactorNet) : ReactorNet :=
  {| m_r := m_r n; m_reactors := m_reactors n; m_nr := m_nr n;
     m_nreactors := m_nreactors n; m_integ := v; m_time := m_time n;
     m_init := m_init n; m_nv := m_nv n; m_size := m_size n;
     m_atol := m_atol n; m_rtol := m_rtol n; m_rtolsens := m_rtolsens n;
     m_atols := m_atols n; m_atolsens := m_atolsens n;
     m_maxstep := m_maxstep n; m_verbose := m_verbose n;
     m_nparams := m_nparams n; m_ntotpar := m_ntotpar n |}.
Definition set_m_time (v : doublereal) (n : ReactorNet) : ReactorNet :=
  {| m_r := m_r n; m_reactors := m_reactors n; m_nr := m_nr n;
     m_nreactors := m_nreactors n; m_integ := m_integ n; m_time := v;
     m_init := m_init n; m_nv := m_nv n; m_size := m_size n;
     m_atol := m_atol n; m_rtol := m_rtol n; m_rtolsens := m_rtolsens n;
     m_atols := m_atols n; m_atolsens := m_atolsens n;
     m_maxstep := m_maxstep n; m_verbose := m_verbose n;
     m_nparams := m_nparams n; m_ntotpar := m_ntotpar n |}.
Definition set_m_init (v : bool) (n : ReactorNet) : ReactorNet :=
  {| m_r := m_r n; m_reactors := m_reactors n; m_nr := m_nr n;
     m_nreactors := m_nreactors n; m_integ := m_integ n; m_time := m_time n;
     m_init := v; m_nv := m_nv n; m_size := m_size n;
     m_atol := m_atol n; m_rtol := m_rtol n; m_rtolsens := m_rtolsens n;
     m_atols := m_atols n; m_atolsens := m_atolsens n;
     m_maxstep := m_maxstep n; m_verbose := m_verbose n;
     m_nparams := m_nparams n; m_ntotpar := m_ntotpar n |}.
Definition set_m_nv (v : Z) (n : ReactorNet) : ReactorNet :=
  {| m_r := m_r n; m_reactors := m_reactors n; m_nr := m_nr n;
     m_nreactors := m_nreactors n; m_integ := m_integ n; m_time := m_time n;
     m_init := m_init n; m_nv := v; m_size := m_size n;
     m_atol := m_atol n; m_rtol := m_rtol n; m_rtolsens := m_rtolsens n;
     m_atols := m_atols n; m_atolsens := m_atolsens n;
     m_maxstep := m_maxstep n; m_verbose := m_verbose n;
     m_nparams := m_nparams n; m_ntotpar := m_ntotpar n |}.
Definition set_m_size (v : list Z) (n : ReactorNet) : ReactorNet :=
  {| m_r := m_r n; m_reactors := m_reactors n; m_nr := m_nr n;
     m_nreactors := m_nreactors n; m_integ := m_integ n; m_time := m_time n;
     m_init := m_init n; m_nv := m_nv n; m_size := v;
     m_atol := m_atol n; m_rtol := m_rtol n; m_rtolsens := m_rtolsens n;
     m_atols := m_atols n; m_atolsens := m_atolsens n;
     m_maxstep := m_maxstep n; m_verbose := m_verbose n;
     m_nparams := m_nparams n; m_ntotpar := m_ntotpar n |}.
Definition set_m_atol (v : list doublereal) (n : ReactorNet) : ReactorNet :=
  {| m_r := m_r n; m_reactors := m_reactors n; m_nr := m_nr n;
     m_nreactors := m_nreactors n; m_integ := m_integ n; m_time := m_time n;
     m_init := m_init n; m_nv := m_nv n; m_size := m_size n;
     m_atol := v; m_rtol := m_rtol n; m_rtolsens := m_rtolsens n;
     m_atols := m_atols n; m_atolsens := m_atolsens n;
     m_maxstep := m_maxstep n; m_verbose := m_verbose n;
     m_nparams := m_nparams n; m_ntotpar := m_ntotpar n |}.
Definition set_m_maxstep (v : doublereal) (n : ReactorNet) : ReactorNet :=
  {| m_r := m_r n; m_reactors := m_reactors n; m_nr := m_nr n;
     m_nreactors := m_nreactors n; m_integ := m_integ n; m_time := m_time n;
     m_init := m_init n; m_nv := m_nv n; m_size := m_size n;
     m_atol := m_atol n; m_rtol := m_rtol n; m_rtolsens := m_rtolsens n;
     m_atols := m_atols n; m_atolsens := m_atolsens n;
     m_maxstep := v; m_verbose := m_verbose n;
     m_nparams := m_nparams n; m_ntotpar := m_ntotpar n |}.
Definition set_m_nparams (v : list Z) (n : ReactorNet) : ReactorNet :=
  {| m_r := m_r n; m_reactors := m_reactors n; m_nr := m_nr n;
     m_nreactors := m_nreactors n; m_integ := m_integ n; m_time := m_time n;
     m_init := m_init n; m_nv := m_nv n; m_size := m_size n;
     m_atol := m_atol n; m_rtol := m_rtol n; m_rtolsens := m_rtolsens n;
     m_atols := m_atols n; m_atolsens := m_atolsens n;
     m_maxstep := m_maxstep n; m_verbose := m_verbose n;
     m_nparams := v; m_ntotpar := m_ntotpar n |}.
Definition set_m_ntotpar (v : Z) (n : ReactorNet) : ReactorNet :=
  {| m_r := m_r n; m_reactors := m_reactors n; m_nr := m_nr n;
     m_nreactors := m_nreactors n; m_integ := m_integ n; m_time := m_time n;
     m_init := m_init n; m_nv := m_nv n; m_size := m_size n;
     m_atol := m_atol n; m_rtol := m_rtol n; m_rtolsens := m_rtolsens n;
     m_atols := m_atols n; m_atolsens := m_atolsens n;
     m_maxstep := m_maxstep n; m_verbose := m_verbose n;
     m_nparams := m_nparams n; m_ntotpar := v |}.

(** ** Access paths *)

(** A member of the network object, read or assigned. *)
Definition member {A} (f : ReactorNet → A) : M World A := gets (f ∘ net).
Definition assign {A} (set : A → ReactorNet → ReactorNet) (v : A)
  : M World unit :=
  modify (λ w, set_net (set v (net w)) w).

(** A statement that only touches what is outside the network object. *)
Definition outside {A} (m : M Env A) : M World A := zoom env set_env m.

(** [a->method(...)] for a method that may change the object: the object
    is looked up in the store, the method runs on it, the object is
    written back.  A pointer to no object is undefined behaviour. *)
Definition call_reactor {A} (a : addr) (m : M R A) : M Env A :=
  λ e, match heap e !! a with
       | None => Undef
       | Some r =>
           match m r with
           | Ret x r' => Ret x (set_heap (<[a:=r']> (heap e)) e)
           | Throw ex r' => Throw ex (set_heap (<[a:=r']> (heap e)) e)
           | Exit r' => Exit (set_heap (<[a:=r']> (heap e)) e)
           | Undef => Undef
           end
       end.

(** [a->accessor()] for [type()], [neq()] and [nSensParams()]. *)
Definition ask_reactor {A} (a : addr) (f : R → A) : M Env A :=
  λ e, match heap e !! a with
       | None => Undef
       | Some r => Ret (f r) e
       end.

(** [m_integ->method(...)] for a method without callbacks. *)
Definition call_integ {A} (m : M I A) : M World A :=
  zoom (m_integ ∘ net) (λ i w, set_net (set_m_integ i (net w)) w) m.

(** [m_integ->method(...)] for a method that calls back into the
    network: the integrator object and the outside state change together. *)
Definition call_integ_cb {A} (m : M (I * Env) A) : M World A :=
  zoom (λ w, (m_integ (net w), env w))
       (λ ie w, {| net := set_m_integ ie.1 (net w); env := ie.2 |}) m.

(** ** Logging and error reporting *)

Definition writelog (m : logmsg) : M Env unit :=
  modify (λ e, set_logged (logged e ++ [LogWrite m]) e).

(** Modelled from the spec: [showErrors] and [error] are declared in
    [global.h], which is not among the sources.  The spec has the failure
    "reported through the logging/error-reporting collaborator, and the
    running integration aborted": [showErrors] is recorded as a report on
    the log, and [error] records its message and ends the process. *)
Definition showErrors : M Env unit :=
  modify (λ e, set_logged (logged e ++ [LogShowErrors]) e).
Definition error {A} (msg : string) : M Env A :=
  λ e, Exit (set_logged (logged e ++ [LogError msg]) e).

(** ** The methods *)

(** Modelled from the spec: [ReactorNet::neq()] is defined in
    [ReactorNet.h], which is not among the sources; the spec calls its
    value the total equation count, which is the member [m_nv]. *)
Definition neq (n : ReactorNet) : Z := m_nv n.

(** Modelled from the spec: [ReactorNet::nparams()] is defined in
    [ReactorNet.h] too; its value is the total sensitivity-parameter
    count, the member [m_ntotpar]. *)
Definition nparams (n : ReactorNet) : Z := m_ntotpar n.

(** [ReactorNet::updateState(doublereal* y)] *)
Definition updateState (n : ReactorNet) (y : list doublereal) : M Env unit :=
  for_loop (Z.to_nat (m_nreactors n)) 0 0
    (λ i start,
       r ← vec_at (m_reactors n) i;
       yv ← ptr_add y start;
       call_reactor r (Reactor.updateState yv);;
       sz ← vec_at (m_size n) i;
       int_add start sz);;
  mret tt.

(** The body of the [try] block of [eval]. *)
Definition eval_try (n : ReactorNet) (t : doublereal)
    (y ydot p : list doublereal) : M Env (list doublereal) :=
  updateState n y;;
  acc ← for_loop (Z.to_nat (m_nreactors n)) 0 (0, 0, ydot)
    (λ i '(start, pstart, yd),
       r ← vec_at (m_reactors n) i;
       yv ← ptr_add y start;
       ydv ← ptr_add yd start;
       pv ← ptr_add p pstart;
       vals ← call_reactor r (Reactor.evalEqs t yv ydv pv);
       yd' ← store_at yd start vals;
       sz ← vec_at (m_size n) i;
       start' ← int_add start sz;
       np ← vec_at (m_nparams n) i;
       pstart' ← int_add pstart np;
       mret (start', pstart', yd'));
  mret acc.2.

(** [ReactorNet::eval(doublereal t, doublereal* y, doublereal* ydot,
    doublereal* p)]; the result is the content of [ydot] on return. *)
Definition eval (n : ReactorNet) (t : doublereal)
    (y ydot p : list doublereal) : M Env (list doublereal) :=
  try_catch_all (eval_try n t y ydot p)
                (showErrors;; error "Terminating execution.").

(** [ReactorNet::getInitialConditions(doublereal t0, size_t leny,
    doublereal* y)]; the result is the content of [y] on return. *)
Definition getInitialConditions (n : ReactorNet) (t0 : doublereal)
    (leny : Z) (y : list doublereal) : M Env (list doublereal) :=
  acc ← for_loop (Z.to_nat (m_nreactors n)) 0 (0, y)
    (λ i '(start, y),
       r ← vec_at (m_reactors n) i;
       sz ← vec_at (m_size n) i;
       yv ← ptr_add y start;
       vals ← call_reactor r
                (Reactor.getInitialConditions t0 (size_t_of_int sz) yv);
       y' ← store_at y start vals;
       start' ← int_add start sz;
       mret (start', y'));
  mret acc.2.

(** [ReactorNet::globalComponentIndex(string species, int reactor)].  The
    loop counter [n] is declared before the loop and used after it, so it
    is one of the threaded locals. *)
Definition globalComponentIndex (net : ReactorNet) (species : string)
    (reactor : Z) : M Env Z :=
  acc ← for_loop (Z.to_nat reactor) 0 (0, 0)
    (λ i '(_, start),
       sz ← vec_at (m_size net) i;
       start' ← int_add start sz;
       mret (i + 1, start'));
  r ← vec_at (m_reactors net) acc.1;
  k ← call_reactor r (Reactor.componentIndex species);
  int_add acc.2 k.

(** The network as the integrator sees it. *)
Definition as_FuncEval (n : ReactorNet) : FuncEval Env :=
  {| fe_neq := neq n;
     fe_nparams := nparams n;
     fe_eval := eval n;
     fe_getInitialConditions := getInitialConditions n |}.

(** One turn of the loop of [initialize], for the handle [m_r[n]]. *)
Definition initialize_reactor (t0 : doublereal) (n : Z) : M World unit :=
  rs ← member m_r;
  rn ← vec_at rs n;
  ty ← outside (ask_reactor rn Reactor.type);
  if Reactor.ReactorType <=? ty then
    outside (call_reactor rn (Reactor.initialize t0));;
    reactors ← member m_reactors;
    assign set_m_reactors (reactors ++ [rn]);;
    nv ← outside (ask_reactor rn Reactor.neq);
    size ← member m_size;
    assign set_m_size (size ++ [nv]);;
    nsp ← outside (ask_reactor rn Reactor.nSensParams);
    nparams ← member m_nparams;
    assign set_m_nparams (nparams ++ [nsp]);;
    ntotpar ← member m_ntotpar;
    ntotpar' ← int_add ntotpar nsp;
    assign set_m_ntotpar ntotpar';;
    nv0 ← member m_nv;
    nv1 ← int_add nv0 nv;
    assign set_m_nv nv1;;
    nreactors ← member m_nreactors;
    nreactors' ← int_add nreactors 1;
    assign set_m_nreactors nreactors';;
    verbose ← member m_verbose;
    when verbose
      (outside (writelog (MsgReactorVariables n nv));;
       outside (writelog (MsgSensitivityParams nsp)));;
    ty' ← outside (ask_reactor rn Reactor.type);
    nr ← member m_nr;
    if (ty' =? Reactor.FlowReactorType) && (1 <? nr) then
      throw (CanteraError "ReactorNet::initialize"
                          "FlowReactors must be used alone.")
    else mret tt
  else mret tt.

(** [initialize], from its first statement to the end of the loop over
    the registered handles. *)
Definition initialize_reactors (t0 : doublereal) : M World unit :=
  assign set_m_nv 0;;
  assign set_m_reactors [];;
  assign set_m_nreactors 0;;
  verbose ← member m_verbose;
  when verbose (outside (writelog MsgInitializing));;
  nr ← member m_nr;
  for_loop (Z.to_nat nr) 0 tt (λ n _, initialize_reactor t0 n).

(** [initialize], from the statement after the loop to the end. *)
Definition initialize_integrator (t0 : doublereal) : M World unit :=
  neq0 ← member neq;
  atol ← member m_atol;
  atol' ← vec_resize 0%float neq0 atol;
  assign set_m_atol atol';;
  atols ← member m_atols;
  assign set_m_atol (vec_fill atols atol');;
  rtol ← member m_rtol;
  neq1 ← member neq;
  atol'' ← member m_atol;
  call_integ (Integrator.setTolerances rtol neq1 atol'');;
  rtolsens ← member m_rtolsens;
  atolsens ← member m_atolsens;
  call_integ (Integrator.setSensitivityTolerances rtolsens atolsens);;
  maxstep ← member m_maxstep;
  call_integ (Integrator.setMaxStepSize maxstep);;
  verbose ← member m_verbose;
  when verbose
    (neq2 ← member neq;
     outside (writelog (MsgNumberOfEquations neq2));;
     maxstep' ← member m_maxstep;
     outside (writelog (MsgMaximumTimeStep maxstep')));;
  this ← gets net;
  call_integ_cb (Integrator.initialize t0 (as_FuncEval this));;
  assign set_m_init true.

(** [ReactorNet::initialize(doublereal t0)] *)
Definition initialize (t0 : doublereal) : M World unit :=
  initialize_reactors t0;;
  initialize_integrator t0.

(** The common opening of [advance] and [step]. *)
Definition initialize_if_needed (time : doublereal) : M World unit :=
  init ← member m_init;
  when (negb init)
    (maxstep ← member m_maxstep;
     when (PrimFloat.ltb maxstep 0%float)
       (now ← member m_time;
        assign set_m_maxstep (PrimFloat.sub time now));;
     initialize initialize_default_t0).

(** The statements of [advance] after the opening. *)
Definition advance_integrate (time : doublereal) : M World unit :=
  this ← gets net;
  call_integ_cb (Integrator.integrate (as_FuncEval this) time);;
  assign set_m_time time;;
  this' ← gets net;
  outside (updateState this' (Integrator.solution (m_integ this'))).

(** [ReactorNet::advance(doublereal time)] *)
Definition advance (time : doublereal) : M World unit :=
  initialize_if_needed time;;
  advance_integrate time.

(** The statements of [step] after the opening. *)
Definition step_integrate (time : doublereal) : M World doublereal :=
  this ← gets net;
  reached ← call_integ_cb (Integrator.step (as_FuncEval this) time);
  assign set_m_time reached;;
  this' ← gets net;
  outside (updateState this' (Integrator.solution (m_integ this')));;
  member m_time.

(** [ReactorNet::step(doublereal time)] *)
Definition step (time : doublereal) : M World doublereal :=
  initialize_if_needed time;;
  step_integrate time.

(** [ReactorNet::ReactorNet()], compiled without [DEBUG_MODE]. *)
#[warnings="-inexact-float"]
Definition ReactorNet_new : M Env ReactorNet :=
  λ e,
    match (Integrator.setMethod Integrator.BDF_Method;;
           Integrator.setProblemType (Integrator.DENSE + Integrator.NOJAC);;
           Integrator.setIterator Integrator.Newton_Iter)
            (Integrator.newIntegrator "CVODE") with
    | Ret _ i =>
        Ret {| m_r := []; m_reactors := []; m_nr := 0; m_nreactors := 0;
               m_integ := i; m_time := 0%float; m_init := false; m_nv := 0;
               m_size := []; m_atol := [];
               m_rtol := 1.0e-9%float; m_rtolsens := 1.0e-4%float;
               m_atols := 1.0e-15%float; m_atolsens := 1.0e-4%float;
               m_maxstep := (-1.0)%float; m_verbose := false;
               m_nparams := []; m_ntotpar := 0 |} e
    | Throw ex _ => Throw ex e
    | Exit _ => Exit e
    | Undef => Undef
    end.

(** ** Offsets as the specification words them

    "Reactor i's offset == sum of sizes of reactors [0, i)": the same
    walks over the reactors with every offset written as that prefix sum
    instead of the running [start] and [pstart] of the code. *)

Definition sumZ (l : list Z) : Z := foldr Z.add 0 l.

Definition offset (sizes : list Z) (i : nat) : Z := sumZ (take i sizes).

Fixpoint for_each {S A} (l : list nat) (acc : A) (body : nat → A → M S A)
  : M S A :=
  match l with
  | [] => ret acc
  | i :: l' => acc' ← body i acc; for_each l' acc' body
  end.

Definition updateState_by_offsets (n : ReactorNet) (y : list doublereal)
  : M Env unit :=
  for_each (seq 0 (Z.to_nat (m_nreactors n))) tt
    (λ i _,
       r ← vec_at (m_reactors n) (Z.of_nat i);
       yv ← ptr_add y (offset (m_size n) i);
       call_reactor r (Reactor.updateState yv)).

Definition eval_try_by_offsets (n : ReactorNet) (t : doublereal)
    (y ydot p : list doublereal) : M Env (list doublereal) :=
  updateState_by_offsets n y;;
  for_each (seq 0 (Z.to_nat (m_nreactors n))) ydot
    (λ i yd,
       r ← vec_at (m_reactors n) (Z.of_nat i);
       yv ← ptr_add y (offset (m_size n) i);
       ydv ← ptr_add yd (offset (m_size n) i);
       pv ← ptr_add p (offset (m_nparams n) i);
       vals ← call_reactor r (Reactor.evalEqs t yv ydv pv);
       store_at yd (offset (m_size n) i) vals).

Definition getInitialConditions_by_offsets (n : ReactorNet) (t0 : doublereal)
    (y : list doublereal) : M Env (list doublereal) :=
  for_each (seq 0 (Z.to_nat (m_nreactors n))) y
    (λ i y,
       r ← vec_at (m_reactors n) (Z.of_nat i);
       sz ← vec_at (m_size n) (Z.of_nat i);
       yv ← ptr_add y (offset (m_size n) i);
       vals ← call_reactor r
                (Reactor.getInitialConditions t0 (size_t_of_int sz) yv);
       store_at y (offset (m_size n) i) vals).

(** The tables cover the reactor list and every offset is an [int]. *)
Definition tables_ok (n : ReactorNet) : Prop :=
  (Z.to_nat (m_nreactors n) ≤ length (m_size n))%nat ∧
  (Z.to_nat (m_nreactors n) ≤ length (m_nparams n))%nat ∧
  ∀ i, (i ≤ Z.to_nat (m_nreactors n))%nat →
       int_ok (offset (m_size n) i) = true ∧
       int_ok (offset (m_nparams n) i) = true.

End Driver.

Arguments ReactorNet : clear implicits.
Arguments Env : clear implicits.
Arguments World : clear implicits.

End ReactorNet.

(* ===================================================================== *)
(** * Executable collaborators *)
(* ===================================================================== *)

Module Toy.

(** A reactor whose state is its local state vector.  Its equations are
    [ydot = -y]; it throws from [evalEqs] when [broken]. *)
Record reactor : Type := {
  tag : Z;
  state : list doublereal;
  sens : Z;
  components : list string;
  broken : bool;
}.

Definition set_state (y : list doublereal) (r : reactor) : reactor :=
  {| tag := tag r; state := y; sens := sens r;
     components := components r; broken := broken r |}.

Fixpoint index_of (name : string) (l : list string) : option Z :=
  match l with
  | [] => None
  | x :: l' => if String.eqb name x then Some 0
               else (λ k, k + 1) <$> index_of name l'
  end.

#[global] Instance reactor_api : Reactor.API reactor := {|
  Reactor.ReactorType := 2;
  Reactor.FlowReactorType := 3;
  Reactor.type := tag;
  Reactor.neq := λ r, Z.of_nat (length (state r));
  Reactor.nSensParams := sens;
  Reactor.initialize := λ _, mret tt;
  Reactor.evalEqs := λ _ y _ _ r,
    if broken r
    then Throw (CanteraError "Reactor::evalEqs" "cannot evaluate") r
    else Ret (PrimFloat.opp <$> take (length (state r)) y) r;
  Reactor.updateState := λ y,
    modify (λ r, set_state (take (length (state r)) y) r);
  Reactor.getInitialConditions := λ _ _ _, gets state;
  Reactor.componentIndex := λ name r,
    match index_of name (components r) with
    | Some k => Ret k r
    | None => Throw (CanteraError "Reactor::componentIndex"
                                  "no such component") r
    end;
|}.

(** An integrator that takes the initial conditions at [initialize] and
    reaches any requested time in one explicit Euler step. *)
Record integrator : Type := {
  sol : list doublereal;
  now : doublereal;
  hmax : doublereal;
  tolerances : doublereal * list doublereal;
}.

Definition euler (h : doublereal) (y ydot : list doublereal)
  : list doublereal :=
  zip_with (λ a b, PrimFloat.add a (PrimFloat.mul h b)) y ydot.

Definition zeros (n : Z) : list doublereal := replicate (Z.to_nat n) 0%float.

Definition run_to {E} (fe : FuncEval E) (time : doublereal)
  : M (integrator * E) doublereal :=
  λ ie,
    let i := ie.1 in
    match fe_eval fe (now i) (sol i) (zeros (fe_neq fe))
                  (zeros (fe_nparams fe)) ie.2 with
    | Ret ydot e' =>
        Ret time
            ({| sol := euler (PrimFloat.sub time (now i)) (sol i) ydot;
                now := time; hmax := hmax i; tolerances := tolerances i |},
             e')
    | Throw ex e' => Throw ex (i, e')
    | Exit e' => Exit (i, e')
    | Undef => Undef
    end.

#[global] Instance integrator_api : Integrator.API integrator := {|
  Integrator.BDF_Method := 0;
  Integrator.DENSE := 2;
  Integrator.NOJAC := 4;
  Integrator.Newton_Iter := 0;
  Integrator.newIntegrator := λ _,
    {| sol := []; now := 0%float; hmax := 0%float;
       tolerances := (0%float, []) |};
  Integrator.setMethod := λ _, mret tt;
  Integrator.setProblemType := λ _, mret tt;
  Integrator.setIterator := λ _, mret tt;
  Integrator.setTolerances := λ rtol n atol,
    modify (λ i, {| sol := sol i; now := now i; hmax := hmax i;
                    tolerances := (rtol, take (Z.to_nat n) atol) |});
  Integrator.setSensitivityTolerances := λ _ _, mret tt;
  Integrator.setMaxStepSize := λ h,
    modify (λ i, {| sol := sol i; now := now i; hmax := h;
                    tolerances := tolerances i |});
  Integrator.initialize := λ E t0 fe ie,
    match fe_getInitialConditions fe t0 (size_t_of_int (fe_neq fe))
                                  (zeros (fe_neq fe)) ie.2 with
    | Ret y e' =>
        Ret tt ({| sol := y; now := t0; hmax := hmax ie.1;
                   tolerances := tolerances ie.1 |}, e')
    | Throw ex e' => Throw ex (ie.1, e')
    | Exit e' => Exit (ie.1, e')
    | Undef => Undef
    end;
  Integrator.integrate := λ E fe time, @run_to E fe time;; mret tt;
  Integrator.step := λ E fe time, @run_to E fe time;
  Integrator.solution := sol;
|}.

Import ReactorNet.

Definition mk_reactor (tag : Z) (y : list doublereal) (sens : Z)
    (names : list string) : reactor :=
  {| tag := tag; state := y; sens := sens; components := names;
     broken := false |}.

(** A network as constructed, with the reactors of [rs] registered in
    order (what [addReactor] leaves: the handles in [m_r], their number
    in [m_nr]). *)
Definition network (rs : list reactor) : World reactor integrator :=
  match ReactorNet_new {| heap := rs; logged := [] |} with
  | Ret n e =>
      {| net := {| m_r := seq 0 (length rs); m_reactors := m_reactors n;
                   m_nr := Z.of_nat (length rs);
                   m_nreactors := m_nreactors n; m_integ := m_integ n;
                   m_time := m_time n; m_init := m_init n; m_nv := m_nv n;
                   m_size := m_size n; m_atol := m_atol n;
                   m_rtol := m_rtol n; m_rtolsens := m_rtolsens n;
                   m_atols := m_atols n; m_atolsens := m_atolsens n;
                   m_maxstep := m_maxstep n; m_verbose := m_verbose n;
                   m_nparams := m_nparams n; m_ntotpar := m_ntotpar n |};
         env := e |}
  | _ => {| net := {| m_r := []; m_reactors := []; m_nr := 0;
                      m_nreactors := 0;
                      m_integ := Integrator.newIntegrator "CVODE";
                      m_time := 0%float; m_init := false; m_nv := 0;
                      m_size := []; m_atol := []; m_rtol := 0%float;
                      m_rtolsens := 0%float; m_atols := 0%float;
                      m_atolsens := 0%float; m_maxstep := 0%float;
                      m_verbose := false; m_nparams := [];
                      m_ntotpar := 0 |};
            env := {| heap := rs; logged := [] |} |}
  end.

(** The state a call leaves behind, when it returns. *)
Definition after {S A} (o : outcome S A) : option S :=
  match o with Ret _ s => Some s | _ => None end.

(** The network after [initialize(0.0)], when that returns. *)
Definition initialized (w : World reactor integrator)
  : World reactor integrator :=
  match initialize 0%float w with
  | Ret _ w' => w'
  | _ => w
  end.

(** One reactor with three equations and two sensitivity parameters. *)
Definition one_reactor : World reactor integrator :=
  network [mk_reactor 2 [1%float; 2%float; 3%float] 2 ["T"; "P"; "X"]].

(** A flow reactor on its own, and one next to an ordinary reactor. *)
Definition flow_alone : World reactor integrator :=
  network [mk_reactor 3 [1%float; 2%float] 0 ["z"; "u"]].

Definition flow_and_reactor : World reactor integrator :=
  network [mk_reactor 2 [1%float] 0 ["T"];
           mk_reactor 3 [1%float; 2%float] 0 ["z"; "u"]].

(** A reactor whose [evalEqs] throws, behind a working one. *)
Definition one_broken : World reactor integrator :=
  network [mk_reactor 2 [1%float; 2%float] 0 ["T"; "P"];
           {| tag := 2; state := [3%float]; sens := 0;
              components := ["T"]; broken := true |}].

(** Two reactors with two and four equations. *)
Definition two_reactors : World reactor integrator :=
  network [mk_reactor 2 [1%float; 2%float] 0 ["T"; "P"];
           mk_reactor 2 [3%float; 4%float; 5%float; 6%float] 1
                      ["T"; "X"; "Y"; "Z"]].

(** The two-reactor network after [advance(1.0)], when it returns. *)
Definition after_advance : World reactor integrator :=
  match advance 0%float 1%float two_reactors with
  | Ret _ w' => w'
  | _ => two_reactors
  end.



(** A reservoir (a type tag below [ReactorType]) registered before a
    reactor. *)
Definition reservoir_and_reactor : World reactor integrator :=
  network [mk_reactor 1 [7%float] 0 [];
           mk_reactor 2 [1%float; 2%float] 0 ["T"; "P"]].

(** The network after the loop of [initialize(0.0)], when the loop
    completes. *)
Definition registered_only (w : World reactor integrator)
  : World reactor integrator :=
  match initialize_reactors 0%float w with
  | Ret _ w' => w'
  | _ => w
  end.

End Toy.

(* ===================================================================== *)
(** * Delegator *)
(* ===================================================================== *)

Module Delegator.

(** [operator+] on the two return types that have delegates:
    concatenation on [std::string], addition modulo 2^64 on [size_t]. *)
Class Plus (T : Type) : Type := plus : T → T → T.
#[global] Instance string_plus : Plus string := String.append.
Definition size_t : Type := Z.
#[global] Instance size_t_plus : Plus size_t := λ a b, (a + b) mod 2 ^ 64.

Section Delegates.

(** The state that the delegated methods and the delegates act on. *)
Context {S : Type}.

(** A [std::function<ReturnType(Args ...)>]. *)
Definition method (Args RT : Type) : Type := Args → M S RT.

(** A [std::function<int(ReturnType&, Args ...)>]: from the content of
    the referenced variable and the arguments to the [int] result and
    the content the variable is left with. *)
Definition delegate (Args RT : Type) : Type := RT → Args → M S (Z * RT).

(** An empty [std::function]. *)
Definition empty_function {Args RT} : method Args RT :=
  λ _, throw StdBadFunctionCall.

(** [makeDelegate] for a function with a return value.  [local] is the
    content of the local [ReturnType ret;] before the delegate is handed
    a reference to it. *)
Definition makeDelegate {Args RT} `{!Plus RT} {X : Type} (local : RT)
    (func : delegate Args RT) (when : string) (base : method Args RT)
  : M X (method Args RT) :=
  if String.eqb when "before" then
    mret (λ args,
            r ← func local args;
            if r.1 =? 0 then base args else mret r.2)
  else if String.eqb when "after" then
    mret (λ args,
            ret1 ← base args;
            r ← func local args;
            if r.1 =? 0 then mret ret1 else mret (plus ret1 r.2))
  else if String.eqb when "replace" then
    mret (λ args,
            r ← func local args;
            mret r.2)
  else
    throw (CanteraError "Delegator::makeDelegate"
             ("'when' must be one of 'before', 'after', or 'replace'; not '"
              +:+ when)).

(** The maps of the delegates with a return value.  [m_funcs_s_sz] and
    [m_funcs_sz_csr] hold pointers to the [std::function] members of the
    derived class; each is held here as the function its target
    currently contains. *)
Record Delegator : Type := {
  m_base_s_sz : gmap string (method Z string);
  m_funcs_s_sz : gmap string (method Z string);
  m_base_sz_csr : gmap string (method string size_t);
  m_funcs_sz_csr : gmap string (method string size_t);
}.

Definition set_m_base_s_sz v (d : Delegator) : Delegator :=
  {| m_base_s_sz := v; m_funcs_s_sz := m_funcs_s_sz d;
     m_base_sz_csr := m_base_sz_csr d; m_funcs_sz_csr := m_funcs_sz_csr d |}.
Definition set_m_funcs_s_sz v (d : Delegator) : Delegator :=
  {| m_base_s_sz := m_base_s_sz d; m_funcs_s_sz := v;
     m_base_sz_csr := m_base_sz_csr d; m_funcs_sz_csr := m_funcs_sz_csr d |}.
Definition set_m_base_sz_csr v (d : Delegator) : Delegator :=
  {| m_base_s_sz := m_base_s_sz d; m_funcs_s_sz := m_funcs_s_sz d;
     m_base_sz_csr := v; m_funcs_sz_csr := m_funcs_sz_csr d |}.
Definition set_m_funcs_sz_csr v (d : Delegator) : Delegator :=
  {| m_base_s_sz := m_base_s_sz d; m_funcs_s_sz := m_funcs_s_sz d;
     m_base_sz_csr := m_base_sz_csr d; m_funcs_sz_csr := v |}.

(** [map[name]] on a [std::map] of functions: a missing key is inserted
    with an empty function. *)
Definition map_index {Args RT} (name : string)
    (m : gmap string (method Args RT))
  : method Args RT * gmap string (method Args RT) :=
  match m !! name with
  | Some f => (f, m)
  | None => (empty_function, <[name := empty_function]> m)
  end.

(** [install] for the signature [string(size_t)] *)
Definition install_s_sz (name : string) (base : method Z string)
  : M Delegator unit :=
  modify (λ d, set_m_base_s_sz (<[name := base]> (m_base_s_sz d))
                 (set_m_funcs_s_sz (<[name := base]> (m_funcs_s_sz d)) d)).

(** [install] for the signature [size_t(string)] *)
Definition install_sz_csr (name : string) (base : method string size_t)
  : M Delegator unit :=
  modify (λ d, set_m_base_sz_csr (<[name := base]> (m_base_sz_csr d))
                 (set_m_funcs_sz_csr (<[name := base]> (m_funcs_sz_csr d)) d)).

(** [setDelegate] for the signature [string(size_t)]; the local
    [std::string ret] starts empty. *)
Definition setDelegate_s_sz (name : string) (func : delegate Z string)
    (when : string) : M Delegator unit :=
  funcs ← gets m_funcs_s_sz;
  if decide (is_Some (funcs !! name)) then
    bases ← gets m_base_s_sz;
    modify (set_m_base_s_sz (map_index name bases).2);;
    f ← makeDelegate "" func when (map_index name bases).1;
    modify (λ d, set_m_funcs_s_sz (<[name := f]> (m_funcs_s_sz d)) d)
  else
    throw (NotImplementedError "Delegator::setDelegate"
             ("for function named '" +:+ name
              +:+ "' with signature 'string(size_t)'.")).

(** [setDelegate] for the signature [size_t(string)]; the local
    [size_t ret] is not initialized, [indeterminate] is what it holds. *)
Definition setDelegate_sz_csr (indeterminate : size_t) (name : string)
    (func : delegate string size_t) (when : string) : M Delegator unit :=
  funcs ← gets m_funcs_sz_csr;
  if decide (is_Some (funcs !! name)) then
    bases ← gets m_base_sz_csr;
    modify (set_m_base_sz_csr (map_index name bases).2);;
    f ← makeDelegate indeterminate func when (map_index name bases).1;
    modify (λ d, set_m_funcs_sz_csr (<[name := f]> (m_funcs_sz_csr d)) d)
  else
    throw (NotImplementedError "Delegator::setDelegate"
             ("for function named '" +:+ name
              +:+ "' with signature 'size_t(const string&)'.")).

(** A call of the delegated method [name]. *)
Definition call_s_sz (d : Delegator) (name : string) : method Z string :=
  default empty_function (m_funcs_s_sz d !! name).
Definition call_sz_csr (d : Delegator) (name : string)
  : method string size_t :=
  default empty_function (m_funcs_sz_csr d !! name).

Definition Delegator_new : Delegator :=
  {| m_base_s_sz := ∅; m_funcs_s_sz := ∅;
     m_base_sz_csr := ∅; m_funcs_sz_csr := ∅ |}.

End Delegates.

Arguments Delegator : clear implicits.

End Delegator.

Module ToyDelegator.
Import Delegator.

(** A class with two delegatable methods, over a state that counts the
    calls made. *)
Definition describe : method (S:=nat) Z string :=
  λ _ calls, Ret "abc" (calls + 1)%nat.
Definition size_of : method (S:=nat) string size_t :=
  λ s calls, Ret (Z.of_nat (String.length s)) (calls + 1)%nat.

(** Delegates that set their output, and one that does not. *)
Definition add_def : delegate (S:=nat) Z string :=
  λ _ _ calls, Ret (1, "def") (calls + 1)%nat.
Definition add_three : delegate (S:=nat) string size_t :=
  λ _ _ calls, Ret (1, 3) (calls + 1)%nat.
Definition decline : delegate (S:=nat) Z string :=
  λ local _ calls, Ret (0, local) (calls + 1)%nat.

Definition installed : Delegator nat :=
  match (install_s_sz "describe" describe;;
         install_sz_csr "size_of" size_of) Delegator_new with
  | Ret _ d => d
  | _ => Delegator_new
  end.

End ToyDelegator.

(* ===================================================================== *)
(** * Delegator: the methods with no return value *)
(* ===================================================================== *)

(** The seven overloads of [setDelegate] and of [install] for the
    signatures [void(Args ...)] have one body each, up to the argument
    types, the map they use and the signature named in the error message.
    They are embedded once, over the argument type [Args] and the
    signature text, and instantiated at the seven signatures. *)
Module DelegatorVoid.
Import Delegator.

Section Void.

Context {S Args : Type}.

(** A [std::function<void(Args ...)>]. *)
Definition procedure : Type := method (S:=S) Args unit.

(** [makeDelegate] for a function with no return value.  [base] is
    captured by value. *)
Definition makeDelegate_void {X : Type} (func : procedure) (when : string)
    (base : procedure) : M X procedure :=
  if String.eqb when "before" then
    mret (λ args, func args;; base args)
  else if String.eqb when "after" then
    mret (λ args, base args;; func args)
  else if String.eqb when "replace" then
    mret (λ args, func args)
  else
    throw (CanteraError "Delegator::makeDelegate"
             ("'when' must be one of 'before', 'after', or 'replace'; not '"
              +:+ when)).

(** One of the maps [m_funcs_v], ..., [m_funcs_v_dp_dp_dp] with what its
    pointers point to: [targets] holds the [std::function] members of
    the derived class by address, [m_funcs] the address registered for
    each name. *)
Record Slots : Type := {
  targets : list procedure;
  m_funcs : gmap string nat;
}.

Definition set_targets v (d : Slots) : Slots :=
  {| targets := v; m_funcs := m_funcs d |}.
Definition set_m_funcs v (d : Slots) : Slots :=
  {| targets := targets d; m_funcs := v |}.

(** [*p] for a pointer to a [std::function]. *)
Definition deref (p : nat) : M Slots procedure :=
  ts ← gets targets;
  match ts !! p with
  | Some f => mret f
  | None => undefined
  end.

(** [*p = f] *)
Definition assign_target (p : nat) (f : procedure) : M Slots unit :=
  ts ← gets targets;
  if decide (p < length ts)%nat then modify (set_targets (<[p := f]> ts))
  else undefined.

(** [install(name, target, func)]: [target] is passed by reference, here
    by its address. *)
Definition install_void (name : string) (target : nat) (func : procedure)
  : M Slots unit :=
  assign_target target func;;
  modify (λ d, set_m_funcs (<[name := target]> (m_funcs d)) d).

(** [setDelegate(name, func, when)] *)
Definition setDelegate_void (signature : string) (name : string)
    (func : procedure) (when : string) : M Slots unit :=
  funcs ← gets m_funcs;
  match funcs !! name with
  | None =>
      throw (NotImplementedError "Delegator::setDelegate"
               ("for function named '" +:+ name
                +:+ "' with signature '" +:+ signature +:+ "'."))
  | Some p =>
      base ← deref p;
      f ← makeDelegate_void func when base;
      assign_target p f
  end.

(** A call, by the derived class, of its member at address [p]. *)
Definition call_target (d : Slots) (p : nat) : procedure :=
  λ args, match targets d !! p with
          | Some f => f args
          | None => undefined
          end.

End Void.

Arguments procedure : clear implicits.
Arguments Slots : clear implicits.

(** The seven signatures.  A [std::array<size_t, N>] is the tuple of its
    [N] lengths; [pointer] is the type of a [double*]. *)
Section Signatures.

Context {S pointer : Type}.

Definition setDelegate_v :=
  setDelegate_void (S:=S) (Args:=unit) "void()".
Definition setDelegate_v_b :=
  setDelegate_void (S:=S) (Args:=bool) "void(bool)".
Definition setDelegate_v_d :=
  setDelegate_void (S:=S) (Args:=doublereal) "void(double)".
Definition setDelegate_v_dp :=
  setDelegate_void (S:=S) (Args:=size_t * pointer) "void(double*)".
Definition setDelegate_v_d_dp :=
  setDelegate_void (S:=S) (Args:=size_t * doublereal * pointer)
    "void(double, double*)".
Definition setDelegate_v_d_dp_dp :=
  setDelegate_void (S:=S)
    (Args:=(size_t * size_t) * doublereal * pointer * pointer)
    "void(double, double*, double*)".
Definition setDelegate_v_dp_dp_dp :=
  setDelegate_void (S:=S)
    (Args:=(size_t * size_t * size_t) * pointer * pointer * pointer)
    "void(double*, double*, double*)".

End Signatures.

End DelegatorVoid.

(** Procedures that record their calls, and a class with one delegatable
    procedure. *)
Module ToyDelegatorVoid.
Import Delegator DelegatorVoid.

Definition note (k : nat) : procedure (list nat) bool :=
  λ _ trace, Ret tt (trace ++ [k]).

Definition refuse : procedure (list nat) bool :=
  λ _ trace, Throw (ForeignException 7) trace.

(** The class after its constructor has installed its one member under
    two names. *)
Definition installed_void : Slots (list nat) bool :=
  match (install_void "update" 0%nat (note 0);;
         install_void "refresh" 0%nat (note 0))
          {| targets := [empty_function]; m_funcs := ∅ |} with
  | Ret _ d => d
  | _ => {| targets := []; m_funcs := ∅ |}
  end.

(** The class of [ToyDelegator] after a first delegate has been set. *)
Definition with_def : Delegator nat :=
  match setDelegate_s_sz "describe" ToyDelegator.add_def "after"
          ToyDelegator.installed with
  | Ret _ d => d
  | _ => ToyDelegator.installed
  end.

End ToyDelegatorVoid.

(** The values of [when] that [makeDelegate] accepts. *)
Module DelegatorSpec.

Definition valid_when (when : string) : bool :=
  String.eqb when "before" || String.eqb when "after"
  || String.eqb when "replace".

Definition invalid_when_error (when : string) : exn :=
  CanteraError "Delegator::makeDelegate"
    ("'when' must be one of 'before', 'after', or 'replace'; not '"
     +:+ when).

Definition unknown_name_error (name signature : string) : exn :=
  NotImplementedError "Delegator::setDelegate"
    ("for function named '" +:+ name +:+ "' with signature '"
     +:+ signature +:+ "'.").

End DelegatorSpec.



(* ===================================================================== *)
(** * Specification-level definitions for ReactorNet *)
(* ===================================================================== *)

(** The closed forms, invariants and hypotheses that the statements
    about [ReactorNet] are written with. *)
Module ReactorNetSpec.

Import ReactorNet.

Section Spec.

Context {R I : Type} `{!Reactor.API R} `{!Integrator.API I}.

Implicit Types (w : World R I) (e : Env R) (n : ReactorNet I).

(** The network after a qualifying reactor [a] with [nv] equations and
    [nsp] sensitivity parameters has been recorded. *)
Definition recorded (a : addr) (nv nsp : Z) n : ReactorNet I :=
  set_m_nreactors (m_nreactors n + 1)
    (set_m_nv (m_nv n + nv)
       (set_m_ntotpar (m_ntotpar n + nsp)
          (set_m_nparams (m_nparams n ++ [nsp])
             (set_m_size (m_size n ++ [nv])
                (set_m_reactors (m_reactors n ++ [a]) n))))).

Definition reactor_messages (verbose : bool) (i nv nsp : Z) : list logevent :=
  if verbose
  then [LogWrite (MsgReactorVariables i nv); LogWrite (MsgSensitivityParams nsp)]
  else [].

(** One turn of the loop of [initialize] in closed form. *)
Definition initialize_reactor_result (t0 : doublereal) (i : Z) w
  : outcome (World R I) unit :=
  if i <? 0 then Undef else
  match m_r (net w) !! Z.to_nat i with
  | None => Undef
  | Some a =>
    match heap (env w) !! a with
    | None => Undef
    | Some r =>
      if Reactor.ReactorType <=? Reactor.type r then
        match Reactor.initialize t0 r with
        | Ret _ r' =>
          let nv := Reactor.neq r' in
          let nsp := Reactor.nSensParams r' in
          if int_ok (m_ntotpar (net w) + nsp)
             && int_ok (m_nv (net w) + nv)
             && int_ok (m_nreactors (net w) + 1)
          then
            let w' :=
              {| net := recorded a nv nsp (net w);
                 env := {| heap := <[a:=r']> (heap (env w));
                           logged := logged (env w) ++
                             reactor_messages (m_verbose (net w)) i nv nsp |}
              |} in
            if (Reactor.type r' =? Reactor.FlowReactorType)
               && (1 <? m_nr (net w))
            then Throw (CanteraError "ReactorNet::initialize"
                                     "FlowReactors must be used alone.") w'
            else Ret tt w'
          else Undef
        | Throw ex r' =>
            Throw ex (set_env (set_heap (<[a:=r']> (heap (env w))) (env w)) w)
        | Exit r' =>
            Exit (set_env (set_heap (<[a:=r']> (heap (env w))) (env w)) w)
        | Undef => Undef
        end
      else Ret tt w
    end
  end.

(** The members that [initialize] only reads. *)
Definition same_settings n n' : Prop :=
  m_r n' = m_r n ∧ m_nr n' = m_nr n ∧ m_time n' = m_time n ∧
  m_maxstep n' = m_maxstep n ∧ m_verbose n' = m_verbose n ∧
  m_rtol n' = m_rtol n ∧ m_rtolsens n' = m_rtolsens n ∧
  m_atols n' = m_atols n ∧ m_atolsens n' = m_atolsens n.

Definition qualifies (h : list R) (a : addr) : bool :=
  match h !! a with
  | Some r => Reactor.ReactorType <=? Reactor.type r
  | None => false
  end.

Definition entry_ok (t0 : doublereal) (h : list R) (en : addr * Z * Z) : Prop :=
  ∃ r r', h !! en.1.1 = Some r ∧ Reactor.initialize t0 r = Ret tt r' ∧
          Reactor.neq r' = en.1.2 ∧ Reactor.nSensParams r' = en.2.

Definition loop_inv (t0 : doublereal) w (i : Z) wc : Prop :=
  0 ≤ i ∧ same_settings (net w) (net wc) ∧
  m_init (net wc) = m_init (net w) ∧ m_atol (net wc) = m_atol (net w) ∧
  m_integ (net wc) = m_integ (net w) ∧
  (∀ j a, (Z.to_nat i ≤ j)%nat → m_r (net w) !! j = Some a →
          heap (env wc) !! a = heap (env w) !! a) ∧
  ∃ es : list (addr * Z * Z),
    Forall (entry_ok t0 (heap (env w))) es ∧
    es.*1.*1 = filter (λ a, qualifies (heap (env w)) a = true)
                      (take (Z.to_nat i) (m_r (net w))) ∧
    m_reactors (net wc) = m_reactors (net w) ++ es.*1.*1 ∧
    m_size (net wc) = m_size (net w) ++ es.*1.*2 ∧
    m_nparams (net wc) = m_nparams (net w) ++ es.*2 ∧
    m_nreactors (net wc) = m_nreactors (net w) + Z.of_nat (length es) ∧
    m_nv (net wc) = m_nv (net w) + sumZ es.*1.*2 ∧
    m_ntotpar (net wc) = m_ntotpar (net w) + sumZ es.*2 ∧
    (∀ k, (1 ≤ k ≤ length es)%nat →
          int_ok (m_nv (net w) + sumZ (take k es.*1.*2)) = true ∧
          int_ok (m_ntotpar (net w) + sumZ (take k es.*2)) = true).


(** The tables that [initialize] rebuilds. *)
Definition same_tables n n' : Prop :=
  m_reactors n' = m_reactors n ∧ m_nreactors n' = m_nreactors n ∧
  m_nv n' = m_nv n ∧ m_size n' = m_size n ∧
  m_nparams n' = m_nparams n ∧ m_ntotpar n' = m_ntotpar n.

(** What the loop of [initialize] leaves in the tables: one entry
    [(a, nv, nsp)] per qualifying handle, in registration order. *)
Definition registered (t0 : doublereal) w w1 : Prop :=
  ∃ es : list (addr * Z * Z),
    Forall (entry_ok t0 (heap (env w))) es ∧
    es.*1.*1 = filter (λ a, qualifies (heap (env w)) a = true)
                      (take (Z.to_nat (m_nr (net w))) (m_r (net w))) ∧
    m_reactors (net w1) = es.*1.*1 ∧
    m_size (net w1) = m_size (net w) ++ es.*1.*2 ∧
    m_nparams (net w1) = m_nparams (net w) ++ es.*2 ∧
    m_nreactors (net w1) = Z.of_nat (length es) ∧
    m_nv (net w1) = sumZ es.*1.*2 ∧
    m_ntotpar (net w1) = m_ntotpar (net w) + sumZ es.*2 ∧
    (∀ k, (1 ≤ k ≤ length es)%nat →
          int_ok (sumZ (take k es.*1.*2)) = true ∧
          int_ok (m_ntotpar (net w) + sumZ (take k es.*2)) = true).

(** What the loop of [initialize] leaves alone. *)
Definition loop_frame n n' : Prop :=
  same_settings n n' ∧ m_init n' = m_init n ∧
  m_atol n' = m_atol n ∧ m_integ n' = m_integ n.

(** [eval] with every offset written as a prefix sum. *)
Definition eval_by_offsets n (t : doublereal)
    (y ydot p : list doublereal) : M (Env R) (list doublereal) :=
  try_catch_all (eval_try_by_offsets n t y ydot p)
                (showErrors;; error "Terminating execution.").

(** Reactor [a] of the store [h] reports [v] from the accessor [f] once
    it has been initialized at [t0]. *)
Definition reports (t0 : doublereal) (h : list R) (f : R → Z)
    (a : addr) (v : Z) : Prop :=
  ∃ r r', h !! a = Some r ∧ Reactor.initialize t0 r = Ret tt r' ∧ f r' = v.

(** The network as [advance] and [step] find it once the opening has set
    the default maximum step: [m_maxstep] becomes [time - m_time] when it
    was still negative. *)
Definition with_default_maxstep (time : doublereal) w : World R I :=
  if PrimFloat.ltb (m_maxstep (net w)) 0%float
  then set_net (set_m_maxstep (PrimFloat.sub time (m_time (net w))) (net w)) w
  else w.

(** What [advance] and [step] leave alone in an initialized network. *)
Definition configuration_kept n n' : Prop :=
  same_tables n n' ∧ m_init n' = m_init n ∧ m_maxstep n' = m_maxstep n ∧
  m_atol n' = m_atol n ∧ m_r n' = m_r n ∧ m_nr n' = m_nr n.

(** The size table holds what the reactors of the list report: entry
    [j] of [m_size] is [neq()] of reactor [j] of [m_reactors]. *)
Definition sized n e : Prop :=
  ∀ (j : nat) (a : addr) sz,
    (j < Z.to_nat (m_nreactors n))%nat →
    m_reactors n !! j = Some a → m_size n !! j = Some sz →
    ∃ r, heap e !! a = Some r ∧ Reactor.neq r = sz.

(** A reactor asked for its [neq()] initial values writes at most that
    many. *)
Definition writes_within (t0 : doublereal) : Prop :=
  ∀ (r : R) view vals r1,
    Reactor.getInitialConditions t0 (size_t_of_int (Reactor.neq r)) view r
      = Ret vals r1 →
    Z.of_nat (length vals) ≤ Reactor.neq r.

(** A reactor's [updateState], applied to a buffer that starts with the
    output of its own [getInitialConditions], leaves what [obs] observes
    of the reactor as it was before the two calls. *)
Definition roundtrip {O} (obs : R → O) (t0 : doublereal) : Prop :=
  ∀ (r : R) view vals r1 view' r2,
    Reactor.getInitialConditions t0 (size_t_of_int (Reactor.neq r)) view r
      = Ret vals r1 →
    take (length vals) view' = vals →
    Reactor.updateState view' r1 = Ret tt r2 →
    obs r2 = obs r.

(** The flow-reactor variant among the qualifying reactors. *)
Definition flow_reactor (h : list R) (a : addr) : bool :=
  match h !! a with
  | Some r => (Reactor.ReactorType <=? Reactor.type r)
              && (Reactor.type r =? Reactor.FlowReactorType)
  | None => false
  end.

(** Reactor [r] can be initialized at [t0]: the call returns and keeps
    the type tag, and the reactor then reports counts between 0 and [B]. *)
Definition reactor_ready (t0 : doublereal) (B : Z) (r : R) : Prop :=
  ∃ r', Reactor.initialize t0 r = Ret tt r' ∧
        Reactor.type r' = Reactor.type r ∧
        0 ≤ Reactor.neq r' ≤ B ∧ 0 ≤ Reactor.nSensParams r' ≤ B.

(** The registered handles are distinct, counted by [m_nr], and point to
    reactors that can be initialized, with counts that fit an [int]. *)
Definition handles_ready (t0 : doublereal) (B : Z) w : Prop :=
  NoDup (m_r (net w)) ∧
  m_nr (net w) = Z.of_nat (length (m_r (net w))) ∧
  m_nr (net w) ≤ INT_MAX ∧
  (∀ a, a ∈ m_r (net w) →
        ∃ r, heap (env w) !! a = Some r ∧ reactor_ready t0 B r) ∧
  0 ≤ B ∧ 0 ≤ m_ntotpar (net w) ∧
  m_ntotpar (net w) + m_nr (net w) * B ≤ INT_MAX.

(** The exception of the flow-reactor check. *)
Definition SetupError : exn :=
  CanteraError "ReactorNet::initialize" "FlowReactors must be used alone.".

(** Where the loop of [initialize] stands before handle [i0]. *)
Definition ready_at (B : Z) w0 (i0 : nat) w : Prop :=
  m_r (net w) = m_r (net w0) ∧ m_nr (net w) = m_nr (net w0) ∧
  (∀ j a, (i0 ≤ j)%nat → m_r (net w0) !! j = Some a →
          heap (env w) !! a = heap (env w0) !! a) ∧
  0 ≤ m_nv (net w) ≤ Z.of_nat i0 * B ∧
  0 ≤ m_ntotpar (net w) ≤ m_ntotpar (net w0) + Z.of_nat i0 * B ∧
  0 ≤ m_nreactors (net w) ≤ Z.of_nat i0.

(** The world in which the loop of [initialize] starts. *)
Definition started w : World R I :=
  {| net := set_m_nreactors 0 (set_m_reactors [] (set_m_nv 0 (net w)));
     env := if m_verbose (net w)
            then set_logged (logged (env w) ++ [LogWrite MsgInitializing])
                            (env w)
            else env w |}.


(** What holds of the state that a call leaves behind: [Q] when it
    returns, [E] when it throws or ends the process. *)
Definition ends {St A} (Q : A → St → Prop) (E : St → Prop)
    (o : outcome St A) : Prop :=
  match o with
  | Ret a s => Q a s
  | Throw _ s | Exit s => E s
  | Undef => True
  end.

(** The initialized flag and the settings are those of [n]. *)
Definition flag_kept n n' : Prop :=
  m_init n' = m_init n ∧ same_settings n n'.

(** From [e] to [e'] the log is the same and only reactors of [l] may
    have changed. *)
Definition touches_only (l : list addr) e e' : Prop :=
  logged e' = logged e ∧ length (heap e') = length (heap e) ∧
  ∀ a, a ∉ l → heap e' !! a = heap e !! a.

(** The two entries that the handler of [eval] writes to the log. *)
Definition abort_report : list logevent :=
  [LogShowErrors; LogError "Terminating execution."].



End Spec.

End ReactorNetSpec.

(* ===================================================================== *)
(** * Facts about the C++ layer *)
(* ===================================================================== *)

Module CxxFacts.

Section Outcomes.

Context {St : Type}.

Lemma bind_Ret {A B} (m : M St A) (k : A → M St B) s a s' :
  m s = Ret a s' → (m ≫= k) s = k a s'.
Proof. intros E. unfold mbind, M_bind, bind. by rewrite E. Qed.

Lemma bind_Throw {A B} (m : M St A) (k : A → M St B) s ex s' :
  m s = Throw ex s' → (m ≫= k) s = Throw ex s'.
Proof. intros E. unfold mbind, M_bind, bind. by rewrite E. Qed.

Lemma bind_Exit {A B} (m : M St A) (k : A → M St B) s s' :
  m s = Exit s' → (m ≫= k) s = Exit s'.
Proof. intros E. unfold mbind, M_bind, bind. by rewrite E. Qed.

Lemma bind_Undef {A B} (m : M St A) (k : A → M St B) s :
  m s = Undef → (m ≫= k) s = Undef.
Proof. intros E. unfold mbind, M_bind, bind. by rewrite E. Qed.

(** A sequence returns only if both halves return. *)
Lemma bind_inv_Ret {A B} (m : M St A) (k : A → M St B) s b s2 :
  (m ≫= k) s = Ret b s2 → ∃ a s1, m s = Ret a s1 ∧ k a s1 = Ret b s2.
Proof.
  unfold mbind, M_bind, bind. destruct (m s) as [a s1| | |]; [eauto|done..].
Qed.

Lemma bind_ext {A B} (m : M St A) (k k' : A → M St B) s :
  (∀ a s', k a s' = k' a s') → (m ≫= k) s = (m ≫= k') s.
Proof.
  intros E. unfold mbind, M_bind, bind. destruct (m s); auto.
Qed.

Lemma bind_cong {A B} (m m' : M St A) (k k' : A → M St B) s :
  m s = m' s → (∀ a s', k a s' = k' a s') → (m ≫= k) s = (m' ≫= k') s.
Proof.
  intros Em Ek. unfold mbind, M_bind, bind. rewrite Em.
  destruct (m' s); auto.
Qed.

Lemma bind_assoc {A B C} (m : M St A) (k : A → M St B) (h : B → M St C) s :
  ((m ≫= k) ≫= h) s = (m ≫= (λ a, k a ≫= h)) s.
Proof. unfold mbind, M_bind, bind. by destruct (m s). Qed.

Lemma int_add_Ret (a b : Z) (s : St) :
  int_ok (a + b) = true → int_add a b s = Ret (a + b) s.
Proof. intros E. unfold int_add. by rewrite E. Qed.

Lemma int_add_inv (a b c : Z) (s s' : St) :
  int_add a b s = Ret c s' → c = a + b ∧ s' = s ∧ int_ok (a + b) = true.
Proof.
  unfold int_add. destruct (int_ok (a + b)); [|done].
  intros [= <- <-]. done.
Qed.

Lemma vec_at_Ret {A} (v : list A) (i : nat) (x : A) (s : St) :
  v !! i = Some x → vec_at v (Z.of_nat i) s = Ret x s.
Proof.
  intros E. unfold vec_at.
  destruct (Z.ltb_spec (Z.of_nat i) 0); [lia|].
  by rewrite Nat2Z.id, E.
Qed.

Lemma vec_at_inv {A} (v : list A) (n : Z) (x : A) (s s' : St) :
  vec_at v n s = Ret x s' → 0 ≤ n ∧ v !! Z.to_nat n = Some x ∧ s' = s.
Proof.
  unfold vec_at. destruct (Z.ltb_spec n 0); [done|].
  destruct (v !! Z.to_nat n); [|done]. intros [= <- <-]. done.
Qed.

(** What the catch-all handler sees: only exceptions reach it. *)
Lemma try_catch_all_Throw {A} (body handler : M St A) s ex s' :
  body s = Throw ex s' → try_catch_all body handler s = handler s'.
Proof. intros E. unfold try_catch_all. by rewrite E. Qed.

Lemma try_catch_all_not_Throw {A} (body handler : M St A) s :
  (∀ s1 ex s2, handler s1 ≠ Throw ex s2) →
  ∀ ex s', try_catch_all body handler s ≠ Throw ex s'.
Proof.
  intros Hh ex s'. unfold try_catch_all.
  destruct (body s) eqn:E; auto; done.
Qed.

(** ** Counted loops *)

(** An invariant of the body is an invariant of the loop, when the loop
    returns. *)
Lemma for_loop_invariant {A} (Inv : Z → A → St → Prop)
    (body : Z → A → M St A) :
  (∀ i acc s acc' s',
     Inv i acc s → body i acc s = Ret acc' s' → Inv (i + 1) acc' s') →
  ∀ k n acc s acc' s',
    Inv n acc s → for_loop k n acc body s = Ret acc' s' →
    Inv (n + Z.of_nat k) acc' s'.
Proof.
  intros Hbody k. induction k as [|k IH]; intros n acc s acc' s' HI E.
  - simpl in E. injection E as <- <-. by rewrite Z.add_0_r.
  - simpl in E. apply bind_inv_Ret in E as (a1 & s1 & E1 & E2).
    replace (n + Z.of_nat (S k)) with (n + 1 + Z.of_nat k) by lia.
    eapply IH; [|exact E2]. eapply Hbody; eauto.
Qed.

Lemma for_loop_ext {A} (body body' : Z → A → M St A) k n acc s :
  (∀ i a s', n ≤ i < n + Z.of_nat k → body i a s' = body' i a s') →
  for_loop k n acc body s = for_loop k n acc body' s.
Proof.
  revert n acc s. induction k as [|k IH]; intros n acc s E; [done|].
  simpl. unfold mbind, M_bind, bind. rewrite E by lia.
  destruct (body' n acc s); auto. apply IH. intros. apply E. lia.
Qed.

End Outcomes.

End CxxFacts.

(* ===================================================================== *)
(** * Facts about ReactorNet *)
(* ===================================================================== *)

Module ReactorNetFacts.

Import ReactorNet ReactorNetSpec CxxFacts.

Section Facts.

Context {R I : Type} `{!Reactor.API R} `{!Integrator.API I}.

Implicit Types (w : World R I) (e : Env R) (n : ReactorNet I).

(** ** Inversion of the access paths *)

Lemma member_inv {A} (f : ReactorNet I → A) w a w' :
  member f w = Ret a w' → a = f (net w) ∧ w' = w.
Proof. by intros [= <- <-]. Qed.

Lemma gets_inv {St A} (f : St → A) (s : St) a s' :
  gets f s = Ret a s' → a = f s ∧ s' = s.
Proof. by intros [= <- <-]. Qed.

Lemma assign_inv {A} (set : A → ReactorNet I → ReactorNet I) v w u w' :
  assign set v w = Ret u w' → w' = set_net (set v (net w)) w.
Proof. by intros [= <-]. Qed.

Lemma outside_inv {A} (m : M (Env R) A) w a w' :
  outside m w = Ret a w' → ∃ e', m (env w) = Ret a e' ∧ w' = set_env e' w.
Proof.
  unfold outside, zoom. destruct (m (env w)) as [a' e'| | |]; try done.
  intros [= <- <-]. eauto.
Qed.

Lemma call_integ_inv {A} (m : M I A) w a w' :
  call_integ m w = Ret a w' →
  ∃ i', m (m_integ (net w)) = Ret a i' ∧
        w' = set_net (set_m_integ i' (net w)) w.
Proof.
  unfold call_integ, zoom. simpl.
  destruct (m (m_integ (net w))) as [a' i'| | |]; try done.
  intros [= <- <-]. eauto.
Qed.

Lemma call_integ_cb_inv {A} (m : M (I * Env R) A) w a w' :
  call_integ_cb m w = Ret a w' →
  ∃ i' e', m (m_integ (net w), env w) = Ret a (i', e') ∧
           w' = {| net := set_m_integ i' (net w); env := e' |}.
Proof.
  unfold call_integ_cb, zoom.
  destruct (m (m_integ (net w), env w)) as [a' [i' e']| | |]; try done.
  intros [= <- <-]. eauto.
Qed.

Lemma when_inv {St} (c : bool) (m : M St unit) (s : St) u s' :
  when c m s = Ret u s' →
  (c = true ∧ m s = Ret u s') ∨ (c = false ∧ s' = s).
Proof. destruct c; simpl; [eauto|]. intros [= <-]. eauto. Qed.

Lemma writelog_inv (m : logmsg) e u e' :
  writelog m e = Ret u e' → e' = set_logged (logged e ++ [LogWrite m]) e.
Proof. by intros [= <-]. Qed.

Ltac inv_prim H :=
  first
    [ apply member_inv in H as [-> ->]
    | apply assign_inv in H as ->
    | apply gets_inv in H as [-> ->]
    | apply int_add_inv in H as (-> & -> & ?)
    | apply vec_at_inv in H as (? & ? & ->)
    | apply outside_inv in H as (? & H & ->); try apply writelog_inv in H as ->
    | apply call_integ_inv in H as (? & H & ->)
    | apply call_integ_cb_inv in H as (? & ? & H & ->) ].

Ltac inv_when :=
  match goal with
  | H : when _ _ _ = Ret _ _ |- _ => apply when_inv in H as [[_ H]|[_ ->]]
  end.

Ltac inv_bind H :=
  let a := fresh "a" in
  let s := fresh "w" in
  let E := fresh "E" in
  apply bind_inv_Ret in H as (a & s & E & H);
  try inv_prim E.

Ltac case_if H :=
  match type of H with
  | context [if ?c then _ else _] => destruct c eqn:?
  end.

Ltac munfold :=
  unfold member, assign, outside, call_integ, call_integ_cb, zoom,
    ask_reactor, call_reactor, vec_at, int_add, when, writelog,
    gets, modify, throw, undefined, mbind, M_bind, mret, M_ret, bind, ret.

Lemma same_settings_trans n1 n2 n3 :
  same_settings n1 n2 → same_settings n2 n3 → same_settings n1 n3.
Proof.
  unfold same_settings. intros (?&?&?&?&?&?&?&?&?) (?&?&?&?&?&?&?&?&?).
  repeat split; congruence.
Qed.

Lemma initialize_reactor_closed t0 i w :
  initialize_reactor t0 i w = initialize_reactor_result t0 i w.
Proof.
  destruct w as [n [h lg]].
  unfold initialize_reactor, initialize_reactor_result. munfold. simpl.
  destruct (i <? 0); [done|].
  destruct (m_r n !! Z.to_nat i) as [a|]; [|done]. simpl.
  destruct (h !! a) as [r|] eqn:Ha; [|done]. simpl.
  destruct (Reactor.ReactorType <=? Reactor.type r); [|done].
  simpl. rewrite Ha.
  assert (Hlt : (a < length h)%nat) by (by eapply lookup_lt_Some).
  destruct (Reactor.initialize t0 r) as [[] r'| | |]; try done.
  repeat (progress (simpl; rewrite ?list_lookup_insert_eq by done)).
  destruct (int_ok (m_ntotpar n + Reactor.nSensParams r')); [|done]. simpl.
  destruct (int_ok (m_nv n + Reactor.neq r')); [|done]. simpl.
  destruct (int_ok (m_nreactors n + 1)); [|done]. simpl.
  destruct (m_verbose n);
    repeat (progress (simpl; rewrite ?list_lookup_insert_eq by done)).
  - rewrite <- app_assoc. simpl. by destruct (_ && _).
  - rewrite app_nil_r. by destruct (_ && _).
Qed.

Lemma sumZ_nil : sumZ [] = 0.
Proof. done. Qed.

Lemma sumZ_cons x l : sumZ (x :: l) = x + sumZ l.
Proof. done. Qed.

Lemma sumZ_app l1 l2 : sumZ (l1 ++ l2) = sumZ l1 + sumZ l2.
Proof.
  induction l1 as [|x l1 IH]; [done|].
  rewrite <- app_comm_cons, !sumZ_cons, IH. lia.
Qed.

Lemma sumZ_snoc l x : sumZ (l ++ [x]) = sumZ l + x.
Proof. rewrite sumZ_app, sumZ_cons, sumZ_nil. lia. Qed.

#[local] Arguments sumZ : simpl never.

Lemma loop_inv_start t0 w : loop_inv t0 w 0 w.
Proof.
  repeat split; try done.
  exists []. simpl. rewrite !app_nil_r, sumZ_nil, !Z.add_0_r.
  repeat split; try done. all: simpl in *; lia.
Qed.

Lemma loop_inv_step t0 w i wc u wc' :
  NoDup (m_r (net w)) →
  loop_inv t0 w i wc →
  initialize_reactor t0 i wc = Ret u wc' →
  loop_inv t0 w (i + 1) wc'.
Proof.
  intros Hnd (Hi & Hset & Hinit & Hatol & Hinteg & Hheap & es & Hes & Hfil
              & Hrs & Hsz & Hnp & Hnr & Hnv & Hnt & Hok) E.
  rewrite initialize_reactor_closed in E. unfold initialize_reactor_result in E.
  destruct (Z.ltb_spec i 0); [done|].
  assert (Hmr : m_r (net wc) = m_r (net w)) by apply Hset.
  rewrite Hmr in E.
  destruct (m_r (net w) !! Z.to_nat i) as [a|] eqn:Ha; [|done].
  assert (Hha : heap (env wc) !! a = heap (env w) !! a) by (by eapply Hheap).
  rewrite Hha in E.
  destruct (heap (env w) !! a) as [r|] eqn:Hr; [|done].
  assert (Htake : take (Z.to_nat (i + 1)) (m_r (net w))
                  = take (Z.to_nat i) (m_r (net w)) ++ [a]).
  { replace (Z.to_nat (i + 1)) with (S (Z.to_nat i)) by lia.
    by apply take_S_r. }
  destruct (Reactor.ReactorType <=? Reactor.type r) eqn:Hq.
  - destruct (Reactor.initialize t0 r) as [[] r'| | |] eqn:Hr'; try done.
    destruct (int_ok _ && int_ok _ && int_ok _) eqn:Hint; [|done].
    apply andb_true_iff in Hint as [Hint Hint3].
    apply andb_true_iff in Hint as [Hint1 Hint2].
    destruct (_ && _) in E; [done|]. injection E as <- <-. simpl.
    split; [lia|]. split; [apply Hset|]. split; [done|]. split; [done|].
    split; [done|]. split.
    { intros j a' Hj Ha'. simpl.
      rewrite list_lookup_insert_ne; [apply (Hheap j); [lia|done]|].
      intros ->. pose proof (NoDup_lookup _ _ _ _ Hnd Ha Ha'). lia. }
    exists (es ++ [(a, Reactor.neq r', Reactor.nSensParams r')]).
    simpl. rewrite !fmap_app. simpl. rewrite !sumZ_snoc, length_app. simpl.
    split. { apply Forall_app. split; [done|]. apply Forall_singleton.
             exists r, r'. done. }
    split. { rewrite Htake, filter_app, Hfil. f_equal.
             rewrite filter_cons_True; [done|]. unfold qualifies. by rewrite Hr. }
    rewrite Hrs, Hsz, Hnp, Hnr, Hnv, Hnt, <- !app_assoc.
    repeat split; try done; try lia.
    + destruct (decide (k = S (length es))) as [->|].
      * rewrite take_ge by (rewrite length_app, !length_fmap; simpl; lia).
        rewrite sumZ_snoc, Z.add_assoc. by rewrite Hnv in Hint2.
      * rewrite take_app_le by (rewrite !length_fmap; lia). apply Hok. lia.
    + destruct (decide (k = S (length es))) as [->|].
      * rewrite take_ge by (rewrite length_app, !length_fmap; simpl; lia).
        rewrite sumZ_snoc, Z.add_assoc. by rewrite Hnt in Hint1.
      * rewrite take_app_le by (rewrite !length_fmap; lia). apply Hok. lia.
  - injection E as <- <-.
    split; [lia|]. split; [done|]. split; [done|]. split; [done|].
    split; [done|]. split.
    { intros j a' Hj Ha'. apply (Hheap j); [lia|done]. }
    exists es. repeat split; try done; try apply Hok; try done.
    rewrite Htake, filter_app, Hfil.
    rewrite filter_cons_False, filter_nil, app_nil_r; [done|].
    unfold qualifies. rewrite Hr, Hq. done.
Qed.
Lemma vec_resize_inv {St A} (d : A) (k : Z) (v : list A) (s : St) x s' :
  vec_resize d k v s = Ret x s' →
  0 ≤ k ∧ length x = Z.to_nat k ∧ s' = s.
Proof.
  unfold vec_resize. destruct (Z.ltb_spec k 0); [done|].
  intros [= <- <-]. repeat split; [done|].
  rewrite length_app, length_take, length_replicate. lia.
Qed.

Lemma loop_frame_refl n : loop_frame n n.
Proof. by repeat split. Qed.

Lemma loop_frame_trans n1 n2 n3 :
  loop_frame n1 n2 → loop_frame n2 n3 → loop_frame n1 n3.
Proof.
  intros (S1 & ? & ? & ?) (S2 & ? & ? & ?).
  split; [by eapply same_settings_trans|]. repeat split; congruence.
Qed.

Lemma initialize_reactor_frame t0 i w u w' :
  initialize_reactor t0 i w = Ret u w' → loop_frame (net w) (net w').
Proof.
  rewrite initialize_reactor_closed. unfold initialize_reactor_result.
  intros E. repeat case_match; try done.
  all: injection E as <- <-; by repeat split.
Qed.

Lemma register_loop_frame t0 k i w u w' :
  for_loop k i () (λ j _, initialize_reactor t0 j) w = Ret u w' →
  loop_frame (net w) (net w').
Proof.
  intros E.
  eapply (for_loop_invariant (λ _ _ wc, loop_frame (net w) (net wc)));
    [|apply loop_frame_refl|exact E].
  intros j acc s acc' s' F Eb. eapply loop_frame_trans; [exact F|].
  simpl in Eb. eapply initialize_reactor_frame, Eb.
Qed.

Lemma initialize_reactors_frame t0 w u w1 :
  initialize_reactors t0 w = Ret u w1 → loop_frame (net w) (net w1).
Proof.
  unfold initialize_reactors. intros E. repeat inv_bind E. simpl in *.
  apply register_loop_frame in E.
  inv_when.
  - match goal with H : outside _ _ = _ |- _ => inv_prim H end.
    eapply loop_frame_trans; [|exact E]. by repeat split.
  - eapply loop_frame_trans; [|exact E]. by repeat split.
Qed.

Lemma initialize_integrator_inv t0 w u w' :
  initialize_integrator t0 w = Ret u w' →
  same_settings (net w) (net w') ∧ same_tables (net w) (net w') ∧
  m_init (net w') = true ∧ 0 ≤ m_nv (net w) ∧
  m_atol (net w') = replicate (Z.to_nat (m_nv (net w))) (m_atols (net w)).
Proof.
  unfold initialize_integrator. intros E. repeat inv_bind E. simpl in *.
  inv_prim E.
  match goal with H : vec_resize _ _ _ _ = _ |- _ =>
    apply vec_resize_inv in H as (Hnv & Hlen & ->) end.
  simpl in *.
  inv_when.
  - match goal with H : (_ ≫= _) _ = _ |- _ =>
      repeat inv_bind H; inv_prim H end.
    simpl. unfold vec_fill. rewrite Hlen. by repeat split.
  - simpl. unfold vec_fill. rewrite Hlen. by repeat split.
Qed.
Lemma register_loop_inv t0 w k u w1 :
  NoDup (m_r (net w)) →
  for_loop k 0 () (λ j _, initialize_reactor t0 j) w = Ret u w1 →
  loop_inv t0 w (Z.of_nat k) w1.
Proof.
  intros Hnd E.
  pose proof (for_loop_invariant (λ i _ wc, loop_inv t0 w i wc)
                (λ j _, initialize_reactor t0 j)) as L.
  simpl in L. apply (L (λ i _ s _ s' HI Eb, loop_inv_step t0 w i s _ s' Hnd HI Eb)
                       k 0 () w u w1 (loop_inv_start t0 w) E).
Qed.

Lemma initialize_reactors_registered t0 w u w1 :
  NoDup (m_r (net w)) →
  initialize_reactors t0 w = Ret u w1 → registered t0 w w1.
Proof.
  unfold initialize_reactors. intros Hnd E. repeat inv_bind E. simpl in *.
  assert (∃ lg ws, ws = {| net := set_m_nreactors 0
                            (set_m_reactors [] (set_m_nv 0 (net w)));
                   env := set_logged lg (env w) |} ∧
      for_loop (Z.to_nat (m_nr (net ws))) 0 ()
        (λ j _, initialize_reactor t0 j) ws = Ret u w1)
    as (lg & ws & Hws & EL).
  { inv_when.
    - match goal with H : outside _ _ = _ |- _ => inv_prim H end.
      eexists _, _. split; [|exact E]. done.
    - exists (logged (env w)). eexists. split; [|exact E]. by destruct w as [? []]. }
  clear E. apply register_loop_inv in EL; [|by subst ws].
  destruct EL as (_ & _ & _ & _ & _ & _ & es & Hes & Hfil & Hrs & Hsz & Hnp
                  & Hnr & Hnv & Hnt & Hok).
  subst ws. simpl in *. rewrite Nat2Z.id in Hfil.
  exists es. rewrite Z.add_0_l in *.
  repeat split; try done.
  - specialize (Hok k ltac:(done)). rewrite Z.add_0_l in Hok. apply Hok.
  - apply Hok. done.
Qed.
(** ** Running sums are prefix sums *)

Lemma offset_S sizes i sz :
  sizes !! i = Some sz → offset sizes (S i) = offset sizes i + sz.
Proof.
  intros E. unfold offset. rewrite (take_S_r _ _ _ E). apply sumZ_snoc.
Qed.

(** The loop of [updateState] from reactor [i0] on, entered with the
    prefix sum as [start]. *)
Lemma updateState_loop n y k i0 e :
  (i0 + k ≤ length (m_size n))%nat →
  (∀ j, (j ≤ i0 + k)%nat → int_ok (offset (m_size n) j) = true) →
  (for_loop k (Z.of_nat i0) (offset (m_size n) i0)
     (λ i start,
        r ← vec_at (m_reactors n) i;
        yv ← ptr_add y start;
        call_reactor r (Reactor.updateState yv);;
        sz ← vec_at (m_size n) i;
        int_add start sz);;
   mret tt) e
  = for_each (seq i0 k) tt
      (λ i _,
         r ← vec_at (m_reactors n) (Z.of_nat i);
         yv ← ptr_add y (offset (m_size n) i);
         call_reactor r (Reactor.updateState yv)) e.
Proof.
  revert i0 e. induction k as [|k IH]; intros i0 e Hlen Hok; [done|].
  destruct (lookup_lt_is_Some_2 (m_size n) i0 ltac:(lia)) as [sz Hsz].
  simpl. rewrite !bind_assoc. apply bind_ext. intros r e1.
  rewrite ?bind_assoc. apply bind_ext. intros yv e2.
  rewrite ?bind_assoc. apply bind_ext. intros [] e3.
  rewrite ?bind_assoc.
  rewrite (bind_Ret _ _ _ _ _ (vec_at_Ret _ _ _ e3 Hsz)).
  rewrite ?bind_assoc.
  rewrite (bind_Ret _ _ _ (offset (m_size n) i0 + sz) e3).
  2:{ apply int_add_Ret. rewrite <- (offset_S _ _ _ Hsz). apply Hok. lia. }
  rewrite <- (offset_S _ _ _ Hsz).
  replace (Z.of_nat i0 + 1) with (Z.of_nat (S i0)) by lia.
  apply IH; [lia|]. intros j Hj. apply Hok. lia.
Qed.
Lemma updateState_offsets n y e :
  tables_ok n → updateState n y e = updateState_by_offsets n y e.
Proof.
  intros (Hs & _ & Hok). unfold updateState, updateState_by_offsets.
  apply (updateState_loop n y _ 0 e); [done|]. intros j Hj. by apply Hok.
Qed.

(** The loop of [eval] from reactor [i0] on. *)
Lemma eval_loop n t y p k i0 ydot e :
  (i0 + k ≤ length (m_size n))%nat →
  (i0 + k ≤ length (m_nparams n))%nat →
  (∀ j, (j ≤ i0 + k)%nat →
        int_ok (offset (m_size n) j) = true ∧
        int_ok (offset (m_nparams n) j) = true) →
  (acc ← for_loop k (Z.of_nat i0)
           (offset (m_size n) i0, offset (m_nparams n) i0, ydot)
           (λ i '(start, pstart, yd),
              r ← vec_at (m_reactors n) i;
              yv ← ptr_add y start;
              ydv ← ptr_add yd start;
              pv ← ptr_add p pstart;
              vals ← call_reactor r (Reactor.evalEqs t yv ydv pv);
              yd' ← store_at yd start vals;
              sz ← vec_at (m_size n) i;
              start' ← int_add start sz;
              np ← vec_at (m_nparams n) i;
              pstart' ← int_add pstart np;
              mret (start', pstart', yd'));
   mret acc.2) e
  = for_each (seq i0 k) ydot
      (λ i yd,
         r ← vec_at (m_reactors n) (Z.of_nat i);
         yv ← ptr_add y (offset (m_size n) i);
         ydv ← ptr_add yd (offset (m_size n) i);
         pv ← ptr_add p (offset (m_nparams n) i);
         vals ← call_reactor r (Reactor.evalEqs t yv ydv pv);
         store_at yd (offset (m_size n) i) vals) e.
Proof.
  revert i0 ydot e.
  induction k as [|k IH]; intros i0 ydot e Hlen Hlen' Hok; [done|].
  destruct (lookup_lt_is_Some_2 (m_size n) i0 ltac:(lia)) as [sz Hsz].
  destruct (lookup_lt_is_Some_2 (m_nparams n) i0 ltac:(lia)) as [np Hnp].
  simpl.
  do 6 (rewrite ?bind_assoc; apply bind_ext; intros ? ?).
  rewrite ?bind_assoc.
  erewrite bind_Ret by (by apply vec_at_Ret).
  rewrite ?bind_assoc.
  erewrite bind_Ret.
  2:{ apply int_add_Ret. rewrite <- (offset_S _ _ _ Hsz). apply Hok. lia. }
  rewrite ?bind_assoc.
  erewrite bind_Ret by (by apply vec_at_Ret).
  rewrite ?bind_assoc.
  erewrite bind_Ret.
  2:{ apply int_add_Ret. rewrite <- (offset_S _ _ _ Hnp). apply Hok. lia. }
  rewrite <- (offset_S _ _ _ Hsz), <- (offset_S _ _ _ Hnp).
  replace (Z.of_nat i0 + 1) with (Z.of_nat (S i0)) by lia.
  unfold mret at 1, M_ret, ret. unfold mbind at 1, M_bind at 1, bind at 1.
  apply IH; [lia|lia|]. intros j Hj. apply Hok. lia.
Qed.

Lemma eval_try_offsets n t y ydot p e :
  tables_ok n → eval_try n t y ydot p e = eval_try_by_offsets n t y ydot p e.
Proof.
  intros Hok. unfold eval_try, eval_try_by_offsets.
  apply bind_cong; [by apply updateState_offsets|]. intros [] e1.
  destruct Hok as (Hs & Hp & Hok).
  apply (eval_loop n t y p _ 0 ydot e1); done.
Qed.

(** The loop of [getInitialConditions] from reactor [i0] on. *)
Lemma getInitialConditions_loop n t0 k i0 y e :
  (i0 + k ≤ length (m_size n))%nat →
  (∀ j, (j ≤ i0 + k)%nat → int_ok (offset (m_size n) j) = true) →
  (acc ← for_loop k (Z.of_nat i0) (offset (m_size n) i0, y)
           (λ i '(start, y),
              r ← vec_at (m_reactors n) i;
              sz ← vec_at (m_size n) i;
              yv ← ptr_add y start;
              vals ← call_reactor r
                (Reactor.getInitialConditions t0 (size_t_of_int sz) yv);
              y' ← store_at y start vals;
              start' ← int_add start sz;
              mret (start', y'));
   mret acc.2) e
  = for_each (seq i0 k) y
      (λ i y,
         r ← vec_at (m_reactors n) (Z.of_nat i);
         sz ← vec_at (m_size n) (Z.of_nat i);
         yv ← ptr_add y (offset (m_size n) i);
         vals ← call_reactor r
           (Reactor.getInitialConditions t0 (size_t_of_int sz) yv);
         store_at y (offset (m_size n) i) vals) e.
Proof.
  revert i0 y e.
  induction k as [|k IH]; intros i0 y e Hlen Hok; [done|].
  destruct (lookup_lt_is_Some_2 (m_size n) i0 ltac:(lia)) as [sz Hsz].
  simpl.
  rewrite ?bind_assoc; apply bind_ext; intros r e1.
  rewrite ?bind_assoc.
  rewrite !(bind_Ret _ _ e1 sz e1 (vec_at_Ret _ _ _ e1 Hsz)).
  do 3 (rewrite ?bind_assoc; apply bind_ext; intros ? ?).
  rewrite ?bind_assoc.
  erewrite bind_Ret.
  2:{ apply int_add_Ret. rewrite <- (offset_S _ _ _ Hsz). apply Hok. lia. }
  rewrite <- (offset_S _ _ _ Hsz).
  replace (Z.of_nat i0 + 1) with (Z.of_nat (S i0)) by lia.
  unfold mret at 1, M_ret, ret. unfold mbind at 1, M_bind at 1, bind at 1.
  apply IH; [lia|]. intros j Hj. apply Hok. lia.
Qed.

Lemma getInitialConditions_offsets n t0 leny y e :
  tables_ok n →
  getInitialConditions n t0 leny y e = getInitialConditions_by_offsets n t0 y e.
Proof.
  intros (Hs & _ & Hok). unfold getInitialConditions.
  apply (getInitialConditions_loop n t0 _ 0 y e); [done|].
  intros j Hj. by apply Hok.
Qed.
Lemma entries_report t0 h (es : list (addr * Z * Z)) :
  Forall (entry_ok t0 h) es →
  Forall2 (reports t0 h Reactor.neq) es.*1.*1 es.*1.*2 ∧
  Forall2 (reports t0 h Reactor.nSensParams) es.*1.*1 es.*2.
Proof.
  induction 1 as [|[[a nv] nsp] es (r & r' & Hr & Hi & Hn & Hp) Hes [IH1 IH2]];
    simpl; [by split|].
  split; constructor; try done; by exists r, r'.
Qed.

Lemma registered_tables_ok t0 w w1 :
  m_size (net w) = [] → m_nparams (net w) = [] → m_ntotpar (net w) = 0 →
  registered t0 w w1 → tables_ok (net w1).
Proof.
  intros Hs Hp Ht (es & _ & _ & _ & Hsz & Hnp & Hnr & _ & _ & Hok).
  rewrite Hs in Hsz. rewrite Hp in Hnp. rewrite Ht in Hok. simpl in *.
  unfold tables_ok. rewrite Hsz, Hnp, Hnr, Nat2Z.id, !length_fmap.
  repeat split; try done.
  - destruct i as [|i]; [done|]. apply Hok. lia.
  - destruct i as [|i]; [done|].
    specialize (Hok (S i) ltac:(lia)) as [_ Hok].
    by rewrite Z.add_0_l in Hok.
Qed.

Lemma tables_ok_same n n' : same_tables n n' → tables_ok n → tables_ok n'.
Proof.
  intros (_ & E1 & _ & E2 & E3 & _). unfold tables_ok.
  by rewrite E1, E2, E3.
Qed.

Lemma initialize_inv t0 w u w' :
  initialize t0 w = Ret u w' →
  ∃ w1, initialize_reactors t0 w = Ret tt w1 ∧
        initialize_integrator t0 w1 = Ret tt w'.
Proof.
  unfold initialize. intros E. apply bind_inv_Ret in E as ([] & w1 & E1 & E2).
  destruct u. eauto.
Qed.

(** C3: after [initialize] on a network whose tables are empty, as
    constructed, with each reactor registered once: the reactor list is the
    qualifying handles in registration order, the size and parameter-count
    tables hold what these reactors report after their own [initialize],
    the total equation count is the sum of the sizes, and [eval] scatters
    [y] and then hands reactor [i] the parts of [y] and [ydot] that begin
    at the sum of the sizes before [i] and the part of [p] that begins at
    the sum of the parameter counts before [i]. *)
Theorem offsets_are_prefix_sums t0 w w' :
  NoDup (m_r (net w)) →
  m_size (net w) = [] → m_nparams (net w) = [] → m_ntotpar (net w) = 0 →
  initialize t0 w = Ret tt w' →
  m_reactors (net w')
    = filter (λ a, qualifies (heap (env w)) a = true)
             (take (Z.to_nat (m_nr (net w))) (m_r (net w))) ∧
  Forall2 (reports t0 (heap (env w)) Reactor.neq)
          (m_reactors (net w')) (m_size (net w')) ∧
  Forall2 (reports t0 (heap (env w)) Reactor.nSensParams)
          (m_reactors (net w')) (m_nparams (net w')) ∧
  neq (net w') = sumZ (m_size (net w')) ∧
  ∀ t y ydot p e,
    eval (net w') t y ydot p e = eval_by_offsets (net w') t y ydot p e.
Proof.
  intros Hnd Hs Hp Ht E.
  apply initialize_inv in E as (w1 & E1 & E2).
  apply initialize_reactors_registered in E1; [|done].
  apply initialize_integrator_inv in E2 as (_ & Hsame & _).
  pose proof (registered_tables_ok _ _ _ Hs Hp Ht E1) as Hok.
  apply (tables_ok_same _ _ Hsame) in Hok.
  destruct Hsame as (S1 & S2 & S3 & S4 & S5 & S6).
  destruct E1 as (es & Hes & Hfil & Hrs & Hsz & Hnp & Hnr & Hnv & Hnt & _).
  rewrite Hs in Hsz. rewrite Hp in Hnp. simpl in *.
  apply entries_report in Hes as [F1 F2].
  unfold neq. rewrite S1, S3, S4, S5, Hrs, Hsz, Hnp, Hnv.
  repeat split; try done.
  intros t y ydot p e. unfold eval, eval_by_offsets, try_catch_all.
  by rewrite eval_try_offsets.
Qed.
Lemma initialize_if_needed_initialized d T w :
  m_init (net w) = true → initialize_if_needed d T w = Ret tt w.
Proof. intros E. unfold initialize_if_needed. munfold. simpl. by rewrite E. Qed.

Lemma initialize_if_needed_uninitialized d T w :
  m_init (net w) = false →
  initialize_if_needed d T w = initialize d (with_default_maxstep T w).
Proof.
  intros E. unfold initialize_if_needed, with_default_maxstep. munfold. simpl.
  rewrite E. simpl. by destruct (PrimFloat.ltb _ _).
Qed.

Lemma advance_integrate_inv T w u w' :
  advance_integrate T w = Ret u w' →
  ∃ i1 e1,
    Integrator.integrate (as_FuncEval (net w)) T (m_integ (net w), env w)
      = Ret tt (i1, e1) ∧
    net w' = set_m_time T (set_m_integ i1 (net w)) ∧
    updateState (net w') (Integrator.solution (m_integ (net w'))) e1
      = Ret tt (env w').
Proof.
  unfold advance_integrate. intros E. repeat inv_bind E. inv_prim E.
  simpl in *. repeat match goal with u : () |- _ => destruct u end. eauto.
Qed.

Lemma step_integrate_inv T w tr w' :
  step_integrate T w = Ret tr w' →
  ∃ i1 e1,
    Integrator.step (as_FuncEval (net w)) T (m_integ (net w), env w)
      = Ret tr (i1, e1) ∧
    net w' = set_m_time tr (set_m_integ i1 (net w)) ∧
    updateState (net w') (Integrator.solution (m_integ (net w'))) e1
      = Ret tt (env w').
Proof.
  unfold step_integrate. intros E. repeat inv_bind E. inv_prim E.
  simpl in *. repeat match goal with u : () |- _ => destruct u end. eauto.
Qed.

Lemma advance_integrate_kept T w u w' :
  advance_integrate T w = Ret u w' → configuration_kept (net w) (net w').
Proof.
  intros E. apply advance_integrate_inv in E as (i1 & e1 & _ & -> & _).
  by repeat split.
Qed.

Lemma step_integrate_kept T w tr w' :
  step_integrate T w = Ret tr w' → configuration_kept (net w) (net w').
Proof.
  intros E. apply step_integrate_inv in E as (i1 & e1 & _ & -> & _).
  by repeat split.
Qed.

Lemma initialize_maxstep t0 w u w' :
  initialize t0 w = Ret u w' →
  m_init (net w') = true ∧ m_maxstep (net w') = m_maxstep (net w).
Proof.
  intros E. apply initialize_inv in E as (w1 & E1 & E2).
  apply initialize_reactors_frame in E1 as ((_&_&_&M1&_) & _).
  apply initialize_integrator_inv in E2 as ((_&_&_&M2&_) & _ & Hi & _).
  split; [done|congruence].
Qed.

(** C7: on a network that is not initialized, [advance(T)] and
    [step(T)] run [initialize] and then integrate, from a network whose
    [m_maxstep] has first been set to [T - m_time] if it was negative (not
    yet configured), and they leave [m_init] set and that [m_maxstep]; on
    an initialized network they go straight to the integration and leave
    [m_maxstep], [m_init] and the tables as they were. *)
Theorem lazy_initialize d T w :
  (m_init (net w) = false →
     advance d T w
       = (initialize d;; advance_integrate T) (with_default_maxstep T w) ∧
     step d T w
       = (initialize d;; step_integrate T) (with_default_maxstep T w) ∧
     (∀ w', advance d T w = Ret tt w' →
        m_init (net w') = true ∧
        m_maxstep (net w') = m_maxstep (net (with_default_maxstep T w))) ∧
     (∀ tr w', step d T w = Ret tr w' →
        m_init (net w') = true ∧
        m_maxstep (net w') = m_maxstep (net (with_default_maxstep T w))) ∧
     (PrimFloat.ltb (m_maxstep (net w)) 0%float = true →
        m_maxstep (net (with_default_maxstep T w))
          = PrimFloat.sub T (m_time (net w))) ∧
     (PrimFloat.ltb (m_maxstep (net w)) 0%float = false →
        with_default_maxstep T w = w)) ∧
  (m_init (net w) = true →
     advance d T w = advance_integrate T w ∧
     step d T w = step_integrate T w ∧
     (∀ w', advance d T w = Ret tt w' →
        configuration_kept (net w) (net w')) ∧
     (∀ tr w', step d T w = Ret tr w' →
        configuration_kept (net w) (net w'))).
Proof.
  split; intros Hi.
  - assert (Ea : advance d T w
       = (initialize d;; advance_integrate T) (with_default_maxstep T w)).
    { unfold advance. unfold mbind at 1 2, M_bind, bind.
      by rewrite initialize_if_needed_uninitialized. }
    assert (Es : step d T w
       = (initialize d;; step_integrate T) (with_default_maxstep T w)).
    { unfold step. unfold mbind at 1 2, M_bind, bind.
      by rewrite initialize_if_needed_uninitialized. }
    split; [done|]. split; [done|]. split; [|split; [|split]].
    + intros w' E. rewrite Ea in E.
      apply bind_inv_Ret in E as ([] & w1 & E1 & E2).
      apply initialize_maxstep in E1 as [I1 M1].
      apply advance_integrate_kept in E2 as (_ & I2 & M2 & _).
      split; congruence.
    + intros tr w' E. rewrite Es in E.
      apply bind_inv_Ret in E as ([] & w1 & E1 & E2).
      apply initialize_maxstep in E1 as [I1 M1].
      apply step_integrate_kept in E2 as (_ & I2 & M2 & _).
      split; congruence.
    + intros Hlt. unfold with_default_maxstep. by rewrite Hlt.
    + intros Hlt. unfold with_default_maxstep. by rewrite Hlt.
  - assert (Ea : advance d T w = advance_integrate T w).
    { unfold advance. unfold mbind at 1, M_bind, bind.
      by rewrite initialize_if_needed_initialized. }
    assert (Es : step d T w = step_integrate T w).
    { unfold step. unfold mbind at 1, M_bind, bind.
      by rewrite initialize_if_needed_initialized. }
    split; [done|]. split; [done|]. split.
    + intros w' E. rewrite Ea in E. by eapply advance_integrate_kept.
    + intros tr w' E. rewrite Es in E. by eapply step_integrate_kept.
Qed.
Lemma globalComponentIndex_loop (sizes : list Z) k i0 (e : Env R) :
  (i0 + k ≤ length sizes)%nat →
  (∀ j, (j ≤ i0 + k)%nat → int_ok (offset sizes j) = true) →
  for_loop k (Z.of_nat i0) (Z.of_nat i0, offset sizes i0)
    (λ i '(_, start),
       sz ← vec_at sizes i;
       start' ← int_add start sz;
       mret (i + 1, start')) e
  = Ret (Z.of_nat (i0 + k), offset sizes (i0 + k)%nat) e.
Proof.
  revert i0. induction k as [|k IH]; intros i0 Hlen Hok.
  - simpl. by rewrite Nat.add_0_r.
  - destruct (lookup_lt_is_Some_2 sizes i0 ltac:(lia)) as [sz Hsz].
    simpl. rewrite ?bind_assoc.
    erewrite bind_Ret by (by apply vec_at_Ret).
    rewrite ?bind_assoc. erewrite bind_Ret.
    2:{ apply int_add_Ret. rewrite <- (offset_S _ _ _ Hsz). apply Hok. lia. }
    erewrite bind_Ret by done.
    rewrite <- (offset_S _ _ _ Hsz).
    replace (Z.of_nat i0 + 1) with (Z.of_nat (S i0)) by lia.
    rewrite IH; [|lia|intros; apply Hok; lia].
    by replace (S i0 + k)%nat with (i0 + S k)%nat by lia.
Qed.

(** C8: for a reactor index [r] inside the tables,
    [globalComponentIndex(name, r)] is the sum of the first [r] sizes plus
    the index that reactor [r]'s [componentIndex] returns for the name, and
    it throws what [componentIndex] throws when the reactor does not know
    the name; with sizes 2 and 4 and local index 1 in the second reactor
    it is 3. *)
Theorem globalComponentIndex_offset n species e :
  (∀ (r : nat) a rr,
     m_reactors n !! r = Some a → heap e !! a = Some rr →
     (r ≤ length (m_size n))%nat →
     (∀ j, (j ≤ r)%nat → int_ok (offset (m_size n) j) = true) →
     (∀ k rr',
        Reactor.componentIndex species rr = Ret k rr' →
        int_ok (offset (m_size n) r + k) = true →
        globalComponentIndex n species (Z.of_nat r) e
          = Ret (offset (m_size n) r + k)
                (set_heap (<[a:=rr']> (heap e)) e)) ∧
     (∀ ex rr',
        Reactor.componentIndex species rr = Throw ex rr' →
        globalComponentIndex n species (Z.of_nat r) e
          = Throw ex (set_heap (<[a:=rr']> (heap e)) e))) ∧
  (m_size n = [2; 4] →
   ∀ a rr rr',
     m_reactors n !! 1%nat = Some a → heap e !! a = Some rr →
     Reactor.componentIndex species rr = Ret 1 rr' →
     globalComponentIndex n species 1 e
       = Ret 3 (set_heap (<[a:=rr']> (heap e)) e)).
Proof.
  assert (G : ∀ (r : nat) a rr,
     m_reactors n !! r = Some a → heap e !! a = Some rr →
     (r ≤ length (m_size n))%nat →
     (∀ j, (j ≤ r)%nat → int_ok (offset (m_size n) j) = true) →
     globalComponentIndex n species (Z.of_nat r) e
     = (k ← call_reactor a (Reactor.componentIndex species);
        int_add (offset (m_size n) r) k) e).
  { intros r a rr Ha Hrr Hlen Hok. unfold globalComponentIndex.
    rewrite Nat2Z.id.
    erewrite bind_Ret
      by (apply (globalComponentIndex_loop (m_size n) r 0 e); done).
    simpl. erewrite bind_Ret by (by apply vec_at_Ret). done. }
  split.
  - intros r a rr Ha Hrr Hlen Hok. rewrite (G r a rr) by done. split.
    + intros k rr'  Hk Hint.
      erewrite bind_Ret by (unfold call_reactor; by rewrite Hrr, Hk).
      by apply int_add_Ret.
    + intros ex rr' Hk.
      erewrite bind_Throw by (unfold call_reactor; by rewrite Hrr, Hk). done.
  - intros Hs a rr rr' Ha Hrr Hk.
    change (globalComponentIndex n species 1 e)
      with (globalComponentIndex n species (Z.of_nat 1) e).
    rewrite (G 1%nat a rr); try done.
    + erewrite bind_Ret by (unfold call_reactor; by rewrite Hrr, Hk).
      rewrite Hs. done.
    + rewrite Hs. simpl. lia.
    + intros j Hj. rewrite Hs. by destruct j as [|[|j]]; [..|lia].
Qed.
(** ** Buffers *)

Lemma ptr_add_inv {St A} (buf : list A) off (s : St) v s' :
  ptr_add buf off s = Ret v s' →
  0 ≤ off ≤ Z.of_nat (length buf) ∧ v = drop (Z.to_nat off) buf ∧ s' = s.
Proof.
  unfold ptr_add. destruct (Z.leb_spec 0 off); [|done].
  destruct (Z.leb_spec off (Z.of_nat (length buf))); [|done].
  simpl. intros [= <- <-]. done.
Qed.

Lemma store_at_inv {St A} (buf : list A) off vals (s : St) buf' s' :
  store_at buf off vals s = Ret buf' s' →
  0 ≤ off ∧ off + Z.of_nat (length vals) ≤ Z.of_nat (length buf) ∧
  buf' = take (Z.to_nat off) buf ++ vals
         ++ drop (Z.to_nat off + length vals) buf ∧
  s' = s.
Proof.
  unfold store_at. destruct (Z.leb_spec 0 off); [|done].
  destruct (Z.leb_spec (off + Z.of_nat (length vals)) (Z.of_nat (length buf)));
    [|done].
  simpl. intros [= <- <-]. done.
Qed.

Lemma stored_length {A} (buf vals : list A) (o : nat) :
  (o + length vals ≤ length buf)%nat →
  length (take o buf ++ vals ++ drop (o + length vals) buf) = length buf.
Proof. intros. rewrite !length_app, length_take, length_drop. lia. Qed.

Lemma stored_before {A} (buf vals : list A) (o k : nat) :
  (k ≤ o)%nat → (o + length vals ≤ length buf)%nat →
  take k (take o buf ++ vals ++ drop (o + length vals) buf) = take k buf.
Proof.
  intros. rewrite take_app_le by (rewrite length_take; lia).
  rewrite take_take. f_equal. lia.
Qed.

Lemma stored_there {A} (buf vals : list A) (o : nat) :
  (o + length vals ≤ length buf)%nat →
  take (length vals)
       (drop o (take o buf ++ vals ++ drop (o + length vals) buf)) = vals.
Proof.
  intros. rewrite drop_app_length' by (rewrite length_take; lia).
  by rewrite take_app_length.
Qed.

(** Two buffers that agree up to [k] agree on any window below [k]. *)
Lemma window_agree {A} (b1 b2 : list A) (o len k : nat) :
  (o + len ≤ k)%nat → take k b1 = take k b2 →
  take len (drop o b1) = take len (drop o b2).
Proof.
  intros Hk E.
  assert (F : ∀ b : list A, take len (drop o b) = take len (drop o (take k b))).
  { intros b. replace k with (o + (k - o))%nat by lia.
    rewrite <- take_drop_commute, take_take. f_equal. lia. }
  by rewrite (F b1), (F b2), E.
Qed.

Lemma call_reactor_inv {A} (a : addr) (m : M R A) e x e' :
  call_reactor a m e = Ret x e' →
  ∃ r r', heap e !! a = Some r ∧ m r = Ret x r' ∧
          e' = set_heap (<[a:=r']> (heap e)) e.
Proof.
  unfold call_reactor. destruct (heap e !! a) as [r|]; [|done].
  destruct (m r) as [x' r'| | |] eqn:E; try done.
  intros [= <- <-]. eauto.
Qed.

Lemma for_each_cons_inv {St A} (i : nat) l (acc : A) body (s : St) acc' s' :
  for_each (i :: l) acc body s = Ret acc' s' →
  ∃ acc1 s1, body i acc s = Ret acc1 s1 ∧
             for_each l acc1 body s1 = Ret acc' s'.
Proof. simpl. apply bind_inv_Ret. Qed.

(** ** Gather, then scatter *)

(** The gather of [getInitialConditions] over the reactors [i0, i0 + k):
    every reactor's values are in the buffer at its offset when the walk
    ends, and nothing below the first offset has been touched. *)
Lemma gather_pass n t0 k i0 y e y' e1 :
  NoDup (m_reactors n) →
  writes_within t0 →
  (∀ j a sz, (i0 ≤ j < i0 + k)%nat →
     m_reactors n !! j = Some a → m_size n !! j = Some sz →
     ∃ r, heap e !! a = Some r ∧ Reactor.neq r = sz) →
  for_each (seq i0 k) y
    (λ i y,
       r ← vec_at (m_reactors n) (Z.of_nat i);
       sz ← vec_at (m_size n) (Z.of_nat i);
       yv ← ptr_add y (offset (m_size n) i);
       vals ← call_reactor r
         (Reactor.getInitialConditions t0 (size_t_of_int sz) yv);
       store_at y (offset (m_size n) i) vals) e = Ret y' e1 →
  length y' = length y ∧
  take (Z.to_nat (offset (m_size n) i0)) y'
    = take (Z.to_nat (offset (m_size n) i0)) y ∧
  (∀ a, (∀ j, (i0 ≤ j < i0 + k)%nat → m_reactors n !! j ≠ Some a) →
        heap e1 !! a = heap e !! a) ∧
  (∀ j a, (i0 ≤ j < i0 + k)%nat → m_reactors n !! j = Some a →
     ∃ view r r1 vals,
       heap e !! a = Some r ∧
       Reactor.getInitialConditions t0 (size_t_of_int (Reactor.neq r)) view r
         = Ret vals r1 ∧
       heap e1 !! a = Some r1 ∧
       take (length vals) (drop (Z.to_nat (offset (m_size n) j)) y') = vals).
Proof.
  intros Hnd Hw. revert i0 y e.
  induction k as [|k IH]; intros i0 y e Hsized E.
  { injection E as <- <-. repeat split; try done. intros; lia. }
  change (seq i0 (S k)) with (i0 :: seq (S i0) k) in E.
  apply for_each_cons_inv in E as (y1 & s1 & Eb & E).
  apply bind_inv_Ret in Eb as (a0 & ? & Ea & Eb).
  apply vec_at_inv in Ea as (_ & Ha0 & ->). rewrite Nat2Z.id in Ha0.
  apply bind_inv_Ret in Eb as (sz & ? & Es & Eb).
  apply vec_at_inv in Es as (_ & Hsz & ->). rewrite Nat2Z.id in Hsz.
  apply bind_inv_Ret in Eb as (yv & ? & Ev & Eb).
  apply ptr_add_inv in Ev as (Hoff & -> & ->).
  apply bind_inv_Ret in Eb as (vals & ? & Ec & Eb).
  apply call_reactor_inv in Ec as (r & r1 & Hr & Hget & ->).
  apply store_at_inv in Eb as (_ & Hfit & -> & ->).
  set (o := offset (m_size n) i0) in *.
  destruct (Hsized i0 a0 sz ltac:(lia) Ha0 Hsz) as (r0 & Hr0 & Hneq).
  rewrite Hr in Hr0. injection Hr0 as <-. subst sz.
  assert (Hvals : Z.of_nat (length vals) ≤ Reactor.neq r) by (by eapply Hw).
  assert (HoS : offset (m_size n) (S i0) = o + Reactor.neq r)
    by (by apply offset_S).
  assert (Hfit' : (Z.to_nat o + length vals ≤ length y)%nat) by lia.
  assert (Hother : ∀ j a, (S i0 ≤ j)%nat → m_reactors n !! j = Some a → a ≠ a0).
  { intros j a Hj Ha ->. pose proof (NoDup_lookup _ _ _ _ Hnd Ha Ha0). lia. }
  apply IH in E as (L & T & U & G); clear IH.
  2:{ intros j a sz Hj Ha Hs. simpl.
      assert (a ≠ a0) by (apply (Hother j); [lia|done]).
      rewrite list_lookup_insert_ne by done.
      apply (Hsized j); [lia|done..]. }
  simpl in *. rewrite stored_length in L by done.
  split; [done|]. split; [|split].
  - rewrite HoS in T.
    assert (T' := f_equal (take (Z.to_nat o)) T).
    rewrite !take_take in T'.
    rewrite !Nat.min_l in T' by lia.
    rewrite T'. by apply stored_before.
  - intros a Ha. rewrite U by (intros j Hj; apply Ha; lia).
    apply list_lookup_insert_ne. intros ->. by apply (Ha i0); [lia|].
  - intros j a Hj Ha. destruct (decide (j = i0)) as [->|Hne].
    + assert (a = a0) as -> by congruence.
      exists (drop (Z.to_nat o) y), r, r1, vals.
      split; [done|]. split; [done|]. split.
      * rewrite U.
        -- apply list_lookup_insert_eq. by eapply lookup_lt_Some.
        -- intros j Hj' Hj''. by apply (Hother j a0); [lia|..].
      * rewrite HoS in T. fold o.
        rewrite (window_agree _ _ (Z.to_nat o) (length vals)
                   (Z.to_nat (o + Reactor.neq r)) ltac:(lia) T).
        by apply stored_there.
    + destruct (G j a ltac:(lia) Ha) as (view & r' & r1' & vals' & G1 & G2 & G3 & G4).
      exists view, r', r1', vals'. repeat split; try done.
      rewrite list_lookup_insert_ne in G1; [done|].
      intros <-. by apply (Hother j a0); [lia|..].
Qed.

(** The scatter of [updateState] over the reactors [i0, i0 + k). *)
Lemma scatter_pass n k i0 y e1 u e2 :
  NoDup (m_reactors n) →
  for_each (seq i0 k) tt
    (λ i _,
       r ← vec_at (m_reactors n) (Z.of_nat i);
       yv ← ptr_add y (offset (m_size n) i);
       call_reactor r (Reactor.updateState yv)) e1 = Ret u e2 →
  (∀ a, (∀ j, (i0 ≤ j < i0 + k)%nat → m_reactors n !! j ≠ Some a) →
        heap e2 !! a = heap e1 !! a) ∧
  (∀ j a, (i0 ≤ j < i0 + k)%nat → m_reactors n !! j = Some a →
     ∃ r1 r2,
       heap e1 !! a = Some r1 ∧
       Reactor.updateState (drop (Z.to_nat (offset (m_size n) j)) y) r1
         = Ret tt r2 ∧
       heap e2 !! a = Some r2).
Proof.
  intros Hnd. revert i0 e1.
  induction k as [|k IH]; intros i0 e1 E.
  { injection E as <- <-. split; [done|]. intros; lia. }
  change (seq i0 (S k)) with (i0 :: seq (S i0) k) in E.
  apply for_each_cons_inv in E as ([] & s1 & Eb & E).
  apply bind_inv_Ret in Eb as (a0 & ? & Ea & Eb).
  apply vec_at_inv in Ea as (_ & Ha0 & ->). rewrite Nat2Z.id in Ha0.
  apply bind_inv_Ret in Eb as (yv & ? & Ev & Eb).
  apply ptr_add_inv in Ev as (Hoff & -> & ->).
  apply call_reactor_inv in Eb as (r1 & r2 & Hr & Hupd & ->).
  apply IH in E as (U & G). clear IH. simpl in *.
  assert (Hother : ∀ j a, (S i0 ≤ j)%nat → m_reactors n !! j = Some a → a ≠ a0).
  { intros j a Hj Ha ->. pose proof (NoDup_lookup _ _ _ _ Hnd Ha Ha0). lia. }
  split.
  - intros a Ha. rewrite U by (intros j Hj; apply Ha; lia).
    apply list_lookup_insert_ne. intros ->. by apply (Ha i0); [lia|].
  - intros j a Hj Ha. destruct (decide (j = i0)) as [->|Hne].
    + assert (a = a0) as -> by congruence.
      exists r1, r2. split; [done|]. split; [done|].
      rewrite U.
      * apply list_lookup_insert_eq. by eapply lookup_lt_Some.
      * intros j Hj' Hj''. by apply (Hother j a0); [lia|..].
    + destruct (G j a ltac:(lia) Ha) as (r1' & r2' & G1 & G2 & G3).
      exists r1', r2'. repeat split; try done.
      rewrite list_lookup_insert_ne in G1; [done|].
      intros <-. by apply (Hother j a0); [lia|..].
Qed.
(** C9: on an initialized network (the tables cover the reactor list
    with offsets that are [int]s, and hold the sizes of the distinct
    reactors of the list), [getInitialConditions] into a buffer followed
    by [updateState] from that buffer leaves what is observed of every
    reactor in the store unchanged, given that each reactor writes no more
    initial values than its size and that its own [updateState] undoes
    its own [getInitialConditions]. *)
Theorem gather_then_scatter {O} (obs : R → O) n t0 leny y e y' e1 e2 :
  tables_ok n →
  sized n e →
  NoDup (m_reactors n) →
  writes_within t0 →
  roundtrip obs t0 →
  getInitialConditions n t0 leny y e = Ret y' e1 →
  updateState n y' e1 = Ret tt e2 →
  ∀ (a : addr) r, heap e !! a = Some r →
                  ∃ r2, heap e2 !! a = Some r2 ∧ obs r2 = obs r.
Proof.
  intros Hok Hsized Hnd Hw Hrt Eg Es a r Ha.
  rewrite getInitialConditions_offsets in Eg by done.
  rewrite updateState_offsets in Es by done.
  apply (gather_pass _ _ _ 0 _ _ _ _ Hnd Hw) in Eg as (_ & _ & U1 & G1).
  2:{ intros j a' sz Hj. apply Hsized. lia. }
  apply (scatter_pass _ _ 0 _ _ _ _ Hnd) in Es as (U2 & G2).
  set (k := Z.to_nat (m_nreactors n)) in *.
  destruct (decide (a ∈ take k (m_reactors n))) as [Hin|Hout].
  - apply list_elem_of_lookup in Hin as [j Hj].
    apply lookup_take_Some in Hj as [Hj Hjk].
    destruct (G1 j a ltac:(lia) Hj)
      as (view & r' & r1 & vals & H1 & H2 & H3 & H4).
    destruct (G2 j a ltac:(lia) Hj) as (r1' & r2 & H5 & H6 & H7).
    rewrite Ha in H1. injection H1 as <-.
    rewrite H3 in H5. injection H5 as <-.
    exists r2. split; [done|]. by eapply Hrt.
  - assert (Hno : ∀ j, (0 ≤ j < 0 + k)%nat → m_reactors n !! j ≠ Some a).
    { intros j Hj Hja. apply Hout, list_elem_of_lookup. exists j.
      apply lookup_take_Some. split; [done|lia]. }
    exists r. split; [|done]. by rewrite U2, U1.
Qed.

(** ** The scatter after an integration *)




Lemma int_ok_range z : INT_MIN ≤ z ≤ INT_MAX → int_ok z = true.
Proof.
  intros [? ?]. unfold int_ok.
  apply andb_true_iff. split; by apply Z.leb_le.
Qed.

Lemma INT_MIN_neg : INT_MIN ≤ 0.
Proof. done. Qed.

(** The loop of [initialize] from handle [i0] on, under [handles_ready]:
    it throws at the first flow reactor of a network with several
    handles, and returns otherwise. *)
Lemma register_loop_total t0 B w0 k :
  handles_ready t0 B w0 →
  ∀ i0 w,
    ready_at B w0 i0 w → (i0 + k)%nat = length (m_r (net w0)) →
    (1 < m_nr (net w0) →
     (∃ j a, (i0 ≤ j)%nat ∧ m_r (net w0) !! j = Some a ∧
             flow_reactor (heap (env w0)) a = true) →
     ∃ w', for_loop k (Z.of_nat i0) () (λ j _, initialize_reactor t0 j) w
           = Throw SetupError w') ∧
    (m_nr (net w0) ≤ 1 ∨
     (∀ j a, (i0 ≤ j)%nat → m_r (net w0) !! j = Some a →
             flow_reactor (heap (env w0)) a = false) →
     ∃ w', for_loop k (Z.of_nat i0) () (λ j _, initialize_reactor t0 j) w
           = Ret tt w').
Proof.
  intros (Hnd & Hnr & Hmax & Hready & HB & HT & Hsum).
  induction k as [|k IH]; intros i0 w (Hr & Hn & Hh & Hv & Ht & Hc) Hlen.
  { split.
    - intros _ (j & a & Hj & Ha & _). apply lookup_lt_Some in Ha. lia.
    - intros _. by exists w. }
  destruct (lookup_lt_is_Some_2 (m_r (net w0)) i0 ltac:(lia)) as [a Ha].
  destruct (Hready a) as (r & Hra & r' & Hi & Hty & Hneq & Hnsp).
  { apply list_elem_of_lookup. eauto. }
  assert (Hstep : ∀ w1, ready_at B w0 (S i0) w1 →
    initialize_reactor t0 (Z.of_nat i0) w = Ret tt w1 →
    for_loop (S k) (Z.of_nat i0) () (λ j _, initialize_reactor t0 j) w
    = for_loop k (Z.of_nat (S i0)) () (λ j _, initialize_reactor t0 j) w1).
  { intros w1 _ E1. simpl. erewrite bind_Ret by exact E1.
    by replace (Z.of_nat i0 + 1) with (Z.of_nat (S i0)) by lia. }
  assert (Hbody : initialize_reactor t0 (Z.of_nat i0) w
    = if Reactor.ReactorType <=? Reactor.type r then
        let w1 := {| net := recorded a (Reactor.neq r')
                              (Reactor.nSensParams r') (net w);
                     env := {| heap := <[a:=r']> (heap (env w));
                               logged := logged (env w) ++
                                 reactor_messages (m_verbose (net w))
                                   (Z.of_nat i0) (Reactor.neq r')
                                   (Reactor.nSensParams r') |} |} in
        if (Reactor.type r =? Reactor.FlowReactorType) && (1 <? m_nr (net w0))
        then Throw SetupError w1 else Ret tt w1
      else Ret tt w).
  { rewrite initialize_reactor_closed. unfold initialize_reactor_result.
    destruct (Z.ltb_spec (Z.of_nat i0) 0); [lia|].
    rewrite Nat2Z.id, Hr, Ha, (Hh i0 a ltac:(lia) Ha), Hra.
    destruct (Reactor.ReactorType <=? Reactor.type r); [|done].
    rewrite Hi. rewrite !int_ok_range; [by rewrite Hty, Hn|..].
    all: pose proof INT_MIN_neg; nia. }
  assert (Hnext_skip : ready_at B w0 (S i0) w).
  { repeat split; try done; try lia; try nia.
    intros j a' Hj Ha'. apply (Hh j); [lia|done]. }
  assert (Hnext : ready_at B w0 (S i0)
     {| net := recorded a (Reactor.neq r') (Reactor.nSensParams r') (net w);
        env := {| heap := <[a:=r']> (heap (env w));
                  logged := logged (env w) ++
                    reactor_messages (m_verbose (net w)) (Z.of_nat i0)
                      (Reactor.neq r') (Reactor.nSensParams r') |} |}).
  { repeat split; simpl; try done; try lia; try nia.
    intros j a' Hj Ha'. rewrite list_lookup_insert_ne; [apply (Hh j); [lia|done]|].
    intros ->. pose proof (NoDup_lookup _ _ _ _ Hnd Ha Ha'). lia. }
  assert (Hflow : flow_reactor (heap (env w0)) a
                  = (Reactor.ReactorType <=? Reactor.type r)
                    && (Reactor.type r =? Reactor.FlowReactorType)).
  { unfold flow_reactor. by rewrite Hra. }
  split.
  - intros Hmany (j & a' & Hj & Ha' & Hfl).
    destruct (Reactor.ReactorType <=? Reactor.type r) eqn:Hq.
    + destruct (Reactor.type r =? Reactor.FlowReactorType) eqn:Hf.
      * eexists. simpl. erewrite bind_Throw; [done|].
        rewrite Hbody. simpl. by rewrite (proj2 (Z.ltb_lt _ _) Hmany).
      * rewrite (Hstep _ Hnext) by (by rewrite Hbody).
        apply (IH (S i0) _ Hnext ltac:(lia)); [done|].
        exists j, a'. split; [|done].
        destruct (decide (j = i0)) as [->|]; [|lia].
        rewrite Ha in Ha'. injection Ha' as <-.
        rewrite Hflow in Hfl. done.
    + rewrite (Hstep _ Hnext_skip) by (by rewrite Hbody).
      apply (IH (S i0) _ Hnext_skip ltac:(lia)); [done|].
      exists j, a'. split; [|done].
      destruct (decide (j = i0)) as [->|]; [|lia].
      rewrite Ha in Ha'. injection Ha' as <-.
      rewrite Hflow in Hfl. done.
  - intros Hnone.
    destruct (Reactor.ReactorType <=? Reactor.type r) eqn:Hq.
    + assert ((Reactor.type r =? Reactor.FlowReactorType)
              && (1 <? m_nr (net w0)) = false) as Hchk.
      { destruct Hnone as [Hone|Hnone].
        - rewrite (proj2 (Z.ltb_ge _ _) Hone). apply andb_false_r.
        - specialize (Hnone i0 a ltac:(lia) Ha). rewrite Hflow in Hnone.
          simpl in Hnone. by rewrite Hnone. }
      rewrite (Hstep _ Hnext) by (by rewrite Hbody, Hchk).
      apply (IH (S i0) _ Hnext ltac:(lia)).
      destruct Hnone as [?|Hnone]; [by left|right].
      intros j a' Hj. apply Hnone. lia.
    + rewrite (Hstep _ Hnext_skip) by (by rewrite Hbody).
      apply (IH (S i0) _ Hnext_skip ltac:(lia)).
      destruct Hnone as [?|Hnone]; [by left|right].
      intros j a' Hj. apply Hnone. lia.
Qed.
Lemma initialize_reactors_started t0 w :
  initialize_reactors t0 w
  = for_loop (Z.to_nat (m_nr (net w))) 0 ()
      (λ j _, initialize_reactor t0 j) (started w).
Proof.
  unfold initialize_reactors, started. munfold. simpl.
  destruct w as [n e]. simpl. by destruct (m_verbose n).
Qed.

Lemma started_ready t0 B w :
  handles_ready t0 B w →
  handles_ready t0 B (started w) ∧ ready_at B (started w) 0 (started w) ∧
  heap (env (started w)) = heap (env w).
Proof.
  intros (Hnd & Hnr & Hmax & Hready & HB & HT & Hsum).
  assert (Hh : heap (env (started w)) = heap (env w)).
  { unfold started. simpl. by destruct (m_verbose (net w)). }
  split; [|split; [|done]].
  - repeat split; try done. intros a Ha. rewrite Hh. by apply Hready.
  - repeat split; simpl; try done; lia.
Qed.

Lemma initialize_reactors_total t0 B w :
  handles_ready t0 B w →
  (1 < m_nr (net w) →
   (∃ a, a ∈ m_r (net w) ∧ flow_reactor (heap (env w)) a = true) →
   ∃ w', initialize_reactors t0 w = Throw SetupError w') ∧
  (m_nr (net w) ≤ 1 ∨
   (∀ a, a ∈ m_r (net w) → flow_reactor (heap (env w)) a = false) →
   ∃ w', initialize_reactors t0 w = Ret tt w').
Proof.
  intros Hw. pose proof Hw as (_ & Hnr & _).
  destruct (started_ready _ _ _ Hw) as (Hs & Hat & Hh).
  rewrite initialize_reactors_started.
  pose proof (register_loop_total t0 B (started w)
                (Z.to_nat (m_nr (net w))) Hs 0%nat (started w) Hat) as L.
  rewrite Hh in L.
  destruct L as [L1 L2]; [simpl; rewrite Hnr; lia|].
  split.
  - intros Hmany (a & Ha & Hf). apply L1; [done|].
    apply list_elem_of_lookup in Ha as [j Hj]. exists j, a.
    split; [lia|done].
  - intros Hnone. apply L2. destruct Hnone as [?|Hnone]; [by left|right].
    intros j a _ Hj. apply Hnone, list_elem_of_lookup. eauto.
Qed.

(** C4: with handles that can be initialized, [initialize] throws the
    [CanteraError] "FlowReactors must be used alone." when more than one
    handle is registered and a qualifying reactor is a flow reactor; with
    at most one handle it returns, with [m_init] set, whatever the type
    tag of that reactor, provided the integrator accepts its set-up. *)
Theorem flow_reactors_alone t0 B w :
  handles_ready t0 B w →
  (1 < m_nr (net w) →
   (∃ a, a ∈ m_r (net w) ∧ flow_reactor (heap (env w)) a = true) →
   ∃ w', initialize t0 w = Throw SetupError w') ∧
  (m_nr (net w) ≤ 1 →
   (∀ w1, initialize_reactors t0 w = Ret tt w1 →
          ∃ w', initialize_integrator t0 w1 = Ret tt w') →
   ∃ w', initialize t0 w = Ret tt w' ∧ m_init (net w') = true).
Proof.
  intros Hw. destruct (initialize_reactors_total t0 B w Hw) as [L1 L2].
  split.
  - intros Hmany Hflow. destruct (L1 Hmany Hflow) as [w' E].
    exists w'. unfold initialize. by erewrite bind_Throw.
  - intros Hone Hinteg. destruct (L2 (or_introl Hone)) as [w1 E1].
    destruct (Hinteg w1 E1) as [w' E2]. exists w'.
    assert (E : initialize t0 w = Ret tt w').
    { unfold initialize. by erewrite bind_Ret. }
    split; [done|]. by apply initialize_maxstep in E as [? _].
Qed.

(** C2: [eval] never ends with an exception: whatever is thrown in
    its [try] block, by the scatter or by a reactor's [evalEqs], is caught,
    reported with [showErrors], and [error] then ends the process; nothing
    is run again. *)
Theorem eval_never_throws n t y ydot p e :
  (∀ ex e', eval n t y ydot p e ≠ Throw ex e') ∧
  (∀ ex e', eval_try n t y ydot p e = Throw ex e' →
     eval n t y ydot p e =
       Exit (set_logged (logged e' ++ [LogShowErrors;
                                       LogError "Terminating execution."]) e')).
Proof.
  split.
  - apply try_catch_all_not_Throw. intros s1 ex s2. done.
  - intros ex e' E. unfold eval. rewrite (try_catch_all_Throw _ _ _ _ _ E).
    unfold mbind, M_bind, bind, showErrors, error, modify, set_logged. simpl.
    by rewrite <- app_assoc.
Qed.

(** C5, as the code has it: [getInitialConditions] never looks at [len],
    so its outcome is the same for every [len]; on tables that cover the
    reactor list it gathers each reactor's initial values, in registration
    order, at the prefix sums of the sizes. *)
Theorem getInitialConditions_ignores_len n t0 y e :
  (∀ leny leny',
     getInitialConditions n t0 leny y e = getInitialConditions n t0 leny' y e) ∧
  (tables_ok n →
   ∀ leny,
     getInitialConditions n t0 leny y e
       = getInitialConditions_by_offsets n t0 y e).
Proof.
  split; [done|]. intros Hok leny. by apply getInitialConditions_offsets.
Qed.

(** ** How [initialize] ends *)

Lemma ends_bind {St A B} (Q1 : A → St → Prop) (Q : B → St → Prop)
    (E : St → Prop) (m : M St A) (k : A → M St B) s :
  ends Q1 E (m s) →
  (∀ a s1, m s = Ret a s1 → Q1 a s1 → ends Q E (k a s1)) →
  ends Q E ((m ≫= k) s).
Proof.
  intros Hm Hk. unfold mbind, M_bind, bind.
  destruct (m s) as [a s1| | |] eqn:Em; try done. by apply (Hk a s1).
Qed.

Lemma ends_for_loop {St A} (Inv : A → St → Prop) (E : St → Prop)
    (body : Z → A → M St A) :
  (∀ i acc s, Inv acc s → ends Inv E (body i acc s)) →
  ∀ k i acc s, Inv acc s → ends Inv E (for_loop k i acc body s).
Proof.
  intros Hbody k. induction k as [|k IH]; intros i acc s HI; [done|].
  simpl. eapply ends_bind; [by apply Hbody|]. intros a s1 _ H1. by apply IH.
Qed.

Lemma ends_weaken {St A} (Q Q' : A → St → Prop) (E E' : St → Prop)
    (o : outcome St A) :
  (∀ a s, Q a s → Q' a s) → (∀ s, E s → E' s) → ends Q E o → ends Q' E' o.
Proof. intros HQ HE. destruct o; simpl; auto. Qed.

Lemma flag_kept_refl n : flag_kept n n.
Proof. by repeat split. Qed.

Lemma initialize_reactor_ends t0 n0 i w :
  flag_kept n0 (net w) →
  ends (λ _ w', flag_kept n0 (net w')) (λ w', flag_kept n0 (net w'))
       (initialize_reactor t0 i w).
Proof.
  intros HK. rewrite initialize_reactor_closed. unfold initialize_reactor_result.
  repeat case_match; simpl; try done.
Qed.

Lemma initialize_reactors_ends t0 w :
  ends (λ _ w', flag_kept (net w) (net w')) (λ w', flag_kept (net w) (net w'))
       (initialize_reactors t0 w).
Proof.
  rewrite initialize_reactors_started.
  apply (ends_for_loop (λ _ w', flag_kept (net w) (net w'))).
  - intros i acc s. apply initialize_reactor_ends.
  - by repeat split.
Qed.

Lemma initialize_integrator_ends t0 w :
  ends (λ _ w', m_init (net w') = true ∧ same_settings (net w) (net w'))
       (λ w', flag_kept (net w) (net w'))
       (initialize_integrator t0 w).
Proof.
  unfold initialize_integrator, vec_resize. munfold. simpl.
  repeat case_match; simplify_eq; simpl; try done; by repeat split.
Qed.

(** X1: [initialize] marks the network initialized only by returning: when
    it returns [m_init] is set, and when it throws or the process ends
    inside it [m_init] is as it was; either way the settings ([m_r],
    [m_nr], [m_time], [m_maxstep], [m_verbose], the tolerances) are
    untouched. *)
Theorem initialize_sets_flag_last t0 w :
  ends (λ _ w', m_init (net w') = true ∧ same_settings (net w) (net w'))
       (λ w', flag_kept (net w) (net w'))
       (initialize t0 w).
Proof.
  unfold initialize.
  eapply ends_bind; [apply initialize_reactors_ends|].
  intros [] w1 _ [K1 K2].
  pose proof (initialize_integrator_ends t0 w1) as H1.
  destruct (initialize_integrator t0 w1) as [a w'|ex w'|w'|]; simpl in *;
    try done.
  - destruct H1 as [? ?]. split; [done|]. by eapply same_settings_trans.
  - destruct H1 as [? ?]. split; [congruence|]. by eapply same_settings_trans.
  - destruct H1 as [? ?]. split; [congruence|]. by eapply same_settings_trans.
Qed.

(** ** The tolerance vector and the growth of the tables *)

(** X2: When [initialize] returns, the total equation count is not negative
    and the absolute-tolerance vector has that many entries, each the
    scalar tolerance [m_atols]. *)
Theorem initialize_fills_atol t0 w w' :
  initialize t0 w = Ret tt w' →
  0 ≤ neq (net w') ∧
  m_atol (net w') = replicate (Z.to_nat (neq (net w'))) (m_atols (net w')).
Proof.
  intros E. apply initialize_inv in E as (w1 & E1 & E2).
  apply initialize_integrator_inv in E2
    as ((_&_&_&_&_&_&_&Ha&_) & (_&_&Hnv&_) & _ & Hpos & Hatol).
  unfold neq. rewrite Hnv, Ha. done.
Qed.

(** X3: [initialize] rebuilds the reactor list and the equation count but
    appends to the size and parameter-count tables and adds to the
    parameter total: with each handle registered once, it leaves the old
    entries of [m_size] and [m_nparams] in front of one new entry per
    reactor of the list, and [m_ntotpar] is the old total plus the sum of
    the new parameter counts. *)
Theorem initialize_appends t0 w w' :
  NoDup (m_r (net w)) →
  initialize t0 w = Ret tt w' →
  ∃ sizes params : list Z,
    length sizes = length (m_reactors (net w')) ∧
    length params = length (m_reactors (net w')) ∧
    m_size (net w') = m_size (net w) ++ sizes ∧
    m_nparams (net w') = m_nparams (net w) ++ params ∧
    m_nv (net w') = sumZ sizes ∧
    m_ntotpar (net w') = m_ntotpar (net w) + sumZ params ∧
    m_nreactors (net w') = Z.of_nat (length (m_reactors (net w'))).
Proof.
  intros Hnd E. apply initialize_inv in E as (w1 & E1 & E2).
  apply initialize_reactors_registered in E1; [|done].
  apply initialize_integrator_inv in E2 as (_ & (S1&S2&S3&S4&S5&S6) & _).
  destruct E1 as (es & _ & _ & Hrs & Hsz & Hnp & Hnr & Hnv & Hnt & _).
  exists es.*1.*2, es.*2.
  rewrite S1, S2, S3, S4, S5, S6, Hrs, Hsz, Hnp, Hnr, Hnv, Hnt.
  by rewrite !length_fmap.
Qed.

(** ** Handles that are not reactors *)

Lemma initialize_reactor_skips t0 h0 i w u w' :
  (∀ a, qualifies h0 a = false → heap (env w) !! a = h0 !! a) →
  initialize_reactor t0 i w = Ret u w' →
  ∀ a, qualifies h0 a = false → heap (env w') !! a = h0 !! a.
Proof.
  intros Hs E a Ha. rewrite initialize_reactor_closed in E.
  unfold initialize_reactor_result in E.
  destruct (i <? 0); [done|].
  destruct (m_r (net w) !! Z.to_nat i) as [a0|]; [|done].
  destruct (heap (env w) !! a0) as [r|] eqn:Hr; [|done].
  destruct (Reactor.ReactorType <=? Reactor.type r) eqn:Hq.
  2:{ injection E as <- <-. by apply Hs. }
  destruct (Reactor.initialize t0 r) as [[] r'| | |]; try done.
  destruct (_ && _ && _); [|done].
  destruct (_ && _) in E; [done|]. injection E as <- <-. simpl.
  rewrite list_lookup_insert_ne; [by apply Hs|].
  intros ->. rewrite (Hs a Ha) in Hr. unfold qualifies in Ha.
  rewrite Hr in Ha. congruence.
Qed.

(** X4: The loop of [initialize] never touches a reactor whose type tag is
    below [ReactorType]: such a reactor is in the store as it was when
    the loop has run, and it is not in the reactor list. *)
Theorem initialize_skips_other_handles t0 w w1 :
  initialize_reactors t0 w = Ret tt w1 →
  ∀ a, qualifies (heap (env w)) a = false →
       heap (env w1) !! a = heap (env w) !! a ∧
       (NoDup (m_r (net w)) → a ∉ m_reactors (net w1)).
Proof.
  intros E a Ha. split.
  - rewrite initialize_reactors_started in E.
    assert (Hh : heap (env (started w)) = heap (env w)).
    { unfold started. simpl. by destruct (m_verbose (net w)). }
    pose proof (for_loop_invariant
      (λ _ _ (wc : World R I),
         ∀ a, qualifies (heap (env w)) a = false →
              heap (env wc) !! a = heap (env w) !! a)
      (λ j _, initialize_reactor t0 j)) as L.
    simpl in L. eapply L; [| |exact E|exact Ha].
    + intros i acc s acc' s' Hs Eb. by eapply initialize_reactor_skips.
    + intros a' _. by rewrite Hh.
  - intros Hnd Hlist.
    apply initialize_reactors_registered in E as (es & _ & Hfil & Hrs & _);
      [|done].
    rewrite Hrs, Hfil in Hlist. apply list_elem_of_filter in Hlist as [Hq _].
    congruence.
Qed.

(** ** What the scatter and the evaluation leave alone *)

Lemma touches_only_refl l e : touches_only l e e.
Proof. by repeat split. Qed.

Lemma touches_only_trans l e1 e2 e3 :
  touches_only l e1 e2 → touches_only l e2 e3 → touches_only l e1 e3.
Proof.
  intros (L1 & N1 & H1) (L2 & N2 & H2). repeat split; [congruence..|].
  intros a Ha. by rewrite H2, H1.
Qed.

Lemma call_reactor_touches {A} (l : list addr) (a : addr) (m : M R A) e :
  a ∈ l →
  ends (λ _ e', touches_only l e e') (touches_only l e) (call_reactor a m e).
Proof.
  intros Ha. unfold call_reactor.
  destruct (heap e !! a) as [r|]; [|done].
  destruct (m r) as [x r'|ex r'|r'|]; simpl; try done.
  all: repeat split; simpl; [by rewrite length_insert|];
    intros a' Ha'; apply list_lookup_insert_ne; by intros ->.
Qed.

Lemma updateState_touches n y e :
  ends (λ _ e', touches_only (m_reactors n) e e')
       (touches_only (m_reactors n) e) (updateState n y e).
Proof.
  unfold updateState.
  eapply ends_bind; [|intros a s1 _ Hs; exact Hs].
  apply (ends_for_loop (λ _ e', touches_only (m_reactors n) e e'));
    [|apply touches_only_refl].
  intros i start s Hs.
  unfold vec_at, ptr_add, int_add. munfold.
  destruct (i <? 0); [done|].
  destruct (m_reactors n !! Z.to_nat i) as [r|] eqn:Hr; [|done]. simpl.
  destruct (_ && _); [|done]. simpl.
  pose proof (call_reactor_touches (m_reactors n) r
                (Reactor.updateState (drop (Z.to_nat start) y)) s
                (list_elem_of_lookup_2 _ _ _ Hr)) as Hc.
  unfold call_reactor in *.
  destruct (heap s !! r) as [rr|]; [|done].
  destruct (Reactor.updateState _ rr) as [x r'|ex r'|r'|]; simpl in *;
    try done; try by eapply touches_only_trans.
  destruct (m_size n !! Z.to_nat i); [|done]. simpl.
  destruct (int_ok _); [|done]. simpl. by eapply touches_only_trans.
Qed.

Lemma eval_try_touches n t y ydot p e :
  ends (λ yd e', length yd = length ydot ∧ touches_only (m_reactors n) e e')
       (touches_only (m_reactors n) e) (eval_try n t y ydot p e).
Proof.
  unfold eval_try.
  eapply ends_bind; [apply updateState_touches|]. intros [] e1 _ H1.
  eapply ends_bind; [|intros a s1 _ Hs; exact Hs].
  apply (ends_for_loop
           (λ (acc : Z * Z * list doublereal) e',
              length acc.2 = length ydot ∧ touches_only (m_reactors n) e e'));
    [|by split].
  intros i [[start pstart] yd] s [Hlen Hs]. simpl in Hlen.
  unfold vec_at, ptr_add, int_add, store_at, mbind, M_bind, bind, mret,
    M_ret, ret, undefined.
  destruct (i <? 0); [done|].
  destruct (m_reactors n !! Z.to_nat i) as [r|] eqn:Hr; [|done]. simpl.
  destruct (_ && _); [|done]. simpl.
  destruct (_ && _); [|done]. simpl.
  destruct (_ && _); [|done]. simpl.
  match goal with |- context [call_reactor r ?m s] =>
    pose proof (call_reactor_touches (m_reactors n) r m s
                  (list_elem_of_lookup_2 _ _ _ Hr)) as Hc;
    destruct (call_reactor r m s) as [vals s1|ex s1|s1|] end;
    simpl in *; try done; try by eapply touches_only_trans.
  destruct (Z.leb_spec 0 start); simpl; [|done].
  destruct (Z.leb_spec (start + Z.of_nat (length vals)) (Z.of_nat (length yd)));
    simpl; [|done].
  destruct (m_size n !! Z.to_nat i); [|done]. simpl.
  destruct (int_ok _); [|done]. simpl.
  destruct (m_nparams n !! Z.to_nat i); [|done]. simpl.
  destruct (int_ok _); [|done]. simpl.
  split; [|by eapply touches_only_trans].
  rewrite <- Hlen. rewrite !length_app, length_take, length_drop. lia.
Qed.

(** X5: [eval] writes to the log only when it aborts and changes no reactor
    outside the reactor list: when it returns, the log and the other
    reactors are as before and [ydot] has kept its length; when the
    process ends inside it, the log is as before (a reactor ended the
    process) or has gained the two entries of the handler, and the other
    reactors are as before; it never throws. *)
Theorem eval_touches n t y ydot p e :
  match eval n t y ydot p e with
  | Ret yd e' =>
      length yd = length ydot ∧ touches_only (m_reactors n) e e'
  | Throw _ _ => False
  | Exit e' =>
      (logged e' = logged e ∨ logged e' = logged e ++ abort_report) ∧
      length (heap e') = length (heap e) ∧
      ∀ a, a ∉ m_reactors n → heap e' !! a = heap e !! a
  | Undef => True
  end.
Proof.
  pose proof (eval_try_touches n t y ydot p e) as H1.
  unfold eval, try_catch_all.
  destruct (eval_try n t y ydot p e) as [yd e'|ex e'|e'|]; simpl in *;
    try done.
  - destruct H1 as (L & N & F). unfold showErrors, error. munfold. simpl.
    split; [right; by rewrite L, <- app_assoc|done].
  - destruct H1 as (L & N & F). split; [by left|done].
Qed.

(** X6: However [updateState] ends, it has not written to the log and has
    changed no reactor outside the reactor list. *)
Theorem updateState_touches_list_only n y e :
  ends (λ _ e', touches_only (m_reactors n) e e')
       (touches_only (m_reactors n) e) (updateState n y e).
Proof. apply updateState_touches. Qed.

(** ** Where the gathered values are *)

(** X7: On an initialized network with distinct reactors that write no more
    values than their size, a [getInitialConditions] that returns leaves
    the buffer at its length and, for every reactor [j] of the list, the
    values that this reactor wrote are in the buffer at the offset of
    [j]: no later reactor has overwritten them. *)
Theorem getInitialConditions_places n t0 leny y e y' e1 :
  tables_ok n → sized n e → NoDup (m_reactors n) → writes_within t0 →
  getInitialConditions n t0 leny y e = Ret y' e1 →
  length y' = length y ∧
  ∀ (j : nat) (a : addr),
    (j < Z.to_nat (m_nreactors n))%nat → m_reactors n !! j = Some a →
    ∃ view r r1 vals,
      heap e !! a = Some r ∧
      Reactor.getInitialConditions t0 (size_t_of_int (Reactor.neq r)) view r
        = Ret vals r1 ∧
      heap e1 !! a = Some r1 ∧
      take (length vals) (drop (Z.to_nat (offset (m_size n) j)) y') = vals.
Proof.
  intros Hok Hsized Hnd Hw Eg.
  rewrite getInitialConditions_offsets in Eg by done.
  apply (gather_pass _ _ _ 0 _ _ _ _ Hnd Hw) in Eg as (L & _ & _ & G).
  2:{ intros j a' sz Hj. apply Hsized. lia. }
  split; [done|]. intros j a Hj Ha. apply G; [lia|done].
Qed.

(** ** [globalComponentIndex] outside the reactor list *)

Lemma globalComponentIndex_sum_loop (sizes : list Z) k i0 s0 (e : Env R) :
  match for_loop k (Z.of_nat i0) (Z.of_nat i0, s0)
          (λ i '(_, start),
             sz ← vec_at sizes i;
             start' ← int_add start sz;
             mret (i + 1, start')) e with
  | Ret acc e' => acc.1 = Z.of_nat (i0 + k) ∧ e' = e
  | Throw _ _ | Exit _ => False
  | Undef => True
  end.
Proof.
  revert i0 s0. induction k as [|k IH]; intros i0 s0.
  { simpl. split; [f_equal; lia|done]. }
  simpl. unfold vec_at, int_add, mbind, M_bind, bind, mret, M_ret, ret,
    undefined.
  destruct (Z.of_nat i0 <? 0); [done|].
  destruct (sizes !! Z.to_nat (Z.of_nat i0)); [|done].
  destruct (int_ok _); [|done].
  replace (Z.of_nat i0 + 1) with (Z.of_nat (S i0)) by lia.
  specialize (IH (S i0) (s0 + z)).
  unfold vec_at, int_add, mbind, M_bind, bind, mret, M_ret, ret,
    undefined in IH.
  destruct (for_loop _ _ _ _ _) as [acc e'| | |]; try done.
  destruct IH as [-> ->]. split; [f_equal; lia|done].
Qed.

(** X8: [globalComponentIndex] does not check its reactor index.  A
    negative index is answered as index 0: the loop does not run and the
    counter that selects the reactor stays 0.  An index at or beyond the
    end of the reactor list is undefined behaviour: nothing is returned
    and nothing is thrown. *)
Theorem globalComponentIndex_unchecked n species e :
  (∀ reactor, reactor < 0 →
     globalComponentIndex n species reactor e
       = globalComponentIndex n species 0 e) ∧
  (∀ r : nat, (length (m_reactors n) ≤ r)%nat →
     globalComponentIndex n species (Z.of_nat r) e = Undef).
Proof.
  split.
  - intros reactor Hneg. unfold globalComponentIndex.
    by replace (Z.to_nat reactor) with (Z.to_nat 0) by lia.
  - intros r Hr. unfold globalComponentIndex. rewrite Nat2Z.id.
    pose proof (globalComponentIndex_sum_loop (m_size n) r 0 0 e) as L.
    change (Z.of_nat 0) with 0 in L.
    unfold mbind at 1, M_bind at 1, bind at 1.
    destruct (for_loop r 0 (0, 0) _ e) as [acc e'| | |]; try done.
    destruct L as [-> ->]. simpl.
    unfold vec_at, mbind, M_bind, bind, undefined.
    destruct (Z.of_nat r <? 0); [done|].
    rewrite Nat2Z.id, (lookup_ge_None_2 _ _ Hr). done.
Qed.

(** ** Failed integration *)

(** X9: On an initialized network, when the integrator's [integrate] or
    [step] throws, or the process ends inside it, [advance] and [step]
    end the same way, with the integrator and the reactors as the
    integrator left them: [m_time] is not changed and the solution is not
    scattered. *)
Theorem failed_integration_keeps_time d T w :
  m_init (net w) = true →
  (∀ ex i1 e1,
     Integrator.integrate (as_FuncEval (net w)) T (m_integ (net w), env w)
       = Throw ex (i1, e1) →
     advance d T w
       = Throw ex {| net := set_m_integ i1 (net w); env := e1 |}) ∧
  (∀ i1 e1,
     Integrator.integrate (as_FuncEval (net w)) T (m_integ (net w), env w)
       = Exit (i1, e1) →
     advance d T w = Exit {| net := set_m_integ i1 (net w); env := e1 |}) ∧
  (∀ ex i1 e1,
     Integrator.step (as_FuncEval (net w)) T (m_integ (net w), env w)
       = Throw ex (i1, e1) →
     step d T w = Throw ex {| net := set_m_integ i1 (net w); env := e1 |}) ∧
  (∀ i1 e1,
     Integrator.step (as_FuncEval (net w)) T (m_integ (net w), env w)
       = Exit (i1, e1) →
     step d T w = Exit {| net := set_m_integ i1 (net w); env := e1 |}).
Proof.
  intros Hi.
  assert (Ea : advance d T w = advance_integrate T w).
  { unfold advance. unfold mbind at 1, M_bind, bind.
    by rewrite initialize_if_needed_initialized. }
  assert (Es : step d T w = step_integrate T w).
  { unfold step. unfold mbind at 1, M_bind, bind.
    by rewrite initialize_if_needed_initialized. }
  rewrite Ea, Es. unfold advance_integrate, step_integrate. munfold. simpl.
  repeat split; intros; by match goal with H : _ = _ |- _ => rewrite H end.
Qed.

End Facts.

End ReactorNetFacts.

(* ===================================================================== *)
(** * Facts about Delegator *)
(* ===================================================================== *)

Module DelegatorFacts.
Import Delegator CxxFacts.

Section Facts.

Context {S : Type}.

(** The method that [makeDelegate] builds for [when = "after"]. *)
Lemma makeDelegate_after {Args RT} `{!Plus RT} {X : Type} (local : RT)
    (func : delegate (S:=S) Args RT) (base : method (S:=S) Args RT) (x : X) :
  ∃ f, makeDelegate local func "after" base x = Ret f x ∧
       ∀ args s r1 s1 done r2 s2,
         base args s = Ret r1 s1 →
         func local args s1 = Ret (done, r2) s2 →
         f args s = Ret (if done =? 0 then r1 else plus r1 r2) s2.
Proof.
  eexists. split; [reflexivity|].
  intros args s r1 s1 done r2 s2 Hb Hf. simpl.
  erewrite bind_Ret by exact Hb. erewrite bind_Ret by exact Hf.
  simpl. by destruct (done =? 0).
Qed.

(** C10: for both value-returning signatures, once a delegate has been
    set with [when = "after"] on an installed method, a call returns the
    original method's result plus the delegate's result when the delegate
    returns non-zero, and the original method's result alone when it
    returns zero. *)
Theorem after_delegate_adds (d : Delegator S) (name : string) :
  (∀ (func : delegate Z string) (b : method Z string),
     is_Some (m_funcs_s_sz d !! name) → m_base_s_sz d !! name = Some b →
     ∃ d', setDelegate_s_sz name func "after" d = Ret tt d' ∧
       ∀ args s r1 s1 done r2 s2,
         b args s = Ret r1 s1 →
         func "" args s1 = Ret (done, r2) s2 →
         call_s_sz d' name args s
           = Ret (if done =? 0 then r1 else plus r1 r2) s2) ∧
  (∀ (indeterminate : size_t) (func : delegate string size_t)
     (b : method string size_t),
     is_Some (m_funcs_sz_csr d !! name) → m_base_sz_csr d !! name = Some b →
     ∃ d', setDelegate_sz_csr indeterminate name func "after" d = Ret tt d' ∧
       ∀ args s r1 s1 done r2 s2,
         b args s = Ret r1 s1 →
         func indeterminate args s1 = Ret (done, r2) s2 →
         call_sz_csr d' name args s
           = Ret (if done =? 0 then r1 else plus r1 r2) s2).
Proof.
  split.
  - intros func b Hf Hb.
    destruct (makeDelegate_after "" func b
                (set_m_base_s_sz (m_base_s_sz d) d)) as (f & Ef & Hcall).
    exists (set_m_funcs_s_sz (<[name:=f]> (m_funcs_s_sz d))
              (set_m_base_s_sz (m_base_s_sz d) d)).
    split.
    + unfold setDelegate_s_sz.
      erewrite bind_Ret by reflexivity.
      destruct (decide (is_Some (m_funcs_s_sz d !! name))); [|done].
      erewrite bind_Ret by reflexivity.
      unfold map_index. rewrite Hb. simpl.
      erewrite bind_Ret by reflexivity.
      erewrite bind_Ret by exact Ef. done.
    + intros args s r1 s1 done r2 s2 H1 H2.
      unfold call_s_sz. simpl. rewrite lookup_insert_eq. simpl.
      by eapply Hcall.
  - intros ind func b Hf Hb.
    destruct (makeDelegate_after ind func b
                (set_m_base_sz_csr (m_base_sz_csr d) d)) as (f & Ef & Hcall).
    exists (set_m_funcs_sz_csr (<[name:=f]> (m_funcs_sz_csr d))
              (set_m_base_sz_csr (m_base_sz_csr d) d)).
    split.
    + unfold setDelegate_sz_csr.
      erewrite bind_Ret by reflexivity.
      destruct (decide (is_Some (m_funcs_sz_csr d !! name))); [|done].
      erewrite bind_Ret by reflexivity.
      unfold map_index. rewrite Hb. simpl.
      erewrite bind_Ret by reflexivity.
      erewrite bind_Ret by exact Ef. done.
    + intros args s r1 s1 done r2 s2 H1 H2.
      unfold call_sz_csr. simpl. rewrite lookup_insert_eq. simpl.
      by eapply Hcall.
Qed.


(** ** What [makeDelegate] builds, and when it refuses *)

Lemma makeDelegate_invalid {Args RT} `{!Plus RT} {X : Type} (local : RT)
    (func : delegate (S:=S) Args RT) (base : method (S:=S) Args RT)
    (when : string) (x : X) :
  DelegatorSpec.valid_when when = false →
  makeDelegate local func when base x
    = Throw (DelegatorSpec.invalid_when_error when) x.
Proof.
  unfold DelegatorSpec.valid_when, makeDelegate. intros H.
  apply orb_false_elim in H as [H H3]. apply orb_false_elim in H as [H1 H2].
  by rewrite H1, H2, H3.
Qed.

Lemma makeDelegate_valid {Args RT} `{!Plus RT} {X : Type} (local : RT)
    (func : delegate (S:=S) Args RT) (base : method (S:=S) Args RT)
    (when : string) (x : X) :
  DelegatorSpec.valid_when when = true →
  ∃ f, makeDelegate local func when base x = Ret f x.
Proof.
  unfold DelegatorSpec.valid_when, makeDelegate. intros H.
  destruct (String.eqb when "before"); [by eexists|].
  destruct (String.eqb when "after"); [by eexists|].
  destruct (String.eqb when "replace"); [by eexists|done].
Qed.

Lemma makeDelegate_state {Args RT} `{!Plus RT} {X : Type} (local : RT)
    (func : delegate (S:=S) Args RT) (base : method (S:=S) Args RT)
    (when : string) (x x1 : X) f :
  makeDelegate local func when base x = Ret f x1 → x1 = x.
Proof.
  unfold makeDelegate, mret, M_ret, ret, throw.
  repeat (destruct (String.eqb when _)); intros E; by simplify_eq.
Qed.

Lemma makeDelegate_any_state {Args RT} `{!Plus RT} {X Y : Type} (local : RT)
    (func : delegate (S:=S) Args RT) (base : method (S:=S) Args RT)
    (when : string) (x : X) (y : Y) f :
  makeDelegate local func when base x = Ret f x →
  makeDelegate local func when base y = Ret f y.
Proof.
  unfold makeDelegate, mret, M_ret, ret, throw.
  repeat (destruct (String.eqb when _)); intros E; by simplify_eq.
Qed.

Lemma map_index_again {Args RT} (name : string)
    (m : gmap string (method (S:=S) Args RT)) :
  map_index name (map_index name m).2 = map_index name m.
Proof.
  unfold map_index. destruct (m !! name) eqn:E; simpl.
  - by rewrite E.
  - by rewrite lookup_insert_eq.
Qed.

Lemma map_index_present {Args RT} (name : string)
    (m : gmap string (method (S:=S) Args RT)) :
  is_Some (m !! name) → (map_index name m).2 = m.
Proof. intros [b E]. unfold map_index. by rewrite E. Qed.

(** What [setDelegate] does on an installed name, in one step. *)
Lemma setDelegate_s_sz_installed (d : Delegator S) name func when :
  is_Some (m_funcs_s_sz d !! name) →
  setDelegate_s_sz name func when d
    = (f ← makeDelegate "" func when (map_index name (m_base_s_sz d)).1;
       modify (λ d, set_m_funcs_s_sz (<[name := f]> (m_funcs_s_sz d)) d))
        (set_m_base_s_sz (map_index name (m_base_s_sz d)).2 d).
Proof.
  intros H. unfold setDelegate_s_sz.
  erewrite bind_Ret by reflexivity.
  destruct (decide (is_Some (m_funcs_s_sz d !! name))); [|done].
  erewrite bind_Ret by reflexivity.
  by erewrite bind_Ret by reflexivity.
Qed.

Lemma setDelegate_sz_csr_installed (d : Delegator S) ind name func when :
  is_Some (m_funcs_sz_csr d !! name) →
  setDelegate_sz_csr ind name func when d
    = (f ← makeDelegate ind func when (map_index name (m_base_sz_csr d)).1;
       modify (λ d, set_m_funcs_sz_csr (<[name := f]> (m_funcs_sz_csr d)) d))
        (set_m_base_sz_csr (map_index name (m_base_sz_csr d)).2 d).
Proof.
  intros H. unfold setDelegate_sz_csr.
  erewrite bind_Ret by reflexivity.
  destruct (decide (is_Some (m_funcs_sz_csr d !! name))); [|done].
  erewrite bind_Ret by reflexivity.
  by erewrite bind_Ret by reflexivity.
Qed.

(** ** A name that was never installed *)

(** X10: [setDelegate] on a name that no [install] registered for the
    signature throws [NotImplementedError], whatever [when] is, and
    leaves the delegator as it was: in particular the name is not entered
    into the map of the base functions. *)
Theorem setDelegate_unknown_name (d : Delegator S) (name when : string) :
  (∀ func, m_funcs_s_sz d !! name = None →
     setDelegate_s_sz name func when d
       = Throw (DelegatorSpec.unknown_name_error name "string(size_t)") d) ∧
  (∀ indeterminate func, m_funcs_sz_csr d !! name = None →
     setDelegate_sz_csr indeterminate name func when d
       = Throw (DelegatorSpec.unknown_name_error name "size_t(const string&)")
               d).
Proof.
  split.
  - intros func H. unfold setDelegate_s_sz.
    erewrite bind_Ret by reflexivity.
    destruct (decide (is_Some (m_funcs_s_sz d !! name))) as [[b E]|_];
      [congruence|done].
  - intros ind func H. unfold setDelegate_sz_csr.
    erewrite bind_Ret by reflexivity.
    destruct (decide (is_Some (m_funcs_sz_csr d !! name))) as [[b E]|_];
      [congruence|done].
Qed.

(** ** A [when] that is none of the three *)

(** X11: [setDelegate] on an installed name with a [when] other than
    "before", "after" and "replace" throws the [CanteraError] of
    [makeDelegate], whose message ends with the [when] given, and sets no
    delegate: the methods are the ones before the call, and when a base
    is recorded for the name the delegator is unchanged. *)
Theorem setDelegate_invalid_when (d : Delegator S) (name when : string) :
  DelegatorSpec.valid_when when = false →
  (∀ func, is_Some (m_funcs_s_sz d !! name) →
     ∃ d', setDelegate_s_sz name func when d
             = Throw (DelegatorSpec.invalid_when_error when) d' ∧
           m_funcs_s_sz d' = m_funcs_s_sz d ∧
           m_funcs_sz_csr d' = m_funcs_sz_csr d ∧
           (is_Some (m_base_s_sz d !! name) → d' = d)) ∧
  (∀ indeterminate func, is_Some (m_funcs_sz_csr d !! name) →
     ∃ d', setDelegate_sz_csr indeterminate name func when d
             = Throw (DelegatorSpec.invalid_when_error when) d' ∧
           m_funcs_s_sz d' = m_funcs_s_sz d ∧
           m_funcs_sz_csr d' = m_funcs_sz_csr d ∧
           (is_Some (m_base_sz_csr d !! name) → d' = d)).
Proof.
  intros Hw. split.
  - intros func Hf. eexists. split; [|split; [|split]].
    + rewrite setDelegate_s_sz_installed by done.
      apply bind_Throw. by apply makeDelegate_invalid.
    + done.
    + done.
    + intros Hb. rewrite map_index_present by done. by destruct d.
  - intros ind func Hf. eexists. split; [|split; [|split]].
    + rewrite setDelegate_sz_csr_installed by done.
      apply bind_Throw. by apply makeDelegate_invalid.
    + done.
    + done.
    + intros Hb. rewrite map_index_present by done. by destruct d.
Qed.

(** ** "before" and "replace" *)

(** X12: Once a delegate has been set with [when = "before"] on an installed
    method, a call runs the delegate first.  When the delegate returns
    non-zero the call returns the value the delegate set and the original
    method is not run; when it returns zero the original method runs,
    from the state the delegate left, and its result is the result of
    the call. *)
Theorem before_delegate_first (d : Delegator S) (name : string) :
  (∀ (func : delegate Z string) (b : method Z string),
     is_Some (m_funcs_s_sz d !! name) → m_base_s_sz d !! name = Some b →
     ∃ d', setDelegate_s_sz name func "before" d = Ret tt d' ∧
       ∀ args s done r s1,
         func "" args s = Ret (done, r) s1 →
         call_s_sz d' name args s
           = if done =? 0 then b args s1 else Ret r s1) ∧
  (∀ (indeterminate : size_t) (func : delegate string size_t)
     (b : method string size_t),
     is_Some (m_funcs_sz_csr d !! name) → m_base_sz_csr d !! name = Some b →
     ∃ d', setDelegate_sz_csr indeterminate name func "before" d
             = Ret tt d' ∧
       ∀ args s done r s1,
         func indeterminate args s = Ret (done, r) s1 →
         call_sz_csr d' name args s
           = if done =? 0 then b args s1 else Ret r s1).
Proof.
  split.
  - intros func b Hf Hb. eexists. split.
    + rewrite setDelegate_s_sz_installed by done. reflexivity.
    + intros args s done r s1 E.
      unfold call_s_sz. simpl. rewrite lookup_insert_eq. simpl.
      erewrite bind_Ret by exact E. simpl.
      unfold map_index. rewrite Hb. simpl. by destruct (done =? 0).
  - intros ind func b Hf Hb. eexists. split.
    + rewrite setDelegate_sz_csr_installed by done. reflexivity.
    + intros args s done r s1 E.
      unfold call_sz_csr. simpl. rewrite lookup_insert_eq. simpl.
      erewrite bind_Ret by exact E. simpl.
      unfold map_index. rewrite Hb. simpl. by destruct (done =? 0).
Qed.

(** X13: Once a delegate has been set with [when = "replace"] on an
    installed method, a call runs the delegate alone and returns what
    the delegate left in the variable it was handed, whatever [int] the
    delegate returns: the original method is not run.  For
    [string(size_t)] the variable starts as the empty string, which is
    what a delegate that sets nothing makes the call return.  For
    [size_t(const string&)] the variable is not initialized: the
    statement is for a delegate that assigns it, that is, one whose
    outcome is the same whatever the variable held; a call whose
    delegate leaves it unassigned is not described. *)
Theorem replace_delegate_only (d : Delegator S) (name : string) :
  (∀ (func : delegate Z string),
     is_Some (m_funcs_s_sz d !! name) →
     ∃ d', setDelegate_s_sz name func "replace" d = Ret tt d' ∧
       ∀ args s done r s1,
         func "" args s = Ret (done, r) s1 →
         call_s_sz d' name args s = Ret r s1) ∧
  (∀ (indeterminate : size_t) (func : delegate string size_t),
     is_Some (m_funcs_sz_csr d !! name) →
     ∃ d', setDelegate_sz_csr indeterminate name func "replace" d
             = Ret tt d' ∧
       ∀ args s done r s1,
         (∀ held, func held args s = Ret (done, r) s1) →
         call_sz_csr d' name args s = Ret r s1).
Proof.
  split.
  - intros func Hf. eexists. split.
    + rewrite setDelegate_s_sz_installed by done. reflexivity.
    + intros args s done r s1 E.
      unfold call_s_sz. simpl. rewrite lookup_insert_eq. simpl.
      by erewrite bind_Ret by exact E.
  - intros ind func Hf. eexists. split.
    + rewrite setDelegate_sz_csr_installed by done. reflexivity.
    + intros args s done r s1 E.
      unfold call_sz_csr. simpl. rewrite lookup_insert_eq. simpl.
      by erewrite bind_Ret by exact (E ind).
Qed.

(** ** A second delegate *)

(** X14: For the methods with a return value a delegate is combined with the
    base that [install] recorded, not with the method as it is: a second
    [setDelegate] on a name undoes the first.  Setting [func2] after
    [func1] leaves the delegator that setting [func2] alone leaves. *)
Theorem value_delegates_do_not_stack (d : Delegator S) (name : string)
    (when1 when2 : string) :
  DelegatorSpec.valid_when when2 = true →
  (∀ func1 func2 d1,
     setDelegate_s_sz name func1 when1 d = Ret tt d1 →
     setDelegate_s_sz name func2 when2 d1
       = setDelegate_s_sz name func2 when2 d) ∧
  (∀ ind1 ind2 func1 func2 d1,
     setDelegate_sz_csr ind1 name func1 when1 d = Ret tt d1 →
     setDelegate_sz_csr ind2 name func2 when2 d1
       = setDelegate_sz_csr ind2 name func2 when2 d).
Proof.
  intros Hw. split.
  - intros func1 func2 d1 E1.
    assert (Hf : is_Some (m_funcs_s_sz d !! name)).
    { unfold setDelegate_s_sz in E1.
      erewrite bind_Ret in E1 by reflexivity.
      by destruct (decide (is_Some (m_funcs_s_sz d !! name))). }
    rewrite setDelegate_s_sz_installed in E1 by done.
    apply bind_inv_Ret in E1 as (g1 & x1 & Eg & Em).
    assert (x1 = set_m_base_s_sz (map_index name (m_base_s_sz d)).2 d) as ->.
    { exact (makeDelegate_state _ _ _ _ _ _ _ Eg). }
    unfold modify in Em. injection Em as <-.
    rewrite (setDelegate_s_sz_installed d) by done.
    rewrite setDelegate_s_sz_installed
      by (simpl; by rewrite lookup_insert_eq).
    simpl. rewrite !map_index_again.
    destruct (makeDelegate_valid "" func2
                (map_index name (m_base_s_sz d)).1 when2
                (set_m_base_s_sz (map_index name (m_base_s_sz d)).2 d) Hw)
      as [f Ef].
    erewrite (bind_Ret _ _ _ f)
      by exact (makeDelegate_any_state _ _ _ _ _ _ _ Ef).
    erewrite (bind_Ret _ _ _ f) by exact Ef.
    unfold modify. simpl. f_equal. unfold set_m_funcs_s_sz, set_m_base_s_sz.
    simpl. by rewrite insert_insert_eq.
  - intros ind1 ind2 func1 func2 d1 E1.
    assert (Hf : is_Some (m_funcs_sz_csr d !! name)).
    { unfold setDelegate_sz_csr in E1.
      erewrite bind_Ret in E1 by reflexivity.
      by destruct (decide (is_Some (m_funcs_sz_csr d !! name))). }
    rewrite setDelegate_sz_csr_installed in E1 by done.
    apply bind_inv_Ret in E1 as (g1 & x1 & Eg & Em).
    assert (x1 = set_m_base_sz_csr (map_index name (m_base_sz_csr d)).2 d)
      as ->.
    { exact (makeDelegate_state _ _ _ _ _ _ _ Eg). }
    unfold modify in Em. injection Em as <-.
    rewrite (setDelegate_sz_csr_installed d) by done.
    rewrite setDelegate_sz_csr_installed
      by (simpl; by rewrite lookup_insert_eq).
    simpl. rewrite !map_index_again.
    destruct (makeDelegate_valid ind2 func2
                (map_index name (m_base_sz_csr d)).1 when2
                (set_m_base_sz_csr (map_index name (m_base_sz_csr d)).2 d) Hw)
      as [f Ef].
    erewrite (bind_Ret _ _ _ f)
      by exact (makeDelegate_any_state _ _ _ _ _ _ _ Ef).
    erewrite (bind_Ret _ _ _ f) by exact Ef.
    unfold modify. simpl. f_equal. unfold set_m_funcs_sz_csr, set_m_base_sz_csr.
    simpl. by rewrite insert_insert_eq.
Qed.

End Facts.
End DelegatorFacts.

(* ===================================================================== *)
(** * Facts about the delegates with no return value *)
(* ===================================================================== *)

Module DelegatorVoidFacts.
Import Delegator DelegatorVoid DelegatorSpec CxxFacts.

Section Facts.

Context {S Args : Type}.

Implicit Types (d : Slots S Args) (func base : procedure S Args).

Lemma makeDelegate_void_invalid {X : Type} func base (when : string) (x : X) :
  valid_when when = false →
  makeDelegate_void func when base x = Throw (invalid_when_error when) x.
Proof.
  unfold valid_when, makeDelegate_void. intros H.
  apply orb_false_elim in H as [H H3]. apply orb_false_elim in H as [H1 H2].
  by rewrite H1, H2, H3.
Qed.

(** One [setDelegate] on a name registered for the target at [p],
    with each of the three values of [when]. *)
Lemma setDelegate_void_step signature name func d (p : nat) base :
  m_funcs d !! name = Some p → targets d !! p = Some base →
  setDelegate_void signature name func "before" d
    = Ret tt (set_targets (<[p := λ args, func args;; base args]> (targets d))
                          d) ∧
  setDelegate_void signature name func "after" d
    = Ret tt (set_targets (<[p := λ args, base args;; func args]> (targets d))
                          d) ∧
  setDelegate_void signature name func "replace" d
    = Ret tt (set_targets (<[p := λ args, func args]> (targets d)) d).
Proof.
  intros Hn Hp.
  assert (Hlt : (p < length (targets d))%nat)
    by (apply lookup_lt_is_Some; eauto).
  unfold setDelegate_void, deref, assign_target.
  repeat split;
    (erewrite bind_Ret by reflexivity; rewrite Hn;
     erewrite bind_Ret
       by (erewrite bind_Ret by reflexivity; rewrite Hp; reflexivity);
     erewrite bind_Ret by reflexivity;
     erewrite bind_Ret by reflexivity;
     by destruct (decide (p < length (targets d))%nat)).
Qed.

Lemma call_target_set d (p : nat) (f : procedure S Args) :
  (p < length (targets d))%nat →
  call_target (set_targets (<[p := f]> (targets d)) d) p = f.
Proof.
  intros H. unfold call_target. simpl.
  by rewrite list_lookup_insert_eq.
Qed.

(** ** Delegates stack *)

(** X15: For the methods with no return value a delegate is combined with the
    method as it is when [setDelegate] is called, so that delegates set
    one after the other all run: two "after" delegates run after the
    original method in the order they were set, two "before" delegates
    before it in the reverse order, a "before" and an "after" delegate
    around it, and a "replace" delegate drops the original method and
    the delegates set earlier.  When one of them throws, the ones behind
    it are not run. *)
Theorem void_delegates_stack signature name d (p : nat) base func1 func2 :
  m_funcs d !! name = Some p → targets d !! p = Some base →
  (∃ d2, (setDelegate_void signature name func1 "after";;
          setDelegate_void signature name func2 "after") d = Ret tt d2 ∧
         m_funcs d2 = m_funcs d ∧
         ∀ args s, call_target d2 p args s
                   = (base args;; func1 args;; func2 args) s) ∧
  (∃ d2, (setDelegate_void signature name func1 "before";;
          setDelegate_void signature name func2 "before") d = Ret tt d2 ∧
         m_funcs d2 = m_funcs d ∧
         ∀ args s, call_target d2 p args s
                   = (func2 args;; func1 args;; base args) s) ∧
  (∃ d2, (setDelegate_void signature name func1 "before";;
          setDelegate_void signature name func2 "after") d = Ret tt d2 ∧
         m_funcs d2 = m_funcs d ∧
         ∀ args s, call_target d2 p args s
                   = (func1 args;; base args;; func2 args) s) ∧
  (∃ d2, (setDelegate_void signature name func1 "after";;
          setDelegate_void signature name func2 "replace") d = Ret tt d2 ∧
         m_funcs d2 = m_funcs d ∧
         ∀ args s, call_target d2 p args s = func2 args s).
Proof.
  intros Hn Hp.
  assert (Hlt : (p < length (targets d))%nat)
    by (apply lookup_lt_is_Some; eauto).
  assert (Hstep : ∀ f : procedure S Args,
            m_funcs (set_targets (<[p := f]> (targets d)) d) !! name = Some p ∧
            targets (set_targets (<[p := f]> (targets d)) d) !! p = Some f ∧
            (p < length (targets (set_targets (<[p := f]> (targets d)) d)))%nat).
  { intros f. simpl. rewrite list_lookup_insert_eq by done.
    by rewrite length_insert. }
  destruct (setDelegate_void_step signature name func1 d p base Hn Hp)
    as (B1 & A1 & _).
  split; [|split; [|split]].
  - destruct (Hstep (λ args, base args;; func1 args)) as (Hn1 & Hp1 & Hl1).
    destruct (setDelegate_void_step signature name func2 _ p _ Hn1 Hp1)
      as (_ & A2 & _).
    eexists. split; [|split].
    + erewrite bind_Ret by exact A1. exact A2.
    + done.
    + intros args s. rewrite call_target_set by done.
      by rewrite bind_assoc.
  - destruct (Hstep (λ args, func1 args;; base args)) as (Hn1 & Hp1 & Hl1).
    destruct (setDelegate_void_step signature name func2 _ p _ Hn1 Hp1)
      as (B2 & _ & _).
    eexists. split; [|split].
    + erewrite bind_Ret by exact B1. exact B2.
    + done.
    + intros args s. by rewrite call_target_set.
  - destruct (Hstep (λ args, func1 args;; base args)) as (Hn1 & Hp1 & Hl1).
    destruct (setDelegate_void_step signature name func2 _ p _ Hn1 Hp1)
      as (_ & A2 & _).
    eexists. split; [|split].
    + erewrite bind_Ret by exact B1. exact A2.
    + done.
    + intros args s. rewrite call_target_set by done.
      by rewrite bind_assoc.
  - destruct (Hstep (λ args, base args;; func1 args)) as (Hn1 & Hp1 & Hl1).
    destruct (setDelegate_void_step signature name func2 _ p _ Hn1 Hp1)
      as (_ & _ & R2).
    eexists. split; [|split].
    + erewrite bind_Ret by exact A1. exact R2.
    + done.
    + intros args s. by rewrite call_target_set.
Qed.

(** ** One target under two names *)

(** X16: [install] registers the address of the target it is given.  When
    two names are registered for one target, a delegate set through one
    name is run by the calls made through the other as well, and other
    targets are left as they are. *)
Theorem void_delegate_shared_target signature name1 name2 d (p : nat)
    base func :
  m_funcs d !! name1 = Some p → m_funcs d !! name2 = Some p →
  targets d !! p = Some base →
  ∃ d1, setDelegate_void signature name1 func "after" d = Ret tt d1 ∧
        (∀ q, m_funcs d1 !! name2 = Some q →
              ∀ args s, call_target d1 q args s
                        = (base args;; func args) s) ∧
        (∀ q : nat, q ≠ p → call_target d1 q = call_target d q).
Proof.
  intros H1 H2 Hp.
  assert (Hlt : (p < length (targets d))%nat)
    by (apply lookup_lt_is_Some; eauto).
  destruct (setDelegate_void_step signature name1 func d p base H1 Hp)
    as (_ & A & _).
  eexists. split; [exact A|]. split.
  - intros q Hq. simpl in Hq. rewrite H2 in Hq. injection Hq as <-.
    intros args s. by rewrite call_target_set.
  - intros q Hq. unfold call_target. simpl.
    by rewrite list_lookup_insert_ne.
Qed.

(** ** The two errors *)

(** X17: [setDelegate] on a name that no [install] registered throws
    [NotImplementedError], naming the function and the signature,
    whatever [when] is.  On a registered name with a [when] other than
    "before", "after" and "replace" it throws the [CanteraError] of
    [makeDelegate].  Either way nothing is changed. *)
Theorem setDelegate_void_errors signature name func when d :
  (m_funcs d !! name = None →
   setDelegate_void signature name func when d
     = Throw (unknown_name_error name signature) d) ∧
  (∀ (p : nat) base,
     m_funcs d !! name = Some p → targets d !! p = Some base →
     valid_when when = false →
     setDelegate_void signature name func when d
       = Throw (invalid_when_error when) d).
Proof.
  split.
  - intros H. unfold setDelegate_void.
    erewrite bind_Ret by reflexivity. by rewrite H.
  - intros p base Hn Hp Hw. unfold setDelegate_void, deref.
    erewrite bind_Ret by reflexivity. rewrite Hn.
    erewrite bind_Ret
      by (erewrite bind_Ret by reflexivity; rewrite Hp; reflexivity).
    apply bind_Throw. by apply makeDelegate_void_invalid.
Qed.

End Facts.

End DelegatorVoidFacts.



(* ===================================================================== *)
(** * The driver and the delegator at concrete inputs *)
(* ===================================================================== *)

Module Scenarios.
Import ReactorNet ReactorNetSpec CxxFacts ReactorNetFacts Toy.

Lemma NoDup_two : NoDup [0%nat; 1%nat].
Proof. by apply (bool_decide_unpack _). Defined.

Lemma eval_never_throws_witness :
  let w := initialized one_broken in
  let y := [1%float; 2%float; 3%float] in
  let ydot := [0%float; 0%float; 0%float] in
  eval_try (net w) 0%float y ydot [] (env w)
    = Throw (CanteraError "Reactor::evalEqs" "cannot evaluate") (env w) ∧
  eval (net w) 0%float y ydot [] (env w)
    = Exit (set_logged [LogShowErrors; LogError "Terminating execution."]
                       (env w)).
Proof.
  intros w y ydot.
  assert (E : eval_try (net w) 0%float y ydot [] (env w)
    = Throw (CanteraError "Reactor::evalEqs" "cannot evaluate") (env w))
    by (vm_compute; reflexivity).
  split; [exact E|].
  exact (proj2 (eval_never_throws (net w) 0%float y ydot [] (env w)) _ _ E).
Defined.

Lemma offsets_are_prefix_sums_witness :
  let w := two_reactors in
  let w' := initialized two_reactors in
  NoDup (m_r (net w)) ∧ m_size (net w) = [] ∧ m_nparams (net w) = [] ∧
  m_ntotpar (net w) = 0 ∧ initialize 0%float w = Ret tt w' ∧
  m_size (net w') = [2; 4] ∧ neq (net w') = sumZ (m_size (net w')) ∧
  ∀ t y ydot p e,
    eval (net w') t y ydot p e = eval_by_offsets (net w') t y ydot p e.
Proof.
  intros w w'.
  assert (H1 : NoDup (m_r (net w))) by exact NoDup_two.
  assert (H2 : initialize 0%float w = Ret tt w') by (vm_compute; reflexivity).
  destruct (offsets_are_prefix_sums 0%float w w' H1 eq_refl eq_refl eq_refl H2)
    as (_ & _ & _ & H3 & H4).
  split; [exact H1|]. split; [reflexivity|]. split; [reflexivity|].
  split; [reflexivity|]. split; [exact H2|]. split; [vm_compute; reflexivity|].
  split; [exact H3|exact H4].
Defined.

Lemma toy_reactor_ready (r : reactor) (B : Z) :
  0 ≤ Reactor.neq r ≤ B → 0 ≤ Reactor.nSensParams r ≤ B →
  reactor_ready 0%float B r.
Proof. intros H1 H2. exists r. repeat split; try done; apply H1 || apply H2. Defined.

Lemma flow_and_reactor_ready : handles_ready 0%float 2 flow_and_reactor.
Proof.
  split; [exact NoDup_two|]. split; [reflexivity|]. split; [vm_compute; discriminate|].
  split; [|vm_compute; repeat split; discriminate].
  intros a Ha. apply list_elem_of_lookup in Ha as [j Hj].
  destruct j as [|[|j]]; [| |discriminate Hj]; injection Hj as <-;
    eexists; (split; [reflexivity|]);
    apply toy_reactor_ready; vm_compute; split; discriminate.
Defined.

Lemma flow_alone_ready : handles_ready 0%float 2 flow_alone.
Proof.
  split; [by apply (bool_decide_unpack _)|]. split; [reflexivity|].
  split; [vm_compute; discriminate|].
  split; [|vm_compute; repeat split; discriminate].
  intros a Ha. apply list_elem_of_lookup in Ha as [j Hj].
  destruct j as [|j]; [|discriminate Hj]; injection Hj as <-;
    eexists; (split; [reflexivity|]);
    apply toy_reactor_ready; vm_compute; split; discriminate.
Defined.

Lemma flow_reactors_alone_witness :
  (handles_ready 0%float 2 flow_and_reactor ∧
   1 < m_nr (net flow_and_reactor) ∧
   (1%nat ∈ m_r (net flow_and_reactor) ∧
    flow_reactor (heap (env flow_and_reactor)) 1%nat = true) ∧
   ∃ w', initialize 0%float flow_and_reactor = Throw SetupError w') ∧
  (handles_ready 0%float 2 flow_alone ∧
   m_nr (net flow_alone) ≤ 1 ∧
   flow_reactor (heap (env flow_alone)) 0%nat = true ∧
   ∃ w', initialize 0%float flow_alone = Ret tt w' ∧ m_init (net w') = true).
Proof.
  assert (H1 : 1 < m_nr (net flow_and_reactor)) by (vm_compute; reflexivity).
  assert (H2 : 1%nat ∈ m_r (net flow_and_reactor) ∧
               flow_reactor (heap (env flow_and_reactor)) 1%nat = true).
  { split; [|reflexivity]. apply list_elem_of_lookup. by exists 1%nat. }
  assert (H3 : m_nr (net flow_alone) ≤ 1) by (vm_compute; discriminate).
  assert (H4 : ∀ w1, initialize_reactors 0%float flow_alone = Ret tt w1 →
                     ∃ w', initialize_integrator 0%float w1 = Ret tt w').
  { intros w1 E. vm_compute in E. injection E as <-.
    eexists. vm_compute. reflexivity. }
  split.
  - split; [exact flow_and_reactor_ready|]. split; [exact H1|].
    split; [exact H2|].
    exact (proj1 (flow_reactors_alone 0%float 2 flow_and_reactor
                    flow_and_reactor_ready) H1 (ex_intro _ 1%nat H2)).
  - split; [exact flow_alone_ready|]. split; [exact H3|].
    split; [reflexivity|].
    exact (proj2 (flow_reactors_alone 0%float 2 flow_alone flow_alone_ready)
                 H3 H4).
Defined.

Lemma tables_ok_two : tables_ok (net (initialized two_reactors)).
Proof.
  split; [vm_compute; lia|]. split; [vm_compute; lia|].
  intros i Hi. change (i ≤ 2)%nat in Hi.
  destruct i as [|[|[|i]]]; [split; reflexivity..|lia].
Defined.

(** C5, as stated, fails: with three equations, a call with [len = 7]
    returns, having gathered the three values. *)
Lemma getInitialConditions_len_unchecked :
  let w := initialized one_reactor in
  neq (net w) = 3 ∧ 7 ≠ neq (net w) ∧
  getInitialConditions (net w) 0%float 7 (zeros 7) (env w)
    = Ret [1%float; 2%float; 3%float; 0%float; 0%float; 0%float; 0%float]
          (env w).
Proof.
  intros w. split; [vm_compute; reflexivity|].
  split; [vm_compute; discriminate|vm_compute; reflexivity].
Qed.

Lemma getInitialConditions_ignores_len_witness :
  let w := initialized two_reactors in
  tables_ok (net w) ∧
  getInitialConditions (net w) 0%float 6 (zeros 6) (env w)
    = getInitialConditions_by_offsets (net w) 0%float (zeros 6) (env w).
Proof.
  intros w. split; [exact tables_ok_two|].
  exact (proj2 (getInitialConditions_ignores_len (net w) 0%float (zeros 6)
                  (env w)) tables_ok_two 6).
Defined.




Lemma lazy_initialize_witness :
  m_init (net two_reactors) = false ∧
  PrimFloat.ltb (m_maxstep (net two_reactors)) 0%float = true ∧
  advance 0%float 1%float two_reactors = Ret tt after_advance ∧
  m_init (net after_advance) = true ∧
  m_maxstep (net after_advance) = PrimFloat.sub 1%float 0%float ∧
  m_init (net (initialized two_reactors)) = true ∧
  advance 0%float 1%float (initialized two_reactors)
    = advance_integrate 1%float (initialized two_reactors).
Proof.
  assert (H1 : m_init (net two_reactors) = false) by reflexivity.
  assert (H2 : PrimFloat.ltb (m_maxstep (net two_reactors)) 0%float = true)
    by reflexivity.
  assert (H3 : advance 0%float 1%float two_reactors = Ret tt after_advance)
    by (vm_compute; reflexivity).
  assert (H4 : m_init (net (initialized two_reactors)) = true)
    by (vm_compute; reflexivity).
  destruct (lazy_initialize 0%float 1%float two_reactors) as [U _].
  destruct (U H1) as (_ & _ & U1 & _ & U2 & _).
  destruct (U1 _ H3) as [U3 U4].
  destruct (lazy_initialize 0%float 1%float (initialized two_reactors))
    as [_ V].
  destruct (V H4) as (V1 & _).
  split; [exact H1|]. split; [exact H2|]. split; [exact H3|].
  split; [exact U3|]. split; [|split; [exact H4|exact V1]].
  rewrite U4. exact (U2 H2).
Defined.

Lemma globalComponentIndex_offset_witness :
  let w := initialized two_reactors in
  m_size (net w) = [2; 4] ∧
  m_reactors (net w) !! 1%nat = Some 1%nat ∧
  Reactor.componentIndex "X"
    (mk_reactor 2 [3%float; 4%float; 5%float; 6%float] 1 ["T"; "X"; "Y"; "Z"])
    = Ret 1 (mk_reactor 2 [3%float; 4%float; 5%float; 6%float] 1
                        ["T"; "X"; "Y"; "Z"]) ∧
  globalComponentIndex (net w) "X" 1 (env w) = Ret 3 (env w).
Proof.
  intros w.
  assert (H1 : m_size (net w) = [2; 4]) by (vm_compute; reflexivity).
  assert (H2 : m_reactors (net w) !! 1%nat = Some 1%nat)
    by (vm_compute; reflexivity).
  assert (H3 : heap (env w) !! 1%nat
     = Some (mk_reactor 2 [3%float; 4%float; 5%float; 6%float] 1
                        ["T"; "X"; "Y"; "Z"])) by (vm_compute; reflexivity).
  split; [exact H1|]. split; [exact H2|]. split; [reflexivity|].
  exact (proj2 (globalComponentIndex_offset (net w) "X" (env w)) H1
               _ _ _ H2 H3 eq_refl).
Defined.

Lemma toy_writes_within : writes_within (R:=reactor) 0%float.
Proof.
  intros r view vals r1 H. simpl in H. injection H as <- _.
  simpl. lia.
Defined.

Lemma toy_roundtrip : roundtrip (R:=reactor) state 0%float.
Proof.
  intros r view vals r1 view' r2 H1 H2 H3. simpl in *.
  injection H1 as <- <-. injection H3 as <-. simpl. exact H2.
Defined.

Lemma sized_two :
  sized (net (initialized two_reactors)) (env (initialized two_reactors)).
Proof.
  intros j a sz Hj Ha Hs. change (j < 2)%nat in Hj.
  vm_compute in Ha. vm_compute in Hs.
  destruct j as [|[|j]]; [| |lia];
    injection Ha as <-; injection Hs as <-;
    eexists; (split; [vm_compute; reflexivity|vm_compute; reflexivity]).
Defined.

Lemma gather_then_scatter_witness :
  let w := initialized two_reactors in
  let y' := [1%float; 2%float; 3%float; 4%float; 5%float; 6%float] in
  tables_ok (net w) ∧ sized (net w) (env w) ∧ NoDup (m_reactors (net w)) ∧
  writes_within (R:=reactor) 0%float ∧ roundtrip (R:=reactor) state 0%float ∧
  getInitialConditions (net w) 0%float 6 (zeros 6) (env w) = Ret y' (env w) ∧
  updateState (net w) y' (env w) = Ret tt (env w) ∧
  ∀ (a : addr) r, heap (env w) !! a = Some r →
                  ∃ r2, heap (env w) !! a = Some r2 ∧ state r2 = state r.
Proof.
  intros w y'.
  assert (H1 : NoDup (m_reactors (net w))) by exact NoDup_two.
  assert (H2 : getInitialConditions (net w) 0%float 6 (zeros 6) (env w)
               = Ret y' (env w)) by (vm_compute; reflexivity).
  assert (H3 : updateState (net w) y' (env w) = Ret tt (env w))
    by (vm_compute; reflexivity).
  split; [exact tables_ok_two|]. split; [exact sized_two|].
  split; [exact H1|]. split; [exact toy_writes_within|].
  split; [exact toy_roundtrip|]. split; [exact H2|]. split; [exact H3|].
  exact (gather_then_scatter state (net w) 0%float 6 (zeros 6) (env w) y'
           (env w) (env w) tables_ok_two sized_two H1 toy_writes_within
           toy_roundtrip H2 H3).
Defined.

(** C1 at a failing input: a second [initialize] of a network with one
    reactor (three equations, two sensitivity parameters) leaves two
    entries in each table for the one reactor, and a total
    sensitivity-parameter count of 4. *)
Lemma second_initialize_keeps_old_entries :
  let w1 := initialized one_reactor in
  let w2 := initialized w1 in
  initialize 0%float one_reactor = Ret tt w1 ∧
  initialize 0%float w1 = Ret tt w2 ∧
  m_reactors (net w2) = [0%nat] ∧
  m_size (net w2) = [3; 3] ∧
  m_nparams (net w2) = [2; 2] ∧
  nparams (net w2) = 4 ∧
  Reactor.nSensParams <$> heap (env w2) = [2].
Proof.
  intros w1 w2.
  split; [vm_compute; reflexivity|]. split; [vm_compute; reflexivity|].
  split; [vm_compute; reflexivity|]. split; [vm_compute; reflexivity|].
  split; [vm_compute; reflexivity|]. split; vm_compute; reflexivity.
Qed.
End Scenarios.

Module DelegatorScenarios.
Import Delegator DelegatorFacts ToyDelegator.

Lemma after_delegate_adds_witness :
  is_Some (m_funcs_s_sz installed !! "describe") ∧
  m_base_s_sz installed !! "describe" = Some describe ∧
  (∃ d', setDelegate_s_sz "describe" add_def "after" installed = Ret tt d' ∧
         call_s_sz d' "describe" 7 0%nat = Ret "abcdef" 2%nat) ∧
  (∃ d', setDelegate_s_sz "describe" decline "after" installed = Ret tt d' ∧
         call_s_sz d' "describe" 7 0%nat = Ret "abc" 2%nat) ∧
  is_Some (m_funcs_sz_csr installed !! "size_of") ∧
  m_base_sz_csr installed !! "size_of" = Some size_of ∧
  (∃ d', setDelegate_sz_csr 0 "size_of" add_three "after" installed
           = Ret tt d' ∧
         call_sz_csr d' "size_of" "xy" 0%nat = Ret 5 2%nat).
Proof.
  assert (H1 : is_Some (m_funcs_s_sz installed !! "describe"))
    by (eexists; vm_compute; reflexivity).
  assert (H2 : m_base_s_sz installed !! "describe" = Some describe)
    by (vm_compute; reflexivity).
  assert (H3 : is_Some (m_funcs_sz_csr installed !! "size_of"))
    by (eexists; vm_compute; reflexivity).
  assert (H4 : m_base_sz_csr installed !! "size_of" = Some size_of)
    by (vm_compute; reflexivity).
  destruct (after_delegate_adds installed "describe") as [A _].
  destruct (after_delegate_adds installed "size_of") as [_ B].
  split; [exact H1|]. split; [exact H2|]. split; [|split; [|split; [|split]]].
  - destruct (A add_def describe H1 H2) as (d' & E & C). exists d'.
    split; [exact E|].
    exact (C 7 0%nat "abc" 1%nat 1 "def" 2%nat eq_refl eq_refl).
  - destruct (A decline describe H1 H2) as (d' & E & C). exists d'.
    split; [exact E|].
    exact (C 7 0%nat "abc" 1%nat 0 "" 2%nat eq_refl eq_refl).
  - exact H3.
  - exact H4.
  - destruct (B 0 add_three size_of H3 H4) as (d' & E & C). exists d'.
    split; [exact E|].
    exact (C "xy" 0%nat 2 1%nat 1 3 2%nat eq_refl eq_refl).
Defined.
End DelegatorScenarios.

(* ===================================================================== *)
(** * Further statements at concrete networks and delegates *)
(* ===================================================================== *)

Module DriverScenarios.
Import ReactorNet ReactorNetSpec CxxFacts ReactorNetFacts Toy Scenarios.

Lemma initialize_fills_atol_witness :
  let w' := initialized two_reactors in
  initialize 0%float two_reactors = Ret tt w' ∧
  0 ≤ neq (net w') ∧
  m_atol (net w') = replicate (Z.to_nat (neq (net w'))) (m_atols (net w')).
Proof.
  intros w'.
  assert (H : initialize 0%float two_reactors = Ret tt w')
    by (vm_compute; reflexivity).
  split; [exact H|].
  exact (initialize_fills_atol 0%float two_reactors w' H).
Defined.

Lemma initialize_appends_witness :
  let w := initialized one_reactor in
  let w' := initialized w in
  NoDup (m_r (net w)) ∧ initialize 0%float w = Ret tt w' ∧
  ∃ sizes params : list Z,
    length sizes = length (m_reactors (net w')) ∧
    length params = length (m_reactors (net w')) ∧
    m_size (net w') = m_size (net w) ++ sizes ∧
    m_nparams (net w') = m_nparams (net w) ++ params ∧
    m_nv (net w') = sumZ sizes ∧
    m_ntotpar (net w') = m_ntotpar (net w) + sumZ params ∧
    m_nreactors (net w') = Z.of_nat (length (m_reactors (net w'))).
Proof.
  intros w w'.
  assert (H1 : NoDup (m_r (net w))).
  { assert (E : m_r (net w) = [0%nat]) by (vm_compute; reflexivity).
    rewrite E. by apply (bool_decide_unpack _). }
  assert (H2 : initialize 0%float w = Ret tt w') by (vm_compute; reflexivity).
  split; [exact H1|]. split; [exact H2|].
  exact (initialize_appends 0%float w w' H1 H2).
Defined.

Lemma initialize_skips_other_handles_witness :
  let w := reservoir_and_reactor in
  let w1 := registered_only w in
  initialize_reactors 0%float w = Ret tt w1 ∧
  qualifies (heap (env w)) 0%nat = false ∧
  NoDup (m_r (net w)) ∧
  heap (env w1) !! 0%nat = heap (env w) !! 0%nat ∧
  0%nat ∉ m_reactors (net w1).
Proof.
  intros w w1.
  assert (H1 : initialize_reactors 0%float w = Ret tt w1)
    by (vm_compute; reflexivity).
  assert (H2 : qualifies (heap (env w)) 0%nat = false)
    by (vm_compute; reflexivity).
  assert (H3 : NoDup (m_r (net w))) by exact NoDup_two.
  destruct (initialize_skips_other_handles 0%float w w1 H1 0%nat H2)
    as [A B].
  split; [exact H1|]. split; [exact H2|]. split; [exact H3|].
  split; [exact A|exact (B H3)].
Defined.

Lemma getInitialConditions_places_witness :
  let w := initialized two_reactors in
  let y' := [1%float; 2%float; 3%float; 4%float; 5%float; 6%float] in
  tables_ok (net w) ∧ sized (net w) (env w) ∧ NoDup (m_reactors (net w)) ∧
  writes_within (R:=reactor) 0%float ∧
  getInitialConditions (net w) 0%float 6 (zeros 6) (env w) = Ret y' (env w) ∧
  length y' = length (zeros 6) ∧
  ∀ (j : nat) (a : addr),
    (j < Z.to_nat (m_nreactors (net w)))%nat →
    m_reactors (net w) !! j = Some a →
    ∃ view r r1 vals,
      heap (env w) !! a = Some r ∧
      Reactor.getInitialConditions 0%float (size_t_of_int (Reactor.neq r))
        view r = Ret vals r1 ∧
      heap (env w) !! a = Some r1 ∧
      take (length vals) (drop (Z.to_nat (offset (m_size (net w)) j)) y')
        = vals.
Proof.
  intros w y'.
  assert (H1 : NoDup (m_reactors (net w))) by exact NoDup_two.
  assert (H2 : getInitialConditions (net w) 0%float 6 (zeros 6) (env w)
               = Ret y' (env w)) by (vm_compute; reflexivity).
  split; [exact tables_ok_two|]. split; [exact sized_two|].
  split; [exact H1|]. split; [exact toy_writes_within|]. split; [exact H2|].
  exact (getInitialConditions_places (net w) 0%float 6 (zeros 6) (env w) y'
           (env w) tables_ok_two sized_two H1 toy_writes_within H2).
Defined.

Lemma globalComponentIndex_unchecked_witness :
  let w := initialized two_reactors in
  -1 < 0 ∧
  globalComponentIndex (net w) "P" (-1) (env w)
    = globalComponentIndex (net w) "P" 0 (env w) ∧
  (length (m_reactors (net w)) ≤ 2)%nat ∧
  globalComponentIndex (net w) "P" (Z.of_nat 2) (env w) = Undef.
Proof.
  intros w.
  assert (H1 : -1 < 0) by reflexivity.
  assert (H2 : (length (m_reactors (net w)) ≤ 2)%nat).
  { assert (E : length (m_reactors (net w)) = 2%nat)
      by (vm_compute; reflexivity).
    rewrite E. constructor. }
  destruct (globalComponentIndex_unchecked (net w) "P" (env w)) as [A B].
  split; [exact H1|]. split; [exact (A (-1) H1)|].
  split; [exact H2|exact (B 2%nat H2)].
Defined.

Lemma failed_integration_keeps_time_witness :
  let w := initialized one_broken in
  let e1 := set_logged [LogShowErrors; LogError "Terminating execution."]
                       (env w) in
  m_init (net w) = true ∧
  Integrator.integrate (as_FuncEval (net w)) 1%float (m_integ (net w), env w)
    = Exit (m_integ (net w), e1) ∧
  advance 0%float 1%float w
    = Exit {| net := set_m_integ (m_integ (net w)) (net w); env := e1 |} ∧
  Integrator.step (as_FuncEval (net w)) 1%float (m_integ (net w), env w)
    = Exit (m_integ (net w), e1) ∧
  step 0%float 1%float w
    = Exit {| net := set_m_integ (m_integ (net w)) (net w); env := e1 |}.
Proof.
  intros w e1.
  assert (H1 : m_init (net w) = true) by (vm_compute; reflexivity).
  assert (H2 : Integrator.integrate (as_FuncEval (net w)) 1%float
                 (m_integ (net w), env w) = Exit (m_integ (net w), e1))
    by (vm_compute; reflexivity).
  assert (H3 : Integrator.step (as_FuncEval (net w)) 1%float
                 (m_integ (net w), env w) = Exit (m_integ (net w), e1))
    by (vm_compute; reflexivity).
  destruct (failed_integration_keeps_time 0%float 1%float w H1)
    as (_ & A & _ & B).
  split; [exact H1|]. split; [exact H2|]. split; [exact (A _ _ H2)|].
  split; [exact H3|exact (B _ _ H3)].
Defined.

End DriverScenarios.

Module DelegateScenarios.
Import Delegator DelegatorVoid DelegatorSpec DelegatorFacts DelegatorVoidFacts.
Import ToyDelegator ToyDelegatorVoid.

Lemma describe_installed :
  is_Some (m_funcs_s_sz installed !! "describe") ∧
  m_base_s_sz installed !! "describe" = Some describe.
Proof. split; [eexists|]; vm_compute; reflexivity. Defined.

Lemma size_of_installed :
  is_Some (m_funcs_sz_csr installed !! "size_of") ∧
  m_base_sz_csr installed !! "size_of" = Some size_of.
Proof. split; [eexists|]; vm_compute; reflexivity. Defined.

Lemma setDelegate_unknown_name_witness :
  m_funcs_s_sz installed !! "size_of" = None ∧
  setDelegate_s_sz "size_of" add_def "after" installed
    = Throw (unknown_name_error "size_of" "string(size_t)") installed ∧
  m_funcs_sz_csr installed !! "describe" = None ∧
  setDelegate_sz_csr 0 "describe" add_three "after" installed
    = Throw (unknown_name_error "describe" "size_t(const string&)") installed.
Proof.
  assert (H1 : m_funcs_s_sz installed !! "size_of" = None)
    by (vm_compute; reflexivity).
  assert (H2 : m_funcs_sz_csr installed !! "describe" = None)
    by (vm_compute; reflexivity).
  split; [exact H1|].
  split; [exact (proj1 (setDelegate_unknown_name installed "size_of" "after")
                   add_def H1)|].
  split; [exact H2|].
  exact (proj2 (setDelegate_unknown_name installed "describe" "after")
           0 add_three H2).
Defined.

Lemma setDelegate_invalid_when_witness :
  valid_when "around" = false ∧
  is_Some (m_funcs_s_sz installed !! "describe") ∧
  is_Some (m_base_s_sz installed !! "describe") ∧
  setDelegate_s_sz "describe" add_def "around" installed
    = Throw (invalid_when_error "around") installed.
Proof.
  assert (H1 : valid_when "around" = false) by reflexivity.
  destruct describe_installed as [H2 H3].
  assert (H4 : is_Some (m_base_s_sz installed !! "describe"))
    by (rewrite H3; by eexists).
  destruct (proj1 (setDelegate_invalid_when installed "describe" "around" H1)
              add_def H2) as (d' & E & _ & _ & K).
  split; [exact H1|]. split; [exact H2|]. split; [exact H4|].
  rewrite <- (K H4) at 2. exact E.
Defined.

Lemma before_delegate_first_witness :
  is_Some (m_funcs_s_sz installed !! "describe") ∧
  m_base_s_sz installed !! "describe" = Some describe ∧
  (∃ d', setDelegate_s_sz "describe" add_def "before" installed = Ret tt d' ∧
         call_s_sz d' "describe" 7 0%nat = Ret "def" 1%nat) ∧
  (∃ d', setDelegate_s_sz "describe" decline "before" installed = Ret tt d' ∧
         call_s_sz d' "describe" 7 0%nat = Ret "abc" 2%nat) ∧
  is_Some (m_funcs_sz_csr installed !! "size_of") ∧
  m_base_sz_csr installed !! "size_of" = Some size_of ∧
  (∃ d', setDelegate_sz_csr 0 "size_of" add_three "before" installed
           = Ret tt d' ∧
         call_sz_csr d' "size_of" "xy" 0%nat = Ret 3 1%nat).
Proof.
  destruct describe_installed as [H1 H2].
  destruct size_of_installed as [H3 H4].
  destruct (before_delegate_first installed "describe") as [A _].
  destruct (before_delegate_first installed "size_of") as [_ B].
  split; [exact H1|]. split; [exact H2|]. split; [|split; [|split; [|split]]].
  - destruct (A add_def describe H1 H2) as (d' & E & C). exists d'.
    split; [exact E|]. exact (C 7 0%nat 1 "def" 1%nat eq_refl).
  - destruct (A decline describe H1 H2) as (d' & E & C). exists d'.
    split; [exact E|]. exact (C 7 0%nat 0 "" 1%nat eq_refl).
  - exact H3.
  - exact H4.
  - destruct (B 0 add_three size_of H3 H4) as (d' & E & C). exists d'.
    split; [exact E|]. exact (C "xy" 0%nat 1 3 1%nat eq_refl).
Defined.

Lemma replace_delegate_only_witness :
  is_Some (m_funcs_s_sz installed !! "describe") ∧
  (∃ d', setDelegate_s_sz "describe" add_def "replace" installed = Ret tt d' ∧
         call_s_sz d' "describe" 7 0%nat = Ret "def" 1%nat) ∧
  (∃ d', setDelegate_s_sz "describe" decline "replace" installed = Ret tt d' ∧
         call_s_sz d' "describe" 7 0%nat = Ret "" 1%nat) ∧
  is_Some (m_funcs_sz_csr installed !! "size_of") ∧
  (∀ held, add_three held "xy" 0%nat = Ret (1, 3) 1%nat) ∧
  (∃ d', setDelegate_sz_csr 0 "size_of" add_three "replace" installed
           = Ret tt d' ∧
         call_sz_csr d' "size_of" "xy" 0%nat = Ret 3 1%nat).
Proof.
  destruct describe_installed as [H1 _].
  destruct size_of_installed as [H3 _].
  assert (H4 : ∀ held, add_three held "xy" 0%nat = Ret (1, 3) 1%nat)
    by (intros held; reflexivity).
  destruct (replace_delegate_only installed "describe") as [A _].
  destruct (replace_delegate_only installed "size_of") as [_ B].
  split; [exact H1|]. split; [|split; [|split; [|split]]].
  - destruct (A add_def H1) as (d' & E & C). exists d'.
    split; [exact E|]. exact (C 7 0%nat 1 "def" 1%nat eq_refl).
  - destruct (A decline H1) as (d' & E & C). exists d'.
    split; [exact E|]. exact (C 7 0%nat 0 "" 1%nat eq_refl).
  - exact H3.
  - exact H4.
  - destruct (B 0 add_three H3) as (d' & E & C). exists d'.
    split; [exact E|]. exact (C "xy" 0%nat 1 3 1%nat H4).
Defined.

Lemma value_delegates_do_not_stack_witness :
  valid_when "after" = true ∧
  setDelegate_s_sz "describe" add_def "after" installed = Ret tt with_def ∧
  setDelegate_s_sz "describe" decline "after" with_def
    = setDelegate_s_sz "describe" decline "after" installed.
Proof.
  assert (H1 : valid_when "after" = true) by reflexivity.
  assert (H2 : setDelegate_s_sz "describe" add_def "after" installed
               = Ret tt with_def) by (vm_compute; reflexivity).
  split; [exact H1|]. split; [exact H2|].
  exact (proj1 (value_delegates_do_not_stack installed "describe" "after"
                  "after" H1) add_def decline with_def H2).
Defined.

Lemma update_installed :
  m_funcs installed_void !! "update" = Some 0%nat ∧
  m_funcs installed_void !! "refresh" = Some 0%nat ∧
  targets installed_void !! 0%nat = Some (note 0).
Proof.
  split; [|split]; vm_compute; reflexivity.
Defined.

Lemma void_delegates_stack_witness :
  m_funcs installed_void !! "update" = Some 0%nat ∧
  targets installed_void !! 0%nat = Some (note 0) ∧
  (∃ d2, (setDelegate_v_b "update" (note 1) "after";;
          setDelegate_v_b "update" (note 2) "after") installed_void
           = Ret tt d2 ∧
         call_target d2 0 true [] = Ret tt [0; 1; 2]%nat) ∧
  (∃ d2, (setDelegate_v_b "update" (note 1) "before";;
          setDelegate_v_b "update" (note 2) "before") installed_void
           = Ret tt d2 ∧
         call_target d2 0 true [] = Ret tt [2; 1; 0]%nat) ∧
  (∃ d2, (setDelegate_v_b "update" refuse "after";;
          setDelegate_v_b "update" (note 2) "after") installed_void
           = Ret tt d2 ∧
         call_target d2 0 true [] = Throw (ForeignException 7) [0%nat]).
Proof.
  destruct update_installed as (H1 & _ & H2).
  split; [exact H1|]. split; [exact H2|]. split; [|split].
  - destruct (void_delegates_stack "void(bool)" "update" installed_void 0
                (note 0) (note 1) (note 2) H1 H2) as ((d2 & E & _ & C) & _).
    exists d2. split; [exact E|]. rewrite C. reflexivity.
  - destruct (void_delegates_stack "void(bool)" "update" installed_void 0
                (note 0) (note 1) (note 2) H1 H2)
      as (_ & (d2 & E & _ & C) & _).
    exists d2. split; [exact E|]. rewrite C. reflexivity.
  - destruct (void_delegates_stack "void(bool)" "update" installed_void 0
                (note 0) refuse (note 2) H1 H2) as ((d2 & E & _ & C) & _).
    exists d2. split; [exact E|]. rewrite C. reflexivity.
Defined.

Lemma void_delegate_shared_target_witness :
  m_funcs installed_void !! "update" = Some 0%nat ∧
  m_funcs installed_void !! "refresh" = Some 0%nat ∧
  targets installed_void !! 0%nat = Some (note 0) ∧
  ∃ d1, setDelegate_v_b "update" (note 1) "after" installed_void = Ret tt d1 ∧
        m_funcs d1 !! "refresh" = Some 0%nat ∧
        call_target d1 0 true [] = Ret tt [0; 1]%nat.
Proof.
  destruct update_installed as (H1 & H2 & H3).
  split; [exact H1|]. split; [exact H2|]. split; [exact H3|].
  destruct (void_delegate_shared_target "void(bool)" "update" "refresh"
              installed_void 0 (note 0) (note 1) H1 H2 H3)
    as (d1 & E & C & _).
  exists d1. split; [exact E|].
  assert (H4 : m_funcs d1 !! "refresh" = Some 0%nat).
  { unfold setDelegate_v_b in E. vm_compute in E. injection E as <-.
    vm_compute. reflexivity. }
  split; [exact H4|]. rewrite (C 0%nat H4). reflexivity.
Defined.

Lemma setDelegate_void_errors_witness :
  m_funcs installed_void !! "advance" = None ∧
  setDelegate_v_b "advance" (note 1) "after" installed_void
    = Throw (unknown_name_error "advance" "void(bool)") installed_void ∧
  m_funcs installed_void !! "update" = Some 0%nat ∧
  targets installed_void !! 0%nat = Some (note 0) ∧
  valid_when "around" = false ∧
  setDelegate_v_b "update" (note 1) "around" installed_void
    = Throw (invalid_when_error "around") installed_void.
Proof.
  assert (H0 : m_funcs installed_void !! "advance" = None)
    by (vm_compute; reflexivity).
  destruct update_installed as (H1 & _ & H2).
  assert (H3 : valid_when "around" = false) by reflexivity.
  split; [exact H0|].
  split; [exact (proj1 (setDelegate_void_errors "void(bool)" "advance"
                          (note 1) "after" installed_void) H0)|].
  split; [exact H1|]. split; [exact H2|]. split; [exact H3|].
  exact (proj2 (setDelegate_void_errors "void(bool)" "update" (note 1)
                  "around" installed_void) 0%nat (note 0) H1 H2 H3).
Defined.

End DelegateScenarios.
